(** * wgpu-polyfill: struct marshalling core and callback bridge

    A shallow embedding of
      - [src/structs/layout.ts]   (layout engine),
      - [src/structs/encoder.ts]  (StructEncoder / StructDecoder),
      - [src/async/callback-registry.ts] (CallbackRegistry),
      - [src/async/polling.ts]    (pollUntilComplete),
    followed by the properties established about them.

    Conventions of the embedding.
      - A JavaScript [number] is an integer of [Z]: every number the layout
        engine and the integer kinds of the encoder handle is integral,
        and the floating-point kinds are modelled on the integers their
        formats hold. NaN, the infinities, the negative zero and
        fractions are not represented.
      - Arithmetic on numbers is exact here. In JavaScript a sum of
        non-negative integers is exact up to [2^53] and rounded beyond:
        what depends on the sums of the layout engine is stated for
        sizes within that range ([Layout.exact_range]).
      - Memory is not bounded: an allocation of a length that is a safe
        integer succeeds.
      - [%] on numbers is the truncating remainder, [Z.rem].
      - A byte buffer ([ArrayBuffer], [Uint8Array], [DataView]) is a
        [list byte]; multi-byte accesses are little-endian, as every call
        in the source passes [true] for [littleEndian].
      - A thrown exception is the [Throws] outcome. *)

From Stdlib Require Import ZArith String Ascii List Lia Bool.
From Stdlib Require Import DecimalString.
From coqutil Require Import Byte Word.LittleEndianList.
From Equations Require Import Equations.
Import ListNotations.
Local Open Scope Z_scope.

(** ** Outcomes of JavaScript calls *)

Inductive JsError : Type :=
| Error (message : string)
| TypeError
| RangeError.

(** [Returns a]: normal completion. [Throws e]: an exception propagates.
    [OutsideModel]: the call leaves the fragment of JavaScript that the
    embedding covers (numbers that are not integers, coercion of objects
    to primitives). *)
Inductive outcome (A : Type) : Type :=
| Returns (a : A)
| Throws (e : JsError)
| OutsideModel.

Arguments Returns {A} a.
Arguments Throws {A} e.
Arguments OutsideModel {A}.

Definition bind {A B : Type} (m : outcome A) (k : A -> outcome B) : outcome B :=
  match m with
  | Returns a => k a
  | Throws e => Throws e
  | OutsideModel => OutsideModel
  end.

Notation "x <- m ;; k" := (bind m (fun x => k))
  (at level 61, m at next level, right associativity).

(** A [for (const x of l) { s = body(s, x) }] loop; an exception raised by
    the body leaves the loop. *)
Fixpoint forEach {A S : Type} (body : S -> A -> outcome S) (l : list A) (s : S)
  : outcome S :=
  match l with
  | [] => Returns s
  | x :: rest =>
      match body s x with
      | Returns s' => forEach body rest s'
      | Throws e => Throws e
      | OutsideModel => OutsideModel
      end
  end.

(** Template-literal rendering of an integral number: [`${n}`]. *)
Definition decimal (n : Z) : string := NilZero.string_of_int (Z.to_int n).

(** [Number.MAX_SAFE_INTEGER]: up to here every integer is a number and
    sums of non-negative integers are exact. *)
Definition MAX_SAFE_INTEGER : Z := 2 ^ 53 - 1.

(** ** Layout engine: [src/structs/layout.ts] *)

Module Layout.

Inductive PrimitiveType : Type :=
| Pu8 | Pi8 | Pu16 | Pi16 | Pu32 | Pi32 | Pu64 | Pi64
| Pf32 | Pf64 | Pptr | Pusize | Pbool.

(** [FieldType], [FieldLayout] and [StructLayout] refer to each other: a
    field of nested-struct type carries the nested layout. *)
#[local] Unset Elimination Schemes.
Inductive FieldType : Type :=
| TPrim (p : PrimitiveType)
| TStruct (struct : StructLayout)
| TArray (array : PrimitiveType) (count : Z)
with StructLayout : Type :=
| mkStructLayout (name : string) (fields : list FieldLayout)
                 (size : Z) (alignment : Z)
with FieldLayout : Type :=
| mkFieldLayout (name : string) (type : FieldType)
                (offset : Z) (size : Z) (alignment : Z).
#[local] Set Elimination Schemes.

Definition sl_name (l : StructLayout) : string :=
  match l with mkStructLayout n _ _ _ => n end.
Definition sl_fields (l : StructLayout) : list FieldLayout :=
  match l with mkStructLayout _ fs _ _ => fs end.
Definition sl_size (l : StructLayout) : Z :=
  match l with mkStructLayout _ _ s _ => s end.
Definition sl_alignment (l : StructLayout) : Z :=
  match l with mkStructLayout _ _ _ a => a end.

Definition fl_name (f : FieldLayout) : string :=
  match f with mkFieldLayout n _ _ _ _ => n end.
Definition fl_type (f : FieldLayout) : FieldType :=
  match f with mkFieldLayout _ t _ _ _ => t end.
Definition fl_offset (f : FieldLayout) : Z :=
  match f with mkFieldLayout _ _ o _ _ => o end.
Definition fl_size (f : FieldLayout) : Z :=
  match f with mkFieldLayout _ _ _ s _ => s end.
Definition fl_alignment (f : FieldLayout) : Z :=
  match f with mkFieldLayout _ _ _ _ a => a end.

Record FieldDef : Type := mkFieldDef { fd_name : string; fd_type : FieldType }.

Record TypeInfo : Type := mkTypeInfo { ti_size : Z; ti_alignment : Z }.

Definition TYPE_INFO (p : PrimitiveType) : TypeInfo :=
  match p with
  | Pu8 => mkTypeInfo 1 1
  | Pi8 => mkTypeInfo 1 1
  | Pu16 => mkTypeInfo 2 2
  | Pi16 => mkTypeInfo 2 2
  | Pu32 => mkTypeInfo 4 4
  | Pi32 => mkTypeInfo 4 4
  | Pu64 => mkTypeInfo 8 8
  | Pi64 => mkTypeInfo 8 8
  | Pf32 => mkTypeInfo 4 4
  | Pf64 => mkTypeInfo 8 8
  | Pptr => mkTypeInfo 8 8
  | Pusize => mkTypeInfo 8 8
  | Pbool => mkTypeInfo 4 4
  end.

(** The final [throw new Error("Unknown type")] of the source is
    unreachable for a value of type [FieldType]. *)
Definition getTypeInfo (type : FieldType) : TypeInfo :=
  match type with
  | TPrim p => TYPE_INFO p
  | TStruct s => mkTypeInfo (sl_size s) (sl_alignment s)
  | TArray p count =>
      let elemInfo := TYPE_INFO p in
      mkTypeInfo (ti_size elemInfo * count) (ti_alignment elemInfo)
  end.

(** [offset % alignment] is NaN in JavaScript when [alignment] is 0; the
    properties below are stated for non-zero alignments. *)
Definition align (offset alignment : Z) : Z :=
  let remainder := Z.rem offset alignment in
  if remainder =? 0 then offset else offset + (alignment - remainder).

(** The three variables the loop of [defineStruct] updates. *)
Record LayoutState : Type := mkLayoutState {
  ls_offset : Z;
  ls_maxAlignment : Z;
  ls_layoutFields : list FieldLayout
}.

(** One iteration of [for (const field of fields)]. *)
Definition defineStruct_step (st : LayoutState) (field : FieldDef) : LayoutState :=
  let info := getTypeInfo (fd_type field) in
  let offset := align (ls_offset st) (ti_alignment info) in
  let maxAlignment := Z.max (ls_maxAlignment st) (ti_alignment info) in
  let layoutFields :=
    ls_layoutFields st ++
      [mkFieldLayout (fd_name field) (fd_type field) offset
                     (ti_size info) (ti_alignment info)] in
  mkLayoutState (offset + ti_size info) maxAlignment layoutFields.

Definition defineStruct (name : string) (fields : list FieldDef) : StructLayout :=
  let st := fold_left defineStruct_step fields (mkLayoutState 0 1 []) in
  let structSize := align (ls_offset st) (ls_maxAlignment st) in
  mkStructLayout name (ls_layoutFields st) structSize (ls_maxAlignment st).

Definition getFieldOffset (layout : StructLayout) (fieldName : string) : outcome Z :=
  match find (fun f => String.eqb (fl_name f) fieldName) (sl_fields layout) with
  | None =>
      Throws (Error ("Field '" ++ fieldName ++ "' not found in struct '"
                       ++ sl_name layout ++ "'"))
  | Some field => Returns (fl_offset field)
  end.

(** *** The layout algorithm in the words of the specification

    "Walk fields in declaration order; maintain a running offset and a
    running max-alignment. For each field: round the running offset up to
    the field's alignment, record that as the field's offset, add the
    field's size to the running offset, update max-alignment. After all
    fields, round the final offset up to max-alignment." *)
Fixpoint walk (offset maxAlignment : Z) (fields : list FieldDef)
  : list FieldLayout * Z * Z :=
  match fields with
  | [] => ([], offset, maxAlignment)
  | f :: rest =>
      let info := getTypeInfo (fd_type f) in
      let here := align offset (ti_alignment info) in
      let '(ls, final, m) :=
        walk (here + ti_size info) (Z.max maxAlignment (ti_alignment info)) rest in
      (mkFieldLayout (fd_name f) (fd_type f) here (ti_size info) (ti_alignment info)
         :: ls, final, m)
  end.

Definition computeLayout (name : string) (fields : list FieldDef) : StructLayout :=
  let '(ls, final, m) := walk 0 1 fields in
  mkStructLayout name ls (align final m) m.

(** Field types whose nested struct layouts carry a positive alignment,
    as every layout returned by [defineStruct] does. *)
Definition positive_alignment (f : FieldDef) : Prop :=
  0 < ti_alignment (getTypeInfo (fd_type f)).

(** Field types of non-negative size: primitives, arrays of non-negative
    count, nested layouts that [defineStruct] returned for such types. *)
Definition nonnegative_size (f : FieldDef) : Prop :=
  0 <= ti_size (getTypeInfo (fd_type f)).

(** The numbers of JavaScript are doubles. A sum or product of
    non-negative integers is exact when it does not exceed
    [MAX_SAFE_INTEGER]; a larger one may be rounded. For field types of
    non-negative size and positive alignment the running offset of
    [defineStruct] only grows and ends at the size of the layout, and
    the size of an array is at most that, so every sum and product of
    [getTypeInfo], [align] and [defineStruct] is exact when the size
    stays within [MAX_SAFE_INTEGER]. Beyond, the source rounds where the
    embedding adds exactly: the properties of computed offsets and sizes
    are stated within this range. *)
Definition exact_range (layout : StructLayout) : Prop :=
  sl_size layout <= MAX_SAFE_INTEGER.

(** The struct of the specification's first scenario. *)
Definition scenario1 : list FieldDef :=
  [ mkFieldDef "a" (TPrim Pu32);
    mkFieldDef "b" (TPrim Pu64);
    mkFieldDef "c" (TPrim Pu32) ].

(** What the walk guarantees when it starts at [offset] with a positive
    running max-alignment. *)
Definition walk_ok (offset : Z) (r : list FieldLayout * Z * Z) : Prop :=
  let '(ls, final, m) := r in
  0 < m
  /\ Forall (fun f => Z.rem (fl_offset f) (fl_alignment f) = 0) ls
  /\ (forall f, nth_error ls 0 = Some f -> offset <= fl_offset f)
  /\ (forall i f g, nth_error ls i = Some f -> nth_error ls (S i) = Some g ->
                    fl_offset f + fl_size f <= fl_offset g).

End Layout.

(** ** [DataView] over a byte buffer *)

Module DataView.

Definition Buffer : Type := list byte.

(** [new ArrayBuffer(size)]: zero-filled. A length that is negative or
    above [MAX_SAFE_INTEGER] is a RangeError ([ToIndex]). Memory is not
    bounded otherwise: an allocation of a length in that range
    succeeds. *)
Definition ArrayBuffer_new (size : Z) : outcome Buffer :=
  if (size <? 0) || (MAX_SAFE_INTEGER <? size) then Throws RangeError
  else Returns (repeat Byte.x00 (Z.to_nat size)).

(** JavaScript primitives that the encoder is handed for a primitive
    field. Numbers and bigints are kept apart: [SNum 5] is [5], [SBig 5]
    is [5n]. Strings and symbols are not represented. *)
Inductive Scalar : Type :=
| SUndefined
| SNull
| SBool (b : bool)
| SNum (n : Z)
| SBig (n : Z).

Inductive JsNumber : Type := NaN | Num (n : Z).

(** ECMAScript [ToNumber] on the primitives above. *)
Definition ToNumber (v : Scalar) : outcome JsNumber :=
  match v with
  | SUndefined => Returns NaN
  | SNull => Returns (Num 0)
  | SBool b => Returns (Num (if b then 1 else 0))
  | SNum n => Returns (Num n)
  | SBig _ => Throws TypeError
  end.

(** The integer a number is reduced from by [ToUint8] ... [ToInt32]: NaN
    becomes 0; the reduction modulo [2^(8*w)] happens when the bytes are
    split off. *)
Definition integral (x : JsNumber) : Z :=
  match x with NaN => 0 | Num n => n end.

(** Overwrite [length bs] bytes at [offset]; the view's bounds check. *)
Definition store (buf : Buffer) (offset : Z) (bs : list byte) : outcome Buffer :=
  if Z.of_nat (length buf) <? offset + Z.of_nat (length bs) then Throws RangeError
  else
    let i := Z.to_nat offset in
    Returns (firstn i buf ++ bs ++ skipn (i + length bs) buf).

Definition load (buf : Buffer) (offset : Z) (w : nat) : outcome (list byte) :=
  if offset <? 0 then Throws RangeError
  else if Z.of_nat (length buf) <? offset + Z.of_nat w then Throws RangeError
  else Returns (firstn w (skipn (Z.to_nat offset) buf)).

(** [SetViewValue] for the Number element types of width [w] bytes, in
    the order of the standard: index conversion, value conversion, bounds
    check, little-endian store. *)
Definition setNumber (w : nat) (buf : Buffer) (offset : Z) (value : Scalar)
  : outcome Buffer :=
  if offset <? 0 then Throws RangeError
  else
    x <- ToNumber value ;;
    store buf offset (le_split w (integral x)).

Definition setUint8 := setNumber 1.
Definition setInt8 := setNumber 1.
Definition setUint16 := setNumber 2.
Definition setInt16 := setNumber 2.
Definition setUint32 := setNumber 4.
Definition setInt32 := setNumber 4.

(** [setBigUint64] / [setBigInt64] on a value that is already a bigint. *)
Definition setBig64 (buf : Buffer) (offset : Z) (value : Z) : outcome Buffer :=
  if offset <? 0 then Throws RangeError
  else store buf offset (le_split 8 value).

Definition setBigUint64 := setBig64.
Definition setBigInt64 := setBig64.

Definition getUnsigned (w : nat) (buf : Buffer) (offset : Z) : outcome Z :=
  bs <- load buf offset w ;; Returns (le_combine bs).

Definition signed (w : nat) (u : Z) : Z :=
  if u <? 2 ^ (8 * Z.of_nat w - 1) then u else u - 2 ^ (8 * Z.of_nat w).

Definition getSigned (w : nat) (buf : Buffer) (offset : Z) : outcome Z :=
  bs <- load buf offset w ;; Returns (signed w (le_combine bs)).

Definition getUint8 := getUnsigned 1.
Definition getInt8 := getSigned 1.
Definition getUint16 := getUnsigned 2.
Definition getInt16 := getSigned 2.
Definition getUint32 := getUnsigned 4.
Definition getInt32 := getSigned 4.
Definition getBigUint64 := getUnsigned 8.
Definition getBigInt64 := getSigned 8.

(** The [BigInt(value)] conversion function. *)
Definition BigInt (v : Scalar) : outcome Z :=
  match v with
  | SUndefined => Throws TypeError
  | SNull => Throws TypeError
  | SBool b => Returns (if b then 1 else 0)
  | SNum n => Returns n
  | SBig n => Returns n
  end.

(** [Number(b)] for a bigint [b]: the nearest double, ties to even. A
    magnitude below [2^53] is exact. *)
Definition Number_of_BigInt (b : Z) : Z :=
  let m := Z.abs b in
  if m <? 2 ^ 53 then b
  else
    let e := Z.log2 m - 52 in
    let q := m / 2 ^ e in
    let r := m mod 2 ^ e in
    let half := 2 ^ (e - 1) in
    let q' := if r <? half then q
              else if half <? r then q + 1
              else if Z.even q then q else q + 1 in
    Z.sgn b * (q' * 2 ^ e).

(** *** The binary formats of [setFloat32] and [setFloat64]

    A format has [prec] significant bits and [ew] exponent bits: 24 and
    8 for binary32, 53 and 11 for binary64. Numbers being integers, the
    formats are modelled on integers: [nearest] is the rounding of the
    format, [float_bits] the encoding of the rounded integer, and
    [float_value] the integer a bit pattern denotes, when it denotes
    one. *)

(** The integer of at most [prec] significant bits nearest to [n], ties
    to even. *)
Definition nearest (prec : Z) (n : Z) : Z :=
  let m := Z.abs n in
  if m <? 2 ^ prec then n
  else
    let e := Z.log2 m - (prec - 1) in
    let q := m / 2 ^ e in
    let r := m mod 2 ^ e in
    let half := 2 ^ (e - 1) in
    let q' := if r <? half then q
              else if half <? r then q + 1
              else if Z.even q then q else q + 1 in
    Z.sgn n * (q' * 2 ^ e).

(** Sign bit, biased exponent, fraction. A magnitude of [2^(2^(ew-1))]
    or more after rounding overflows to an infinity. *)
Definition float_bits (prec ew : Z) (n : Z) : Z :=
  let r := nearest prec n in
  let m := Z.abs r in
  let sign := if r <? 0 then 2 ^ (prec - 1 + ew) else 0 in
  let bias := 2 ^ (ew - 1) - 1 in
  if m =? 0 then 0
  else
    let e := Z.log2 m in
    if bias <? e then sign + (2 ^ ew - 1) * 2 ^ (prec - 1)
    else sign + (e + bias) * 2 ^ (prec - 1)
              + (Z.shiftl m (prec - 1 - e) - 2 ^ (prec - 1)).

(** A NaN, an infinity, the negative zero, a subnormal and a number with
    a fractional part are not integers: [OutsideModel]. *)
Definition float_value (prec ew : Z) (bits : Z) : outcome Z :=
  let fraction := bits mod 2 ^ (prec - 1) in
  let exponent := (bits / 2 ^ (prec - 1)) mod 2 ^ ew in
  let negative := 2 ^ (prec - 1 + ew) <=? bits in
  let bias := 2 ^ (ew - 1) - 1 in
  if exponent =? 2 ^ ew - 1 then OutsideModel
  else if exponent =? 0
       then if (fraction =? 0) && negb negative then Returns 0 else OutsideModel
       else
         let m := 2 ^ (prec - 1) + fraction in
         let x := exponent - bias - (prec - 1) in
         let v := Z.shiftl m x in
         if Z.shiftl v (- x) =? m
         then Returns (if negative then - v else v)
         else OutsideModel.

(** [SetViewValue] for the Float32 and Float64 element types. The bit
    pattern stored for NaN is left to the implementation and not
    modelled. *)
Definition setFloat (prec ew : Z) (w : nat) (buf : Buffer) (offset : Z) (value : Scalar)
  : outcome Buffer :=
  if offset <? 0 then Throws RangeError
  else
    x <- ToNumber value ;;
    match x with
    | Num n => store buf offset (le_split w (float_bits prec ew n))
    | NaN =>
        match store buf offset (le_split w 0) with
        | Throws e => Throws e
        | _ => OutsideModel
        end
    end.

Definition setFloat32 := setFloat 24 8 4.
Definition setFloat64 := setFloat 53 11 8.

Definition getFloat (prec ew : Z) (w : nat) (buf : Buffer) (offset : Z) : outcome Z :=
  bs <- load buf offset w ;; float_value prec ew (le_combine bs).

Definition getFloat32 := getFloat 24 8 4.
Definition getFloat64 := getFloat 53 11 8.

(** An integer the format holds exactly: rounding leaves it as it is,
    and it is below the overflow threshold. *)
Definition representable (prec ew : Z) (n : Z) : bool :=
  (nearest prec n =? n) && (Z.abs n <? 2 ^ 2 ^ (ew - 1)).

End DataView.

(** ** [StructEncoder] and [StructDecoder]: [src/structs/encoder.ts] *)

Module Encoder.
Import Layout DataView.

(** Values handed to [encode]: a primitive for a primitive field, a
    record for a nested struct, an array of primitives for a fixed-size
    array. A record is an object literal: it lists its own properties,
    one entry per key, and its prototype is [Object.prototype].
    [VBuiltin] is a member of [Object.prototype], a function or, for
    [__proto__], the prototype itself. *)
#[local] Unset Elimination Schemes.
Inductive Value : Type :=
| VPrim (s : Scalar)
| VRec (props : list (string * Value))
| VArr (elems : list Scalar)
| VBuiltin.
#[local] Set Elimination Schemes.

(** The property names an object inherits from [Object.prototype]. *)
Definition Object_prototype : list string :=
  [ "constructor"; "__defineGetter__"; "__defineSetter__"; "hasOwnProperty";
    "__lookupGetter__"; "__lookupSetter__"; "isPrototypeOf";
    "propertyIsEnumerable"; "toString"; "valueOf"; "__proto__";
    "toLocaleString" ]%string.

(** [values[name]]: the own property; without one, the member of that
    name inherited from [Object.prototype]; [undefined] when there is
    neither. *)
Definition getProp (props : list (string * Value)) (name : string) : Value :=
  match find (fun kv => String.eqb (fst kv) name) props with
  | Some kv => snd kv
  | None =>
      if existsb (String.eqb name) Object_prototype then VBuiltin
      else VPrim SUndefined
  end.

Definition is_undefined (v : Value) : bool :=
  match v with VPrim SUndefined => true | _ => false end.

Definition getTypeSize (type : PrimitiveType) : Z :=
  match type with
  | Pu8 => 1 | Pi8 => 1 | Pu16 => 2 | Pi16 => 2 | Pu32 => 4 | Pi32 => 4
  | Pu64 => 8 | Pi64 => 8 | Pf32 => 4 | Pf64 => 8 | Pptr => 8 | Pusize => 8
  | Pbool => 4
  end.

(** [value ?? 0] *)
Definition orZero (v : Scalar) : Scalar :=
  match v with
  | SUndefined => SNum 0
  | SNull => SNum 0
  | _ => v
  end.

(** The [switch] of [writePrimitive]. *)
Definition writePrimitive (view : Buffer) (offset : Z) (type : PrimitiveType)
           (value : Scalar) : outcome Buffer :=
  match type with
  | Pu8 => setUint8 view offset value
  | Pi8 => setInt8 view offset value
  | Pu16 => setUint16 view offset value
  | Pi16 => setInt16 view offset value
  | Pu32 => setUint32 view offset value
  | Pbool => setUint32 view offset value
  | Pi32 => setInt32 view offset value
  | Pu64 => b <- BigInt value ;; setBigUint64 view offset b
  | Pusize => b <- BigInt value ;; setBigUint64 view offset b
  | Pi64 => b <- BigInt value ;; setBigInt64 view offset b
  | Pf32 => setFloat32 view offset value
  | Pf64 => setFloat64 view offset value
  | Pptr => b <- BigInt (orZero value) ;; setBigUint64 view offset b
  end.

(** The [for (let i = 0; i < type.count && i < arr.length; i++)] loop over
    an array value, [i] counting up from [i0]. *)
Fixpoint writeElems (view : Buffer) (offset elemSize : Z) (type : PrimitiveType)
         (count : Z) (i : Z) (arr : list Scalar) : outcome Buffer :=
  match arr with
  | [] => Returns view
  | x :: rest =>
      if i <? count then
        view' <- writePrimitive view (offset + i * elemSize) type x ;;
        writeElems view' offset elemSize type count (i + 1) rest
      else Returns view
  end.

(** [writeField]. The casts [value as Record<string, unknown>] and
    [value as unknown[]] are the shapes the embedding covers; a value of
    another shape, and a member of [Object.prototype] in any field, is
    [OutsideModel]. *)
Fixpoint writeField (view : Buffer) (offset : Z) (type : FieldType) (value : Value)
  {struct type} : outcome Buffer :=
  match type with
  | TPrim p =>
      match value with
      | VPrim s => writePrimitive view offset p s
      | _ => OutsideModel
      end
  | TStruct nestedLayout =>
      match value with
      | VRec nestedValue =>
          forEach
            (fun view nestedField =>
               let fieldValue := getProp nestedValue (fl_name nestedField) in
               if is_undefined fieldValue then Returns view
               else writeField view (offset + fl_offset nestedField)
                               (fl_type nestedField) fieldValue)
            (sl_fields nestedLayout) view
      | _ => OutsideModel
      end
  | TArray p count =>
      match value with
      | VArr arr => writeElems view offset (getTypeSize p) p count 0 arr
      | _ => OutsideModel
      end
  end.

(** The field loop of [encode]. *)
Definition encodeFields (fields : list FieldLayout) (values : list (string * Value))
           (view : Buffer) : outcome Buffer :=
  forEach
    (fun view field =>
       let value := getProp values (fl_name field) in
       if is_undefined value then Returns view
       else writeField view (fl_offset field) (fl_type field) value)
    fields view.

Section WithRuntime.

(** [ptr] of bun:ffi, the address of a typed array's bytes, is supplied
    by the runtime. *)
Variable ptr : list byte -> Z.

Record EncodedStruct : Type := mkEncodedStruct {
  es_buffer : Buffer;
  es_ptr : Z;
  es_size : Z
}.

(** The encoder object: its [allocations] list. *)
Record StructEncoder : Type := mkStructEncoder { allocations : list (list byte) }.

Definition push (this : StructEncoder) (a : list byte) : StructEncoder :=
  mkStructEncoder (allocations this ++ [a]).

Definition encode (this : StructEncoder) (layout : StructLayout)
           (values : list (string * Value)) : outcome (EncodedStruct * StructEncoder) :=
  buffer <- ArrayBuffer_new (sl_size layout) ;;
  u8 <- encodeFields (sl_fields layout) values buffer ;;
  Returns (mkEncodedStruct u8 (ptr u8) (sl_size layout), push this u8).

Record StringView : Type := mkStringView { sv_data : Z; sv_length : Z }.

(** [TextEncoder.encode]: a string is kept as its UTF-8 bytes. *)
Definition TextEncoder_encode (str : string) : list byte := list_byte_of_string str.

Definition encodeString (this : StructEncoder) (str : string)
  : StringView * StructEncoder :=
  if String.eqb str "" then (mkStringView 0 0, this)
  else
    let encoded := TextEncoder_encode str in
    (mkStringView (ptr encoded) (Z.of_nat (length encoded)), push this encoded).

(** [new BigUint64Array(pointers.map((p) => BigInt(p)))] seen through
    [new Uint8Array(buffer.buffer)]. *)
Definition ptrArray (this : StructEncoder) (pointers : list Z) : Z * StructEncoder :=
  match pointers with
  | [] => (0, this)
  | _ =>
      let u8 := flat_map (le_split 8) pointers in
      (ptr u8, push this u8)
  end.

Definition u32Array (this : StructEncoder) (values : list Z) : Z * StructEncoder :=
  match values with
  | [] => (0, this)
  | _ =>
      let u8 := flat_map (le_split 4) values in
      (ptr u8, push this u8)
  end.

End WithRuntime.

(** *** [StructDecoder] *)

Definition readU8 (view : Buffer) (offset : Z) : outcome Z := getUint8 view offset.
Definition readI8 (view : Buffer) (offset : Z) : outcome Z := getInt8 view offset.
Definition readU16 (view : Buffer) (offset : Z) : outcome Z := getUint16 view offset.
Definition readI16 (view : Buffer) (offset : Z) : outcome Z := getInt16 view offset.
Definition readU32 (view : Buffer) (offset : Z) : outcome Z := getUint32 view offset.
Definition readI32 (view : Buffer) (offset : Z) : outcome Z := getInt32 view offset.
Definition readU64 (view : Buffer) (offset : Z) : outcome Z := getBigUint64 view offset.
Definition readI64 (view : Buffer) (offset : Z) : outcome Z := getBigInt64 view offset.
Definition readF32 (view : Buffer) (offset : Z) : outcome Z := getFloat32 view offset.
Definition readF64 (view : Buffer) (offset : Z) : outcome Z := getFloat64 view offset.
Definition readPtr (view : Buffer) (offset : Z) : outcome Z :=
  b <- getBigUint64 view offset ;; Returns (Number_of_BigInt b).
Definition readBool (view : Buffer) (offset : Z) : outcome bool :=
  n <- getUint32 view offset ;; Returns (negb (n =? 0)).

(** *** Decoding a field, and the values a field stores without loss *)

(** The read function of [StructDecoder] that matches a primitive kind,
    its result wrapped as the JavaScript value it is: a number, a bigint
    ([readU64], [readI64]) or a boolean ([readBool]). A [usize] field is
    read by [readU64]. *)
Definition readAs (type : PrimitiveType) (view : Buffer) (offset : Z) : outcome Scalar :=
  match type with
  | Pu8 => n <- readU8 view offset ;; Returns (SNum n)
  | Pi8 => n <- readI8 view offset ;; Returns (SNum n)
  | Pu16 => n <- readU16 view offset ;; Returns (SNum n)
  | Pi16 => n <- readI16 view offset ;; Returns (SNum n)
  | Pu32 => n <- readU32 view offset ;; Returns (SNum n)
  | Pi32 => n <- readI32 view offset ;; Returns (SNum n)
  | Pu64 => n <- readU64 view offset ;; Returns (SBig n)
  | Pusize => n <- readU64 view offset ;; Returns (SBig n)
  | Pi64 => n <- readI64 view offset ;; Returns (SBig n)
  | Pptr => n <- readPtr view offset ;; Returns (SNum n)
  | Pbool => b <- readBool view offset ;; Returns (SBool b)
  | Pf32 => n <- readF32 view offset ;; Returns (SNum n)
  | Pf64 => n <- readF64 view offset ;; Returns (SNum n)
  end.

(** A primitive value that lies in the range of the kind and has the
    representation the matching read function returns. A number fits a
    floating-point kind when the format holds it exactly. *)
Definition fits_prim (type : PrimitiveType) (value : Scalar) : bool :=
  match type, value with
  | Pu8, SNum n => (0 <=? n) && (n <? 2 ^ 8)
  | Pi8, SNum n => (- 2 ^ 7 <=? n) && (n <? 2 ^ 7)
  | Pu16, SNum n => (0 <=? n) && (n <? 2 ^ 16)
  | Pi16, SNum n => (- 2 ^ 15 <=? n) && (n <? 2 ^ 15)
  | Pu32, SNum n => (0 <=? n) && (n <? 2 ^ 32)
  | Pi32, SNum n => (- 2 ^ 31 <=? n) && (n <? 2 ^ 31)
  | Pu64, SBig n => (0 <=? n) && (n <? 2 ^ 64)
  | Pusize, SBig n => (0 <=? n) && (n <? 2 ^ 64)
  | Pi64, SBig n => (- 2 ^ 63 <=? n) && (n <? 2 ^ 63)
  | Pptr, SNum n => (0 <=? n) && (n <? 2 ^ 53)
  | Pbool, SBool _ => true
  | Pf32, SNum n => representable 24 8 n
  | Pf64, SNum n => representable 53 11 n
  | _, _ => false
  end.

Fixpoint all_fields (P : FieldLayout -> Prop) (fs : list FieldLayout) : Prop :=
  match fs with
  | [] => True
  | f :: rest => P f /\ all_fields P rest
  end.

(** [fits type value]: the value has the shape of the type, every
    primitive in it fits its kind, and an array value is no longer than
    the array. *)
Fixpoint fits (type : FieldType) (value : Value) {struct type} : Prop :=
  match type with
  | TPrim p =>
      match value with
      | VPrim s => fits_prim p s = true
      | _ => False
      end
  | TStruct l =>
      match value with
      | VRec r => all_fields (fun f => fits (fl_type f) (getProp r (fl_name f))) (sl_fields l)
      | _ => False
      end
  | TArray p count =>
      match value with
      | VArr arr =>
          Z.of_nat (length arr) <= count /\ Forall (fun s => fits_prim p s = true) arr
      | _ => False
      end
  end.

(** [reads_back view offset type value]: decoding a field of [type] at
    [offset] with the matching read functions returns [value]; a nested
    struct is decoded field by field at [offset + field.offset], an array
    element [i] at [offset + i * elementSize]. *)
Fixpoint reads_back (view : Buffer) (offset : Z) (type : FieldType) (value : Value)
  {struct type} : Prop :=
  match type with
  | TPrim p =>
      match value with
      | VPrim s => readAs p view offset = Returns s
      | _ => False
      end
  | TStruct l =>
      match value with
      | VRec r =>
          all_fields
            (fun f => reads_back view (offset + fl_offset f) (fl_type f)
                                 (getProp r (fl_name f)))
            (sl_fields l)
      | _ => False
      end
  | TArray p count =>
      match value with
      | VArr arr =>
          forall i s, nth_error arr i = Some s ->
                      readAs p view (offset + Z.of_nat i * getTypeSize p) = Returns s
      | _ => False
      end
  end.

(** Fields laid out one after the other from [lo] on, inside [size]
    bytes, each satisfying [P]. *)
Fixpoint in_sequence (P : FieldLayout -> Prop) (lo size : Z) (fs : list FieldLayout)
  : Prop :=
  match fs with
  | [] => lo <= size
  | f :: rest =>
      lo <= fl_offset f /\ P f /\ in_sequence P (fl_offset f + fl_size f) size rest
  end.

(** The invariants of the data model: a field records the size and
    alignment of its type, fields follow each other without overlap
    inside the struct's size, alignments are positive, an array has a
    non-negative count; the same holds for nested layouts. *)
Fixpoint sound (type : FieldType) : Prop :=
  match type with
  | TPrim _ => True
  | TStruct l =>
      0 < sl_alignment l
      /\ in_sequence
           (fun f => fl_size f = ti_size (getTypeInfo (fl_type f))
                     /\ fl_alignment f = ti_alignment (getTypeInfo (fl_type f))
                     /\ sound (fl_type f))
           0 (sl_size l) (sl_fields l)
  | TArray _ count => 0 <= count
  end.

(** Induction on a field type, with the hypothesis available for the
    type of every field of a nested layout. *)
Fixpoint FieldType_nested_ind (P : FieldType -> Prop)
         (Hprim : forall p, P (TPrim p))
         (Hstruct : forall l, Forall (fun f => P (fl_type f)) (sl_fields l) -> P (TStruct l))
         (Harray : forall p count, P (TArray p count))
         (type : FieldType) {struct type} : P type :=
  match type with
  | TPrim p => Hprim p
  | TStruct l =>
      Hstruct l
        ((fix go (fs : list FieldLayout) : Forall (fun f => P (fl_type f)) fs :=
            match fs with
            | [] => Forall_nil _
            | f :: rest =>
                Forall_cons f (FieldType_nested_ind P Hprim Hstruct Harray (fl_type f))
                            (go rest)
            end) (sl_fields l))
  | TArray p count => Harray p count
  end.

(** Two buffers of one length with the same bytes at the indices in
    [lo, hi), respectively at the indices outside [lo, hi). *)
Definition agree_on (lo hi : Z) (b1 b2 : Buffer) : Prop :=
  length b1 = length b2
  /\ forall i : nat, lo <= Z.of_nat i < hi -> nth_error b1 i = nth_error b2 i.

Definition agree_outside (lo hi : Z) (b1 b2 : Buffer) : Prop :=
  length b1 = length b2
  /\ forall i : nat, Z.of_nat i < lo \/ hi <= Z.of_nat i -> nth_error b1 i = nth_error b2 i.

(** The integer [writePrimitive] stores for a primitive value in a field
    of an integer, pointer or boolean kind, [None] when the conversion
    it applies throws a TypeError: [ToNumber] for the kinds written by a
    Number setter, [BigInt(value)] for u64, i64 and usize,
    [BigInt(value ?? 0)] for ptr. The floating-point kinds store a bit
    pattern, not the integer: [None]. *)
Definition stored_integer (type : PrimitiveType) (value : Scalar) : option Z :=
  match type with
  | Pu8 | Pi8 | Pu16 | Pi16 | Pu32 | Pi32 | Pbool =>
      match value with
      | SUndefined => Some 0
      | SNull => Some 0
      | SBool b => Some (if b then 1 else 0)
      | SNum n => Some n
      | SBig _ => None
      end
  | Pu64 | Pi64 | Pusize =>
      match value with
      | SUndefined => None
      | SNull => None
      | SBool b => Some (if b then 1 else 0)
      | SNum n => Some n
      | SBig n => Some n
      end
  | Pptr =>
      match value with
      | SUndefined => Some 0
      | SNull => Some 0
      | SBool b => Some (if b then 1 else 0)
      | SNum n => Some n
      | SBig n => Some n
      end
  | Pf32 | Pf64 => None
  end.

Definition is_float (type : PrimitiveType) : bool :=
  match type with Pf32 | Pf64 => true | _ => false end.

(** The width in bytes of a primitive kind, as a length. *)
Definition width (type : PrimitiveType) : nat := Z.to_nat (getTypeSize type).

(** The body of the nested-struct loop of [writeField]. *)
Definition writeNested (nestedValue : list (string * Value)) (offset : Z)
  : Buffer -> FieldLayout -> outcome Buffer :=
  fun view nestedField =>
    let fieldValue := getProp nestedValue (fl_name nestedField) in
    if is_undefined fieldValue then Returns view
    else writeField view (offset + fl_offset nestedField) (fl_type nestedField) fieldValue.

(** What [sound] asks of each field. *)
Definition field_sound (f : FieldLayout) : Prop :=
  fl_size f = ti_size (getTypeInfo (fl_type f))
  /\ fl_alignment f = ti_alignment (getTypeInfo (fl_type f))
  /\ sound (fl_type f).

(** A layout with a nested struct, a boolean, an array, a pointer and
    two floating-point fields, and a value map that fits it. *)
Definition roundtrip_fields : list FieldDef :=
  [ mkFieldDef "tag" (TPrim Pu8);
    mkFieldDef "inner" (TStruct (defineStruct "S" scenario1));
    mkFieldDef "flag" (TPrim Pbool);
    mkFieldDef "tail" (TArray Pi16 3);
    mkFieldDef "next" (TPrim Pptr);
    mkFieldDef "ratio" (TPrim Pf32);
    mkFieldDef "scale" (TPrim Pf64) ].


End Encoder.

(** ** [CallbackRegistry]: [src/async/callback-registry.ts] *)

Module Registry.
Import Layout DataView Encoder.

Definition WGPURequestAdapterStatus_Success : Z := 1.
Definition WGPUCallbackMode_AllowProcessEvents : Z := 2.

Definition WGPURequestAdapterCallbackInfo : StructLayout :=
  defineStruct "WGPURequestAdapterCallbackInfo"
    [ mkFieldDef "nextInChain" (TPrim Pptr);
      mkFieldDef "mode" (TPrim Pu32);
      mkFieldDef "callback" (TPrim Pptr);
      mkFieldDef "userdata1" (TPrim Pptr);
      mkFieldDef "userdata2" (TPrim Pptr) ].

(** A promise is named by a number; a settled promise stays as it is. *)
Inductive PromiseState : Type :=
| Pending
| Fulfilled (value : Z)
| Rejected (reason : JsError).

(** An invocation of a promise's [resolve] or [reject] function. *)
Inductive Call : Type :=
| CallResolve (promise : Z) (value : Z)
| CallReject (promise : Z) (error : JsError).

Definition call_promise (c : Call) : Z :=
  match c with CallResolve p _ => p | CallReject p _ => p end.

(** [PendingCallback]: the [resolve]/[reject] pair is the pair of promise
    [pc_promise]; [pc_jsCallback] names the [JSCallback] trampoline. *)
Record PendingCallback : Type := mkPendingCallback {
  pc_promise : Z;
  pc_jsCallback : Z
}.

(** The registry object ([pending], [nextId]) together with the part of
    the runtime its methods act on: the promises, the log of resolver and
    rejecter invocations (oldest first), the trampolines whose [close] is
    scheduled by [setTimeout], and the trampolines closed. A [Map] keeps
    insertion order, so [pending] is an association list. *)
Record State : Type := mkState {
  pending : list (Z * PendingCallback);
  nextId : Z;
  promises : list (Z * PromiseState);
  calls : list Call;
  timers : list Z;
  closed : list Z
}.

Definition new_registry : State := mkState [] 1 [] [] [] [].

Definition Map_get (m : list (Z * PendingCallback)) (k : Z) : option PendingCallback :=
  match find (fun kv => fst kv =? k) m with
  | Some kv => Some (snd kv)
  | None => None
  end.

Definition Map_delete (m : list (Z * PendingCallback)) (k : Z)
  : list (Z * PendingCallback) :=
  filter (fun kv => negb (fst kv =? k)) m.

Definition Map_has (m : list (Z * PendingCallback)) (k : Z) : bool :=
  existsb (fun kv => fst kv =? k) m.

Definition Map_set (m : list (Z * PendingCallback)) (k : Z) (v : PendingCallback)
  : list (Z * PendingCallback) :=
  if Map_has m k
  then map (fun kv => if fst kv =? k then (k, v) else kv) m
  else m ++ [(k, v)].

Definition Map_size (m : list (Z * PendingCallback)) : Z := Z.of_nat (length m).

Definition promise_state (ps : list (Z * PromiseState)) (p : Z) : option PromiseState :=
  match find (fun kv => fst kv =? p) ps with
  | Some kv => Some (snd kv)
  | None => None
  end.

(** Settling: only a pending promise changes state. *)
Definition settle (ps : list (Z * PromiseState)) (p : Z) (s : PromiseState)
  : list (Z * PromiseState) :=
  map (fun kv =>
         if fst kv =? p
         then match snd kv with Pending => (fst kv, s) | _ => kv end
         else kv) ps.

(** [pending.resolve(value)] *)
Definition resolve (st : State) (p : PendingCallback) (value : Z) : State :=
  mkState (pending st) (nextId st)
          (settle (promises st) (pc_promise p) (Fulfilled value))
          (calls st ++ [CallResolve (pc_promise p) value])
          (timers st) (closed st).

(** [pending.reject(error)] *)
Definition reject (st : State) (p : PendingCallback) (error : JsError) : State :=
  mkState (pending st) (nextId st)
          (settle (promises st) (pc_promise p) (Rejected error))
          (calls st ++ [CallReject (pc_promise p) error])
          (timers st) (closed st).




(** [memory.readString] as the trampolines call it. Their [JSCallback]
    declares the message length [usize], and an argument of that type
    reaches JavaScript as a bigint, which is then handed on as [length].
    A null [pointer] returns the empty string. Otherwise [length === 0]
    is false for every bigint, [0n] included, and
    [toArrayBuffer(pointer, 0, length)] throws a TypeError for a byte
    length that is not a number: the memory is never read. *)
Definition readString_bigint (mem : Z -> byte) (pointer : Z) (length : Z)
  : outcome string :=
  if pointer =? 0 then Returns ""%string else Throws TypeError.

(** The statement [setTimeout(() => pending.jsCallback.close(), 0)]. *)
Definition close_later (st : State) (p : PendingCallback) : State :=
  mkState (pending st) (nextId st) (promises st) (calls st)
          (timers st ++ [pc_jsCallback p]) (closed st).

(** The end of a trampoline invocation that reached [settled]: the
    registry it leaves and the exception that escapes to the native
    caller, if any. An exception leaves the registry as it was after
    [pending.delete]: nothing is settled and no [close] is scheduled. *)
Definition finish (st1 : State) (p : PendingCallback) (settled : outcome State)
  : State * option JsError :=
  match settled with
  | Returns st2 => (close_later st2 p, None)
  | Throws e => (st1, Some e)
  | OutsideModel => (st1, None)
  end.

(** The trampoline built by [createAdapterCallback], run against the
    native memory [mem]. [messageLength] is the value of the bigint the
    trampoline receives. *)
Definition adapterCallback_invoke (mem : Z -> byte) (st : State)
           (status adapter messageData messageLength userdata1 : Z)
  : State * option JsError :=
  let pendingId := userdata1 in
  match Map_get (pending st) pendingId with
  | None => (st, None)
  | Some p =>
      let st1 := mkState (Map_delete (pending st) pendingId) (nextId st)
                         (promises st) (calls st) (timers st) (closed st) in
      finish st1 p
        (if status =? WGPURequestAdapterStatus_Success
         then Returns (resolve st1 p adapter)
         else
           message <- (if 0 <? messageLength
                       then readString_bigint mem messageData messageLength
                       else Returns "Unknown error"%string) ;;
           Returns (reject st1 p
                           (Error ("Failed to request adapter (status "
                                     ++ decimal status ++ "): " ++ message))))
  end.

(** The registry and runtime after an invocation of the trampoline. *)
Definition adapterCallback (mem : Z -> byte) (st : State)
           (status adapter messageData messageLength userdata1 : Z) : State :=
  fst (adapterCallback_invoke mem st status adapter messageData messageLength userdata1).

Section WithRuntime.

(** Addresses handed out by the runtime: [ptr] of a typed array and the
    [ptr] property of a [JSCallback]. *)
Variable ptr : list byte -> Z.
Variable JSCallback_ptr : Z -> Z.

Record Created : Type := mkCreated {
  callbackInfoPtr : Z;
  promise : Z;
  registry : State;
  encoder : StructEncoder
}.

(** [createAdapterCallback]: the promise and the trampoline of operation
    [id] are both named [id]. *)
Definition createAdapterCallback (st : State) (enc : StructEncoder) : outcome Created :=
  let id := nextId st in
  let jsCallback := id in
  let st1 :=
    mkState (Map_set (pending st) id (mkPendingCallback id jsCallback))
            (id + 1)
            (promises st ++ [(id, Pending)])
            (calls st) (timers st) (closed st) in
  r <- encode ptr enc WGPURequestAdapterCallbackInfo
         [ ("nextInChain"%string, VPrim (SNum 0));
           ("mode"%string, VPrim (SNum WGPUCallbackMode_AllowProcessEvents));
           ("callback"%string, VPrim (SNum (JSCallback_ptr jsCallback)));
           ("userdata1"%string, VPrim (SNum id));
           ("userdata2"%string, VPrim (SNum 0)) ] ;;
  Returns (mkCreated (es_ptr (fst r)) id st1 (snd r)).

End WithRuntime.

(** One iteration of the loop of [cleanup]. *)
Definition cleanup_step (st : State) (entry : Z * PendingCallback) : State :=
  let st1 := reject st (snd entry) (Error "Callback registry cleaned up") in
  mkState (pending st1) (nextId st1) (promises st1) (calls st1) (timers st1)
          (closed st1 ++ [pc_jsCallback (snd entry)]).

Definition cleanup (st : State) : State :=
  let st1 := fold_left cleanup_step (pending st) st in
  mkState [] (nextId st1) (promises st1) (calls st1) (timers st1) (closed st1).

Definition hasPending (st : State) : bool := 0 <? Map_size (pending st).
Definition pendingCount (st : State) : Z := Map_size (pending st).

(** What a client and the native library can do to a registry. *)
Inductive Op : Type :=
| OpRegister
| OpFire (mem : Z -> byte) (status adapter messageData messageLength userdata1 : Z)
| OpCleanup.

(** Registration without the descriptor: the effect of
    [createAdapterCallback] on the registry. *)
Definition register (st : State) : State :=
  let id := nextId st in
  mkState (Map_set (pending st) id (mkPendingCallback id id))
          (id + 1)
          (promises st ++ [(id, Pending)])
          (calls st) (timers st) (closed st).

Definition run_op (st : State) (op : Op) : State :=
  match op with
  | OpRegister => register st
  | OpFire mem status adapter messageData messageLength userdata1 =>
      adapterCallback mem st status adapter messageData messageLength userdata1
  | OpCleanup => cleanup st
  end.

Definition run (ops : list Op) (st : State) : State := fold_left run_op ops st.

(** How often the resolver or rejecter of promise [p] was invoked. *)
Definition invocations (st : State) (p : Z) : nat :=
  length (filter (fun c => call_promise c =? p) (calls st)).

(** Native memory holding the bytes of [s] at address [base]. *)
Definition memory_with (base : Z) (s : string) : Z -> byte :=
  fun a => nth (Z.to_nat (a - base)) (list_byte_of_string s) Byte.x00.

(** The error [cleanup] rejects with. *)
Definition shutdown : JsError := Error "Callback registry cleaned up".

(** The invariant of a registry: tokens are distinct and below [nextId];
    the entry of token [k] holds the resolvers of promise [k], which is
    still pending; no resolver of a pending token was invoked; no promise
    had its resolvers invoked twice. *)
Record Inv (st : State) : Prop := mkInv {
  inv_keys : NoDup (map fst (pending st));
  inv_entries : forall k p, In (k, p) (pending st) ->
                            k < nextId st /\ pc_promise p = k
                            /\ promise_state (promises st) k = Some Pending;
  inv_promises : forall k, In k (map fst (promises st)) -> k < nextId st;
  inv_fresh : forall k, In k (map fst (pending st)) -> ~ In k (map call_promise (calls st));
  inv_calls : NoDup (map call_promise (calls st));
  inv_bound : forall c, In c (calls st) -> call_promise c < nextId st
}.

End Registry.

(** ** [pollUntilComplete]: [src/async/polling.ts] *)

Module Polling.

(** How the awaited promise settles. A rejection reason is an error
    object. *)
Inductive Settlement (T : Type) : Type :=
| SettledWith (r : T)
| RejectedWith (e : JsError).

Arguments SettledWith {T} r.
Arguments RejectedWith {T} e.

Record Options : Type := mkOptions {
  maxIterations : option Z;
  intervalMs : option Z
}.

(** The local variables of [pollUntilComplete]; [pumped] counts the calls
    of [lib.wgpuInstanceProcessEvents]. *)
Record Locals (T : Type) : Type := mkLocals {
  iterations : Z;
  resolved : bool;
  result : option T;
  error : option JsError;
  pumped : Z
}.

Arguments mkLocals {T}.
Arguments iterations {T}.
Arguments resolved {T}.
Arguments result {T}.
Arguments error {T}.
Arguments pumped {T}.

Section Poll.

Context {T : Type}.

(** [observe i]: the settlement whose [then]/[catch] handler runs while
    the loop awaits its timer in iteration [i] (counting from 0), if any.
    The handlers never run before the first test of the loop condition. *)
Variable observe : Z -> option (Settlement T).

Definition deliver (s : option (Settlement T)) (l : Locals T) : Locals T :=
  match s with
  | None => l
  | Some (SettledWith r) =>
      mkLocals (iterations l) true (Some r) (error l) (pumped l)
  | Some (RejectedWith e) =>
      mkLocals (iterations l) true (result l) (Some e) (pumped l)
  end.

(** The body of the [while] loop. *)
Definition poll_body (l : Locals T) : Locals T :=
  let l1 := mkLocals (iterations l) (resolved l) (result l) (error l) (pumped l + 1) in
  let l2 := deliver (observe (iterations l1)) l1 in
  mkLocals (iterations l2 + 1) (resolved l2) (result l2) (error l2) (pumped l2).

(** [while (!resolved && iterations < maxIterations) { ... }] *)
Equations? poll_loop (maxIter : Z) (l : Locals T) : Locals T
  by wf (Z.to_nat (maxIter - iterations l)) lt :=
  poll_loop maxIter l
    with Sumbool.sumbool_of_bool (negb (resolved l) && (iterations l <? maxIter)) => {
    | left e => poll_loop maxIter (poll_body l)
    | right _ => l
  }.
Proof.
  apply andb_prop in e. destruct e as [_ e]. apply Z.ltb_lt in e.
  unfold poll_body, deliver. cbn [iterations].
  destruct (observe (iterations l)) as [[r|err]|]; cbn [iterations]; lia.
Qed.

Definition pollUntilComplete (options : Options) : outcome (option T) * Locals T :=
  let maxIter := match maxIterations options with Some n => n | None => 10000 end in
  let l := poll_loop maxIter (mkLocals 0 false None None 0) in
  if negb (resolved l)
  then (Throws (Error ("Polling timed out after " ++ decimal (iterations l)
                         ++ " iterations")), l)
  else
    match error l with
    | Some e => (Throws e, l)
    | None => (Returns (result l), l)
    end.

End Poll.

(** A promise that never settles. *)
Definition never {T : Type} : Z -> option (Settlement T) := fun _ => None.

End Polling.


(** ** [StructEncoder]: the remaining methods *)

Module EncoderOps.
Import Layout DataView Encoder.

Section WithRuntime.

Variable ptr : list byte -> Z.

(** [str + "\0"] *)
Definition with_nul (str : string) : string := (str ++ String Ascii.zero "")%string.

Definition encodeCString (this : StructEncoder) (str : string) : Z * StructEncoder :=
  let encoded := TextEncoder_encode (with_nul str) in
  (ptr encoded, push this encoded).

(** [new Uint8Array(size)]: zero-filled; a length that is negative or
    above [MAX_SAFE_INTEGER] is a RangeError. *)
Definition alloc (this : StructEncoder) (size : Z)
  : outcome (list byte * Z * StructEncoder) :=
  if (size <? 0) || (MAX_SAFE_INTEGER <? size) then Throws RangeError
  else
    let buffer := repeat Byte.x00 (Z.to_nat size) in
    Returns (buffer, ptr buffer, push this buffer).

Definition track (this : StructEncoder) (buffer : list byte) : StructEncoder :=
  push this buffer.

Definition freeAll (this : StructEncoder) : StructEncoder := mkStructEncoder [].

(** A call of one of the allocating methods. *)
Inductive Method : Type :=
| MEncode (layout : StructLayout) (values : list (string * Value))
| MEncodeString (str : string)
| MEncodeCString (str : string)
| MAlloc (size : Z)
| MPtrArray (pointers : list Z)
| MU32Array (values : list Z)
| MTrack (buffer : list byte).

(** The pointer a call hands out ([track] hands out none) and the
    encoder after it. *)
Definition invoke (this : StructEncoder) (c : Method) : outcome (option Z * StructEncoder) :=
  match c with
  | MEncode layout values =>
      r <- encode ptr this layout values ;; Returns (Some (es_ptr (fst r)), snd r)
  | MEncodeString str =>
      let r := encodeString ptr this str in Returns (Some (sv_data (fst r)), snd r)
  | MEncodeCString str =>
      let r := encodeCString this str in Returns (Some (fst r), snd r)
  | MAlloc size =>
      r <- alloc this size ;; Returns (Some (snd (fst r)), snd r)
  | MPtrArray pointers =>
      let r := ptrArray ptr this pointers in Returns (Some (fst r), snd r)
  | MU32Array values =>
      let r := u32Array ptr this values in Returns (Some (fst r), snd r)
  | MTrack buffer => Returns (None, track this buffer)
  end.

(** A sequence of calls; the pointers handed out, oldest first. *)
Fixpoint invokeAll (this : StructEncoder) (cs : list Method)
  : outcome (list Z * StructEncoder) :=
  match cs with
  | [] => Returns ([], this)
  | c :: rest =>
      r <- invoke this c ;;
      r' <- invokeAll (snd r) rest ;;
      Returns (match fst r with Some p => p :: fst r' | None => fst r' end, snd r')
  end.

End WithRuntime.

(** The outcome of a read: a value between [lo] and [hi] when the [w]
    bytes at [offset] lie inside the view, a RangeError when they do not. *)
Definition read_checked (r : outcome Z) (view : Buffer) (offset : Z) (w lo hi : Z) : Prop :=
  match r with
  | Returns n => 0 <= offset /\ offset + w <= Z.of_nat (length view) /\ lo <= n < hi
  | Throws e => e = RangeError /\ (offset < 0 \/ Z.of_nat (length view) < offset + w)
  | OutsideModel => False
  end.

End EncoderOps.


(** ** [waitAny]: [src/async/polling.ts], and the layouts it mirrors *)

Module Waiting.
Import Layout DataView Encoder.

(** [WGPUFuture] and [WGPUFutureWaitInfo] of
    [src/structs/definitions/common.ts]. *)
Definition WGPUFuture : StructLayout :=
  defineStruct "WGPUFuture" [mkFieldDef "id" (TPrim Pu64)].

Definition WGPUFutureWaitInfo : StructLayout :=
  defineStruct "WGPUFutureWaitInfo"
    [ mkFieldDef "future" (TStruct WGPUFuture);
      mkFieldDef "completed" (TPrim Pbool) ].

(** The 16-byte [WGPUFutureWaitInfo] that [waitAny] fills in by hand;
    [futureId] is a bigint. *)
Definition waitInfo (futureId : Z) : outcome Buffer :=
  buffer <- ArrayBuffer_new 16 ;;
  view <- setBigUint64 buffer 0 futureId ;;
  setUint32 view 8 (SNum 0).

Section WithNative.

(** [lib.wgpuInstanceWaitAny], given the bytes its third argument points
    at. *)
Variable wgpuInstanceWaitAny : Z -> Z -> list byte -> Z -> Z.

Definition waitAny (instance : Z) (futureId : Z) (timeoutNs : Z) : outcome Z :=
  buffer <- waitInfo futureId ;;
  Returns (wgpuInstanceWaitAny instance 1 buffer timeoutNs).

End WithNative.

End Waiting.


(** ** [CallbackRegistry]: the other pointer trampolines, error objects
       and the bookkeeping of tokens *)

Module Bridge.
Import Layout DataView Encoder Registry.

Definition WGPURequestDeviceStatus_Success : Z := 1.
Definition WGPUCreatePipelineAsyncStatus_Success : Z := 1.

(** The trampoline built by [createDeviceCallback]. *)
Definition deviceCallback_invoke (mem : Z -> byte) (st : State)
           (status device messageData messageLength userdata1 : Z)
  : State * option JsError :=
  let pendingId := userdata1 in
  match Map_get (pending st) pendingId with
  | None => (st, None)
  | Some p =>
      let st1 := mkState (Map_delete (pending st) pendingId) (nextId st)
                         (promises st) (calls st) (timers st) (closed st) in
      finish st1 p
        (if status =? WGPURequestDeviceStatus_Success
         then Returns (resolve st1 p device)
         else
           message <- (if 0 <? messageLength
                       then readString_bigint mem messageData messageLength
                       else Returns "Unknown error"%string) ;;
           Returns (reject st1 p
                           (Error ("Failed to request device (status "
                                     ++ decimal status ++ "): " ++ message))))
  end.

Definition deviceCallback (mem : Z -> byte) (st : State)
           (status device messageData messageLength userdata1 : Z) : State :=
  fst (deviceCallback_invoke mem st status device messageData messageLength userdata1).

(** The trampoline built by [createComputePipelineAsyncCallback]. *)
Definition computePipelineCallback_invoke (mem : Z -> byte) (st : State)
           (status pipeline messageData messageLength userdata1 : Z)
  : State * option JsError :=
  let pendingId := userdata1 in
  match Map_get (pending st) pendingId with
  | None => (st, None)
  | Some p =>
      let st1 := mkState (Map_delete (pending st) pendingId) (nextId st)
                         (promises st) (calls st) (timers st) (closed st) in
      finish st1 p
        (if status =? WGPUCreatePipelineAsyncStatus_Success
         then Returns (resolve st1 p pipeline)
         else
           message <- (if 0 <? messageLength
                       then readString_bigint mem messageData messageLength
                       else Returns "Unknown error"%string) ;;
           Returns (reject st1 p
                           (Error ("Failed to create compute pipeline (status "
                                     ++ decimal status ++ "): " ++ message))))
  end.

Definition computePipelineCallback (mem : Z -> byte) (st : State)
           (status pipeline messageData messageLength userdata1 : Z) : State :=
  fst (computePipelineCallback_invoke mem st status pipeline messageData messageLength userdata1).

(** The trampoline built by [createRenderPipelineAsyncCallback]. *)
Definition renderPipelineCallback_invoke (mem : Z -> byte) (st : State)
           (status pipeline messageData messageLength userdata1 : Z)
  : State * option JsError :=
  let pendingId := userdata1 in
  match Map_get (pending st) pendingId with
  | None => (st, None)
  | Some p =>
      let st1 := mkState (Map_delete (pending st) pendingId) (nextId st)
                         (promises st) (calls st) (timers st) (closed st) in
      finish st1 p
        (if status =? WGPUCreatePipelineAsyncStatus_Success
         then Returns (resolve st1 p pipeline)
         else
           message <- (if 0 <? messageLength
                       then readString_bigint mem messageData messageLength
                       else Returns "Unknown error"%string) ;;
           Returns (reject st1 p
                           (Error ("Failed to create render pipeline (status "
                                     ++ decimal status ++ "): " ++ message))))
  end.

Definition renderPipelineCallback (mem : Z -> byte) (st : State)
           (status pipeline messageData messageLength userdata1 : Z) : State :=
  fst (renderPipelineCallback_invoke mem st status pipeline messageData messageLength userdata1).

(** The four pointer trampolines. *)
Inductive Kind : Type := Adapter | Device | ComputePipeline | RenderPipeline.

Definition trampoline_invoke (kind : Kind)
  : (Z -> byte) -> State -> Z -> Z -> Z -> Z -> Z -> State * option JsError :=
  match kind with
  | Adapter => adapterCallback_invoke
  | Device => deviceCallback_invoke
  | ComputePipeline => computePipelineCallback_invoke
  | RenderPipeline => renderPipelineCallback_invoke
  end.

Definition trampoline (kind : Kind)
  : (Z -> byte) -> State -> Z -> Z -> Z -> Z -> Z -> State :=
  match kind with
  | Adapter => adapterCallback
  | Device => deviceCallback
  | ComputePipeline => computePipelineCallback
  | RenderPipeline => renderPipelineCallback
  end.

(** What the operation of a trampoline is called in its error message. *)
Definition failed_to (kind : Kind) : string :=
  match kind with
  | Adapter => "request adapter"
  | Device => "request device"
  | ComputePipeline => "create compute pipeline"
  | RenderPipeline => "create render pipeline"
  end.

(** The invocations in which [memory.readString] throws: a status other
    than Success with a message of positive length at a non-null
    address. *)
Definition reads_message (status messageData messageLength : Z) : bool :=
  negb (status =? 1) && (0 <? messageLength) && negb (messageData =? 0).

(** The settlement a trampoline chooses from the status and the message
    arguments; none when [memory.readString] throws. *)
Definition outcome_of (kind : Kind) (status payload messageData messageLength : Z)
  : option PromiseState :=
  if status =? 1 then Some (Fulfilled payload)
  else if 0 <? messageLength
       then if messageData =? 0
            then Some (Rejected
                         (Error ("Failed to " ++ failed_to kind ++ " (status "
                                   ++ decimal status ++ "): ")))
            else None
       else Some (Rejected
                    (Error ("Failed to " ++ failed_to kind ++ " (status "
                              ++ decimal status ++ "): Unknown error"))).

(** *** [createGPUError] *)

Definition WGPUErrorType_NoError : Z := 1.
Definition WGPUErrorType_Validation : Z := 2.
Definition WGPUErrorType_OutOfMemory : Z := 3.
Definition WGPUErrorType_Internal : Z := 4.

(** The error objects of the WebGPU API, by class. *)
Inductive GPUError : Type :=
| GPUValidationError (message : string)
| GPUOutOfMemoryError (message : string)
| GPUInternalError (message : string).

Definition gpu_message (e : GPUError) : string :=
  match e with
  | GPUValidationError m => m
  | GPUOutOfMemoryError m => m
  | GPUInternalError m => m
  end.

(** [None] is [null]. *)
Definition createGPUError (type : Z) (message : string) : option GPUError :=
  if type =? WGPUErrorType_NoError then None
  else
    let errorMessage := if String.eqb message "" then "Unknown GPU error"%string
                        else message in
    if type =? WGPUErrorType_Validation then Some (GPUValidationError errorMessage)
    else if type =? WGPUErrorType_OutOfMemory then Some (GPUOutOfMemoryError errorMessage)
    else if type =? WGPUErrorType_Internal then Some (GPUInternalError errorMessage)
    else Some (GPUValidationError errorMessage).

(** *** Clients *)

(** What a client and the native library can do, with all four
    trampolines. *)
Inductive Event : Type :=
| Create
| Fire (kind : Kind) (mem : Z -> byte)
       (status payload messageData messageLength userdata1 : Z)
| Cleanup.

Definition step (st : State) (e : Event) : State :=
  match e with
  | Create => register st
  | Fire kind mem status payload messageData messageLength userdata1 =>
      trampoline kind mem st status payload messageData messageLength userdata1
  | Cleanup => cleanup st
  end.

Definition steps (es : list Event) (st : State) : State := fold_left step es st.


(** How often trampoline [k] was released: scheduled for [close] by a
    timer, or closed by [cleanup]. *)
Definition releases (st : State) (k : Z) : nat :=
  count_occ Z.eq_dec (timers st ++ closed st) k.

(** An event in which no trampoline reads a message. *)
Definition quiet (e : Event) : Prop :=
  match e with
  | Fire _ _ status _ messageData messageLength _ =>
      reads_message status messageData messageLength = false
  | _ => True
  end.

(** The lives of token [k]. Untouched: pending, nothing invoked.
    Consumed: not pending, its resolver or rejecter invoked once, its
    promise settled and its trampoline released once. Dropped: not
    pending although nothing was invoked, settled or released. *)
Definition untouched (st : State) (k : Z) : Prop :=
  In k (map fst (pending st))
  /\ invocations st k = 0%nat
  /\ promise_state (promises st) k = Some Pending
  /\ releases st k = 0%nat.

Definition consumed (st : State) (k : Z) : Prop :=
  ~ In k (map fst (pending st))
  /\ invocations st k = 1%nat
  /\ (exists s, promise_state (promises st) k = Some s /\ s <> Pending)
  /\ releases st k = 1%nat.

Definition dropped (st : State) (k : Z) : Prop :=
  ~ In k (map fst (pending st))
  /\ invocations st k = 0%nat
  /\ promise_state (promises st) k = Some Pending
  /\ releases st k = 0%nat.


(** The bookkeeping invariant of a registry; with [strict] no token is
    dropped. *)
Record Kept (strict : bool) (st : State) : Prop := mkKept {
  kept_inv : Inv st;
  kept_first : 1 <= nextId st;
  kept_callbacks : forall k p, In (k, p) (pending st) -> pc_jsCallback p = k;
  kept_released : forall k, In k (timers st ++ closed st) -> 1 <= k < nextId st;
  kept_tokens : forall k, In k (map fst (pending st)) -> 1 <= k;
  kept_called : forall c, In c (calls st) -> 1 <= call_promise c;
  kept_accounted : forall k, 1 <= k < nextId st ->
                             untouched st k \/ consumed st k
                             \/ (strict = false /\ dropped st k)
}.

End Bridge.

(** * Properties *)

(** ** Layout engine *)

Section LayoutFacts.
Import Layout.

Lemma rem_align_zero (offset alignment : Z) :
  alignment <> 0 -> Z.rem (align offset alignment) alignment = 0.
Proof.
  intros Ha. unfold align. cbv zeta.
  destruct (Z.rem offset alignment =? 0) eqn:E.
  - now apply Z.eqb_eq in E.
  - pose proof (Z.quot_rem' offset alignment) as Hq.
    replace (offset + (alignment - Z.rem offset alignment))
      with ((offset ÷ alignment + 1) * alignment) by lia.
    apply Z.rem_mul; assumption.
Qed.

Lemma align_ge (offset alignment : Z) :
  0 < alignment -> offset <= align offset alignment.
Proof.
  intros Ha. unfold align. cbv zeta.
  destruct (Z.rem offset alignment =? 0); [lia|].
  assert (Z.abs (Z.rem offset alignment) < Z.abs alignment)
    by (apply Z.rem_bound_abs; lia).
  lia.
Qed.

Lemma align_lt (offset alignment : Z) :
  0 <= offset -> 0 < alignment -> align offset alignment < offset + alignment.
Proof.
  intros Ho Ha. unfold align. cbv zeta.
  destruct (Z.rem offset alignment =? 0) eqn:E; [lia|].
  apply Z.eqb_neq in E.
  pose proof (Z.rem_bound_pos offset alignment Ho Ha). lia.
Qed.

(** The loop of [defineStruct], started in any state, appends what the
    declaration-order walk computes from that state's offset and
    max-alignment. *)
Lemma fold_step_walk (fields : list FieldDef) :
  forall st : LayoutState,
    fold_left defineStruct_step fields st =
    let '(ls, final, m) := walk (ls_offset st) (ls_maxAlignment st) fields in
    mkLayoutState final m (ls_layoutFields st ++ ls).
Proof.
  induction fields as [|f rest IH]; intros [o m acc]; cbn [fold_left walk].
  - cbn. now rewrite app_nil_r.
  - rewrite IH. unfold defineStruct_step. cbn [ls_offset ls_maxAlignment ls_layoutFields].
    destruct (walk _ _ rest) as [[ls final] m'].
    now rewrite <- app_assoc.
Qed.

Lemma defineStruct_computeLayout (name : string) (fields : list FieldDef) :
  defineStruct name fields = computeLayout name fields.
Proof.
  unfold defineStruct, computeLayout. cbv zeta. rewrite fold_step_walk.
  cbn [ls_offset ls_maxAlignment ls_layoutFields].
  destruct (walk 0 1 fields) as [[ls final] m]. reflexivity.
Qed.

Lemma walk_invariants (fields : list FieldDef) :
  Forall positive_alignment fields ->
  forall offset m, 0 < m -> walk_ok offset (walk offset m fields).
Proof.
  induction 1 as [|f rest Hf _ IH]; intros offset m Hm; cbn [walk].
  - cbn. repeat split; auto.
    + intros f Hf. discriminate.
    + intros i f g Hf. destruct i; discriminate.
  - unfold positive_alignment in Hf.
    set (info := getTypeInfo (fd_type f)) in *. cbv zeta.
    specialize (IH (align offset (ti_alignment info) + ti_size info)
                   (Z.max m (ti_alignment info)) ltac:(lia)).
    destruct (walk _ _ rest) as [[ls final] m']. cbn in IH |- *.
    destruct IH as (Hm' & Hal & Hfirst & Hadj).
    repeat split.
    + assumption.
    + constructor; [|assumption]. cbn. apply rem_align_zero. lia.
    + intros g Hg. injection Hg as <-. cbn. now apply align_ge.
    + intros i g h Hg Hh. destruct i as [|i]; cbn in Hg, Hh.
      * injection Hg as <-. cbn. now apply Hfirst.
      * eapply Hadj; eassumption.
Qed.

Lemma defineStruct_alignment_pos (name : string) (fields : list FieldDef) :
  0 < sl_alignment (defineStruct name fields).
Proof.
  rewrite defineStruct_computeLayout. unfold computeLayout.
  assert (H : forall fs o m, 0 < m -> 0 < snd (walk o m fs)).
  { induction fs as [|f rest IH]; intros o m Hm; cbn [walk]; [assumption|].
    cbv zeta. specialize (IH (align o (ti_alignment (getTypeInfo (fd_type f)))
                                + ti_size (getTypeInfo (fd_type f)))
                             (Z.max m (ti_alignment (getTypeInfo (fd_type f))))
                             ltac:(lia)).
    destruct (walk _ _ rest) as [[ls final] m']. exact IH. }
  specialize (H fields 0 1 ltac:(lia)).
  destruct (walk 0 1 fields) as [[ls final] m]. exact H.
Qed.

(** Every layout returned by [defineStruct] can itself be nested. *)
Lemma defineStruct_nestable (name n : string) (fields : list FieldDef) :
  positive_alignment (mkFieldDef n (TStruct (defineStruct name fields))).
Proof. exact (defineStruct_alignment_pos name fields). Qed.

Lemma primitive_positive_alignment (n : string) (p : PrimitiveType) :
  positive_alignment (mkFieldDef n (TPrim p)).
Proof. unfold positive_alignment. destruct p; cbn; lia. Qed.

Lemma array_positive_alignment (n : string) (p : PrimitiveType) (count : Z) :
  positive_alignment (mkFieldDef n (TArray p count)).
Proof. unfold positive_alignment. destruct p; cbn; lia. Qed.

(** C1. [defineStruct] is the declaration-order walk of the specification:
    running offset from 0, running max-alignment from 1, each field
    recorded at the running offset rounded by [align], the total size the
    final offset rounded by [align] to the max-alignment. For a
    non-negative offset and a positive alignment [align] rounds up: its
    result is the least multiple of the alignment not below the offset.
    The struct {u32 a, u64 b, u32 c} gets offsets 0, 8, 16, size 24 and
    alignment 8. *)
Theorem defineStruct_is_declaration_order_walk :
  (forall name fields, defineStruct name fields = computeLayout name fields)
  /\ (forall offset alignment,
         0 <= offset -> 0 < alignment ->
         Z.rem (align offset alignment) alignment = 0
         /\ offset <= align offset alignment < offset + alignment)
  /\ defineStruct "S" scenario1 =
     mkStructLayout "S"
       [ mkFieldLayout "a" (TPrim Pu32) 0 4 4;
         mkFieldLayout "b" (TPrim Pu64) 8 8 8;
         mkFieldLayout "c" (TPrim Pu32) 16 4 4 ]
       24 8.
Proof.
  split; [exact defineStruct_computeLayout|]. split; [|reflexivity].
  intros offset alignment Ho Ha. repeat split.
  - apply rem_align_zero. lia.
  - now apply align_ge.
  - now apply align_lt.
Qed.

Lemma defineStruct_is_declaration_order_walk_witness :
  Z.rem (align 4 8) 8 = 0 /\ 4 <= align 4 8 < 4 + 8.
Proof.
  apply (proj1 (proj2 defineStruct_is_declaration_order_walk) 4 8); lia.
Defined.

(** C2. In a layout returned by [defineStruct], for field types of
    positive alignment and non-negative size (primitives, arrays of
    non-negative count, nested layouts that [defineStruct] returned for
    such types) and a size within the exact range of sums: every field's
    offset is a multiple of the field's alignment, the size is a
    multiple of the overall alignment, and adjacent fields do not
    overlap. *)
Theorem defineStruct_alignment_and_no_overlap (name : string) (fields : list FieldDef) :
  Forall positive_alignment fields ->
  Forall nonnegative_size fields ->
  exact_range (defineStruct name fields) ->
  let layout := defineStruct name fields in
  Forall (fun f => Z.rem (fl_offset f) (fl_alignment f) = 0) (sl_fields layout)
  /\ Z.rem (sl_size layout) (sl_alignment layout) = 0
  /\ (forall i f g,
         nth_error (sl_fields layout) i = Some f ->
         nth_error (sl_fields layout) (S i) = Some g ->
         fl_offset f + fl_size f <= fl_offset g).
Proof.
  intros Hpos _ _ layout. subst layout. rewrite defineStruct_computeLayout.
  unfold computeLayout.
  pose proof (walk_invariants fields Hpos 0 1 ltac:(lia)) as H.
  destruct (walk 0 1 fields) as [[ls final] m]. cbn in H |- *.
  destruct H as (Hm & Hal & _ & Hadj).
  repeat split; [assumption| |assumption].
  apply rem_align_zero. lia.
Qed.

Lemma defineStruct_alignment_and_no_overlap_witness :
  let layout := defineStruct "Outer"
                  [ mkFieldDef "tag" (TPrim Pu8);
                    mkFieldDef "inner" (TStruct (defineStruct "S" scenario1));
                    mkFieldDef "tail" (TArray Pu16 3) ] in
  Forall (fun f => Z.rem (fl_offset f) (fl_alignment f) = 0) (sl_fields layout)
  /\ Z.rem (sl_size layout) (sl_alignment layout) = 0
  /\ (forall i f g,
         nth_error (sl_fields layout) i = Some f ->
         nth_error (sl_fields layout) (S i) = Some g ->
         fl_offset f + fl_size f <= fl_offset g).
Proof.
  apply (defineStruct_alignment_and_no_overlap "Outer").
  - repeat constructor; unfold positive_alignment; cbn; lia.
  - repeat constructor; unfold nonnegative_size; cbn; lia.
  - unfold exact_range. vm_compute. discriminate.
Defined.

Lemma find_first {A : Type} (p : A -> bool) (l : list A) :
  match find p l with
  | Some x => exists before after,
      l = before ++ x :: after /\ p x = true /\ forallb (fun y => negb (p y)) before = true
  | None => forallb (fun y => negb (p y)) l = true
  end.
Proof.
  induction l as [|a l IH]; cbn; [reflexivity|].
  destruct (p a) eqn:E.
  - exists [], l. auto.
  - destruct (find p l) as [x|].
    + destruct IH as (before & after & -> & Hx & Hb).
      exists (a :: before), after. cbn. rewrite E. auto.
    + cbn. assumption.
Qed.

(** C10. [getFieldOffset] returns the offset of the field with the given
    name (the first one in declaration order) when the layout has such a
    field, and otherwise throws an [Error] whose message names the field
    and the struct. *)
Theorem getFieldOffset_found_or_throws (layout : StructLayout) (fieldName : string) :
  ((exists f, In f (sl_fields layout) /\ fl_name f = fieldName) ->
   exists before f after,
     sl_fields layout = before ++ f :: after
     /\ fl_name f = fieldName
     /\ (forall g, In g before -> fl_name g <> fieldName)
     /\ getFieldOffset layout fieldName = Returns (fl_offset f))
  /\ ((forall f, In f (sl_fields layout) -> fl_name f <> fieldName) ->
      getFieldOffset layout fieldName =
      Throws (Error ("Field '" ++ fieldName ++ "' not found in struct '"
                       ++ sl_name layout ++ "'"))).
Proof.
  unfold getFieldOffset.
  pose proof (find_first (fun f => String.eqb (fl_name f) fieldName) (sl_fields layout)) as H.
  destruct (find _ (sl_fields layout)) as [x|]; split.
  - intros _. destruct H as (before & after & Heq & Hx & Hb).
    exists before, x, after. repeat split; auto.
    + now apply String.eqb_eq.
    + intros g Hg. rewrite forallb_forall in Hb. specialize (Hb g Hg).
      apply negb_true_iff in Hb. now apply String.eqb_neq.
  - intros Hno. destruct H as (before & after & Heq & Hx & _).
    apply String.eqb_eq in Hx. exfalso. apply (Hno x); [|assumption].
    rewrite Heq. apply in_or_app. right. now left.
  - intros (f & Hin & Hname). rewrite forallb_forall in H. specialize (H f Hin).
    apply negb_true_iff in H. apply String.eqb_neq in H. contradiction.
  - reflexivity.
Qed.

Lemma getFieldOffset_found_or_throws_witness :
  (exists before f after,
      sl_fields (defineStruct "S" scenario1) = before ++ f :: after
      /\ fl_name f = "b"%string
      /\ (forall g, In g before -> fl_name g <> "b"%string)
      /\ getFieldOffset (defineStruct "S" scenario1) "b" = Returns (fl_offset f))
  /\ getFieldOffset (defineStruct "S" scenario1) "d" =
     Throws (Error "Field 'd' not found in struct 'S'").
Proof.
  split.
  - apply (proj1 (getFieldOffset_found_or_throws (defineStruct "S" scenario1) "b")).
    exists (mkFieldLayout "b" (TPrim Pu64) 8 8 8). split; [cbn; auto|reflexivity].
  - apply (proj2 (getFieldOffset_found_or_throws (defineStruct "S" scenario1) "d")).
    intros f Hin. cbn in Hin.
    destruct Hin as [<-|[<-|[<-|[]]]]; cbn; discriminate.
Defined.

End LayoutFacts.

(** ** Byte buffers *)

Section BufferFacts.
Import Layout DataView Encoder.

Lemma ArrayBuffer_new_returns (size : Z) :
  0 <= size <= MAX_SAFE_INTEGER ->
  ArrayBuffer_new size = Returns (repeat Byte.x00 (Z.to_nat size)).
Proof.
  intros H. unfold ArrayBuffer_new.
  destruct (size <? 0) eqn:E; [apply Z.ltb_lt in E; lia|].
  destruct (MAX_SAFE_INTEGER <? size) eqn:E'; [apply Z.ltb_lt in E'; lia|reflexivity].
Qed.

Lemma ArrayBuffer_new_inv (size : Z) (buf : Buffer) :
  ArrayBuffer_new size = Returns buf ->
  0 <= size <= MAX_SAFE_INTEGER /\ buf = repeat Byte.x00 (Z.to_nat size).
Proof.
  unfold ArrayBuffer_new.
  destruct (size <? 0) eqn:E; [discriminate|].
  destruct (MAX_SAFE_INTEGER <? size) eqn:E'; [discriminate|].
  apply Z.ltb_ge in E, E'. cbn [orb]. intros [= <-]. auto.
Qed.

Lemma ArrayBuffer_new_negative (size : Z) :
  size < 0 -> ArrayBuffer_new size = Throws RangeError.
Proof. intros H. unfold ArrayBuffer_new. apply Z.ltb_lt in H. now rewrite H. Qed.

Lemma store_returns (buf : Buffer) (offset : Z) (bs : list byte) :
  offset + Z.of_nat (length bs) <= Z.of_nat (length buf) ->
  store buf offset bs =
  Returns (firstn (Z.to_nat offset) buf ++ bs
             ++ skipn (Z.to_nat offset + length bs) buf).
Proof.
  intros H. unfold store.
  destruct (Z.of_nat (length buf) <? offset + Z.of_nat (length bs)) eqn:E;
    [apply Z.ltb_lt in E; lia|reflexivity].
Qed.

Lemma store_inv (buf buf' : Buffer) (offset : Z) (bs : list byte) :
  store buf offset bs = Returns buf' ->
  offset + Z.of_nat (length bs) <= Z.of_nat (length buf)
  /\ buf' = firstn (Z.to_nat offset) buf ++ bs
              ++ skipn (Z.to_nat offset + length bs) buf.
Proof.
  unfold store.
  destruct (Z.of_nat (length buf) <? offset + Z.of_nat (length bs)) eqn:E;
    [discriminate|].
  apply Z.ltb_ge in E. intros [= <-]. auto.
Qed.

(** The bytes of a buffer after a store, index by index. *)
Lemma nth_error_stored (buf : Buffer) (o : nat) (bs : list byte) (i : nat) :
  (o + length bs <= length buf)%nat ->
  nth_error (firstn o buf ++ bs ++ skipn (o + length bs) buf) i =
  if (i <? o)%nat then nth_error buf i
  else if (i <? o + length bs)%nat then nth_error bs (i - o)
       else nth_error buf i.
Proof.
  intros Hlen.
  assert (Hf : length (firstn o buf) = o) by (rewrite length_firstn; lia).
  destruct (i <? o)%nat eqn:E1.
  - apply Nat.ltb_lt in E1. rewrite nth_error_app1 by lia.
    rewrite nth_error_firstn. apply Nat.ltb_lt in E1. now rewrite E1.
  - apply Nat.ltb_ge in E1. rewrite nth_error_app2 by lia. rewrite Hf.
    destruct (i <? o + length bs)%nat eqn:E2.
    + apply Nat.ltb_lt in E2. now rewrite nth_error_app1 by lia.
    + apply Nat.ltb_ge in E2. rewrite nth_error_app2 by lia.
      rewrite nth_error_skipn. f_equal. lia.
Qed.

Lemma length_stored (buf : Buffer) (o : nat) (bs : list byte) :
  (o + length bs <= length buf)%nat ->
  length (firstn o buf ++ bs ++ skipn (o + length bs) buf) = length buf.
Proof.
  intros H. rewrite !length_app, length_firstn, length_skipn. lia.
Qed.

Lemma store_agree_outside (buf buf' : Buffer) (offset : Z) (bs : list byte) :
  0 <= offset ->
  store buf offset bs = Returns buf' ->
  agree_outside offset (offset + Z.of_nat (length bs)) buf buf'.
Proof.
  intros Ho H. apply store_inv in H. destruct H as [Hb ->].
  assert (Hn : (Z.to_nat offset + length bs <= length buf)%nat) by lia.
  split.
  - now rewrite length_stored.
  - intros i Hi. rewrite nth_error_stored by assumption.
    destruct (i <? Z.to_nat offset)%nat eqn:E1; [reflexivity|].
    destruct (i <? Z.to_nat offset + length bs)%nat eqn:E2; [|reflexivity].
    apply Nat.ltb_ge in E1. apply Nat.ltb_lt in E2. lia.
Qed.

Lemma load_stored (buf buf' : Buffer) (offset : Z) (bs : list byte) :
  0 <= offset ->
  store buf offset bs = Returns buf' ->
  load buf' offset (length bs) = Returns bs.
Proof.
  intros Ho H. apply store_inv in H. destruct H as [Hb ->].
  assert (Hn : (Z.to_nat offset + length bs <= length buf)%nat) by lia.
  unfold load. rewrite length_stored by assumption.
  destruct (offset <? 0) eqn:E0; [apply Z.ltb_lt in E0; lia|].
  destruct (Z.of_nat (length buf) <? offset + Z.of_nat (length bs)) eqn:E1;
    [apply Z.ltb_lt in E1; lia|].
  f_equal.
  assert (Hf : length (firstn (Z.to_nat offset) buf) = Z.to_nat offset)
    by (rewrite length_firstn; lia).
  rewrite skipn_app, Hf, Nat.sub_diag, skipn_all2 by lia.
  cbn [skipn app]. rewrite firstn_app, Nat.sub_diag, firstn_all. cbn [firstn].
  now rewrite app_nil_r.
Qed.

Lemma load_agree (b1 b2 : Buffer) (offset : Z) (w : nat) :
  agree_on offset (offset + Z.of_nat w) b1 b2 ->
  load b1 offset w = load b2 offset w.
Proof.
  intros [Hlen Hnth]. unfold load. rewrite Hlen.
  destruct (offset <? 0) eqn:E0; [reflexivity|]. apply Z.ltb_ge in E0.
  destruct (Z.of_nat (length b2) <? offset + Z.of_nat w); [reflexivity|].
  f_equal. apply nth_error_ext. intros i.
  rewrite !nth_error_firstn.
  destruct (i <? w)%nat eqn:E; [|reflexivity]. apply Nat.ltb_lt in E.
  rewrite !nth_error_skipn. apply Hnth. lia.
Qed.

Lemma agree_outside_refl (lo hi : Z) (b : Buffer) : agree_outside lo hi b b.
Proof. split; auto. Qed.

Lemma agree_outside_trans (lo hi : Z) (b1 b2 b3 : Buffer) :
  agree_outside lo hi b1 b2 -> agree_outside lo hi b2 b3 -> agree_outside lo hi b1 b3.
Proof.
  intros [L1 H1] [L2 H2]. split; [congruence|].
  intros i Hi. rewrite H1, H2; auto.
Qed.

Lemma agree_outside_widen (lo hi lo' hi' : Z) (b1 b2 : Buffer) :
  lo' <= lo -> hi <= hi' ->
  agree_outside lo hi b1 b2 -> agree_outside lo' hi' b1 b2.
Proof.
  intros Hlo Hhi [L H]. split; [assumption|]. intros i Hi. apply H. lia.
Qed.

(** A write confined to [lo, hi) leaves every disjoint range as it was. *)
Lemma agree_outside_on (lo hi lo' hi' : Z) (b1 b2 : Buffer) :
  hi' <= lo \/ hi <= lo' ->
  agree_outside lo hi b1 b2 -> agree_on lo' hi' b1 b2.
Proof.
  intros Hd [L H]. split; [assumption|]. intros i Hi. apply H. lia.
Qed.

Lemma agree_on_narrow (lo hi lo' hi' : Z) (b1 b2 : Buffer) :
  lo <= lo' -> hi' <= hi ->
  agree_on lo hi b1 b2 -> agree_on lo' hi' b1 b2.
Proof.
  intros Hlo Hhi [L H]. split; [assumption|]. intros i Hi. apply H. lia.
Qed.

End BufferFacts.

(** ** Primitive writes and reads *)

(** ** Floating-point formats *)

Section FloatFacts.
Import Layout DataView Encoder.

Lemma nearest_small (prec n : Z) : Z.abs n < 2 ^ prec -> nearest prec n = n.
Proof.
  intros H. unfold nearest. cbv zeta.
  destruct (Z.abs n <? 2 ^ prec) eqn:E; [reflexivity|apply Z.ltb_ge in E; lia].
Qed.

(** A magnitude the rounding leaves alone is a multiple of the unit in
    the last place. *)
Lemma nearest_fixed_multiple (prec n : Z) :
  0 < prec ->
  nearest prec n = n ->
  2 ^ prec <= Z.abs n ->
  exists q, Z.abs n = q * 2 ^ (Z.log2 (Z.abs n) - (prec - 1)).
Proof.
  intros Hp H Hbig. unfold nearest in H. cbv zeta in H.
  destruct (Z.abs n <? 2 ^ prec) eqn:E; [apply Z.ltb_lt in E; lia|].
  set (e := Z.log2 (Z.abs n) - (prec - 1)) in *.
  set (q' := if _ <? _ then _ else _) in H.
  exists (Z.abs q').
  assert (Hn : n <> 0)
    by (intros ->; cbn in Hbig; pose proof (Z.pow_pos_nonneg 2 prec); lia).
  assert (He : 0 <= 2 ^ e) by (apply Z.pow_nonneg; lia).
  assert (Hs : Z.abs (Z.sgn n) = 1) by (clear - Hn; destruct n; cbn; lia).
  rewrite <- H at 1. rewrite !Z.abs_mul, (Z.abs_eq (2 ^ e)), Hs by assumption. lia.
Qed.

(** The three fields of a bit pattern. *)
Lemma float_fields (prec ew sign exponent fraction : Z) :
  1 < prec -> 1 < ew ->
  sign = 0 \/ sign = 1 ->
  0 <= exponent < 2 ^ ew ->
  0 <= fraction < 2 ^ (prec - 1) ->
  let bits := sign * 2 ^ (prec - 1 + ew) + exponent * 2 ^ (prec - 1) + fraction in
  bits mod 2 ^ (prec - 1) = fraction
  /\ (bits / 2 ^ (prec - 1)) mod 2 ^ ew = exponent
  /\ (2 ^ (prec - 1 + ew) <=? bits) = (sign =? 1)
  /\ 0 <= bits < 2 ^ (prec + ew).
Proof.
  intros Hp Hw Hs He Hf bits.
  assert (HP : 0 < 2 ^ (prec - 1)) by (apply Z.pow_pos_nonneg; lia).
  assert (HW : 0 < 2 ^ ew) by (apply Z.pow_pos_nonneg; lia).
  assert (E1 : 2 ^ (prec - 1 + ew) = 2 ^ ew * 2 ^ (prec - 1))
    by (rewrite <- Z.pow_add_r by lia; f_equal; lia).
  assert (E2 : 2 ^ (prec + ew) = 2 * (2 ^ ew * 2 ^ (prec - 1))).
  { rewrite <- E1, <- Z.pow_succ_r by lia. f_equal. lia. }
  assert (Hb : bits = fraction + (sign * 2 ^ ew + exponent) * 2 ^ (prec - 1))
    by (unfold bits; rewrite E1; ring).
  assert (Hlow : 0 <= exponent * 2 ^ (prec - 1) + fraction < 2 ^ ew * 2 ^ (prec - 1)) by nia.
  split; [|split; [|split]].
  - rewrite Hb, Z.mod_add by lia. apply Z.mod_small. lia.
  - rewrite Hb, Z.div_add by lia. rewrite (Z.div_small fraction) by lia.
    rewrite Z.add_0_l, Z.add_comm, Z.mod_add by lia. apply Z.mod_small. lia.
  - rewrite E1. unfold bits. rewrite E1.
    destruct Hs as [-> | ->]; cbn [Z.eqb Pos.eqb].
    + apply Z.leb_gt. lia.
    + apply Z.leb_le. lia.
  - rewrite E2. unfold bits. rewrite E1. destruct Hs as [-> | ->]; lia.
Qed.

Lemma shiftl_back (m k : Z) : 0 <= k -> Z.shiftl (Z.shiftl m k) (- k) = m.
Proof.
  intros Hk. rewrite (Z.shiftl_mul_pow2 m k) by lia.
  rewrite Z.shiftl_div_pow2 by lia. rewrite Z.opp_involutive.
  apply Z.div_mul. apply Z.pow_nonzero; lia.
Qed.

(** The significand of a representable magnitude: [m] shifted so that
    its leading bit is bit [prec - 1], without loss. *)
Lemma significand (prec n : Z) :
  1 < prec ->
  nearest prec n = n ->
  n <> 0 ->
  let m := Z.abs n in
  let e := Z.log2 m in
  let t := Z.shiftl m (prec - 1 - e) in
  2 ^ (prec - 1) <= t < 2 * 2 ^ (prec - 1)
  /\ Z.shiftl t (e - (prec - 1)) = m.
Proof.
  intros Hp Hn H0 m e t.
  assert (Hm : 0 < m) by (unfold m; lia).
  pose proof (Z.log2_spec m Hm) as Hlog. fold e in Hlog.
  pose proof (Z.log2_nonneg m) as He. fold e in He.
  rewrite Z.pow_succ_r in Hlog by assumption.
  destruct (Z.le_gt_cases e (prec - 1)) as [Hk|Hk].
  - assert (Ht : t = m * 2 ^ (prec - 1 - e))
      by (unfold t; apply Z.shiftl_mul_pow2; lia).
    assert (HP : 2 ^ (prec - 1) = 2 ^ e * 2 ^ (prec - 1 - e))
      by (rewrite <- Z.pow_add_r by lia; f_equal; lia).
    assert (Hk2 : 0 < 2 ^ (prec - 1 - e)) by (apply Z.pow_pos_nonneg; lia).
    split; [rewrite HP, Ht; nia|].
    replace (e - (prec - 1)) with (- (prec - 1 - e)) by lia.
    unfold t. apply shiftl_back. lia.
  - set (j := e - (prec - 1)) in *.
    assert (Hbig : 2 ^ prec <= Z.abs n).
    { fold m. apply Z.le_trans with (2 ^ e); [|lia].
      apply Z.pow_le_mono_r; lia. }
    destruct (nearest_fixed_multiple prec n ltac:(lia) Hn Hbig) as [q Hq].
    fold m e j in Hq.
    assert (Hj : 0 < 2 ^ j) by (apply Z.pow_pos_nonneg; lia).
    assert (Ht : t = q).
    { unfold t. rewrite Z.shiftl_div_pow2 by lia.
      replace (- (prec - 1 - e)) with j by lia. rewrite Hq. apply Z.div_mul. lia. }
    assert (HE : 2 ^ e = 2 ^ (prec - 1) * 2 ^ j)
      by (rewrite <- Z.pow_add_r by lia; f_equal; lia).
    split.
    + rewrite Ht. rewrite HE, Hq in Hlog. nia.
    + rewrite Ht, Z.shiftl_mul_pow2 by lia. now rewrite Hq.
Qed.

(** A representable integer is what its bit pattern denotes, and the
    pattern has [prec + ew] bits. *)
Lemma float_bits_value (prec ew n : Z) :
  1 < prec -> 1 < ew ->
  representable prec ew n = true ->
  0 <= float_bits prec ew n < 2 ^ (prec + ew)
  /\ float_value prec ew (float_bits prec ew n) = Returns n.
Proof.
  intros Hp Hw Hr. unfold representable in Hr. apply andb_prop in Hr.
  destruct Hr as [H1 H2]. apply Z.eqb_eq in H1. apply Z.ltb_lt in H2.
  assert (HP : 0 < 2 ^ (prec - 1)) by (apply Z.pow_pos_nonneg; lia).
  assert (HW : 4 <= 2 ^ ew)
    by (change 4 with (2 ^ 2); apply Z.pow_le_mono_r; lia).
  assert (HB : 2 ^ ew = 2 * 2 ^ (ew - 1)).
  { rewrite <- Z.pow_succ_r by lia. f_equal. lia. }
  set (bias := 2 ^ (ew - 1) - 1) in *.
  unfold float_bits. cbv zeta. rewrite H1. fold bias.
  destruct (Z.abs n =? 0) eqn:E0.
  - apply Z.eqb_eq in E0. assert (n = 0) by lia. subst n.
    split; [split; [lia|apply Z.pow_pos_nonneg; lia]|].
    unfold float_value. cbv zeta.
    rewrite !Z.mod_0_l by lia.
    destruct (0 =? 2 ^ ew - 1) eqn:E; [apply Z.eqb_eq in E; lia|].
    cbn [Z.eqb andb].
    destruct (2 ^ (prec - 1 + ew) <=? 0) eqn:E';
      [apply Z.leb_le in E'; pose proof (Z.pow_pos_nonneg 2 (prec - 1 + ew)); lia|].
    reflexivity.
  - apply Z.eqb_neq in E0. assert (Hn : n <> 0) by lia.
    destruct (significand prec n Hp H1 Hn) as [Ht Hback]. cbv zeta in Ht, Hback.
    set (m := Z.abs n) in *. set (e := Z.log2 m) in *.
    set (t := Z.shiftl m (prec - 1 - e)) in *.
    assert (Hm : 0 < m) by (unfold m; lia).
    pose proof (Z.log2_nonneg m) as He. fold e in He.
    assert (Hle : e <= bias).
    { assert (e < 2 ^ (ew - 1)); [|unfold bias; lia].
      apply (proj1 (Z.log2_lt_pow2 m (2 ^ (ew - 1)) Hm)). exact H2. }
    destruct (bias <? e) eqn:Eb; [apply Z.ltb_lt in Eb; lia|].
    set (sign := if n <? 0 then 1 else 0).
    assert (Hsign : (if n <? 0 then 2 ^ (prec - 1 + ew) else 0)
                    = sign * 2 ^ (prec - 1 + ew))
      by (unfold sign; destruct (n <? 0); lia).
    rewrite Hsign.
    destruct (float_fields prec ew sign (e + bias) (t - 2 ^ (prec - 1)) Hp Hw)
      as (F1 & F2 & F3 & F4);
      [unfold sign; destruct (n <? 0); auto|unfold bias in *; lia|lia|].
    cbv zeta in F1, F2, F3, F4.
    split; [exact F4|].
    unfold float_value. cbv zeta. rewrite F1, F2, F3. fold bias.
    destruct (e + bias =? 2 ^ ew - 1) eqn:E1; [apply Z.eqb_eq in E1; unfold bias in *; lia|].
    destruct (e + bias =? 0) eqn:E2; [apply Z.eqb_eq in E2; unfold bias in *; lia|].
    replace (2 ^ (prec - 1) + (t - 2 ^ (prec - 1))) with t by lia.
    replace (e + bias - bias - (prec - 1)) with (e - (prec - 1)) by lia.
    rewrite Hback.
    replace (- (e - (prec - 1))) with (prec - 1 - e) by lia. fold t.
    rewrite Z.eqb_refl. f_equal. unfold sign, m.
    destruct (n <? 0) eqn:En; cbn [Z.eqb Pos.eqb];
      [apply Z.ltb_lt in En|apply Z.ltb_ge in En]; lia.
Qed.

End FloatFacts.

Section PrimitiveFacts.
Import Layout DataView Encoder.

Lemma width_size (type : PrimitiveType) : Z.of_nat (width type) = getTypeSize type.
Proof. destruct type; reflexivity. Qed.

Lemma getTypeSize_TYPE_INFO (type : PrimitiveType) :
  getTypeSize type = ti_size (TYPE_INFO type).
Proof. destruct type; reflexivity. Qed.

Lemma getTypeSize_pos (type : PrimitiveType) : 0 < getTypeSize type.
Proof. destruct type; cbn; lia. Qed.

Lemma setNumber_nonneg (w : nat) (buf : Buffer) (offset : Z) (value : Scalar) :
  0 <= offset ->
  setNumber w buf offset value =
  (x <- ToNumber value ;; store buf offset (le_split w (integral x))).
Proof.
  intros H. unfold setNumber.
  destruct (offset <? 0) eqn:E; [apply Z.ltb_lt in E; lia|reflexivity].
Qed.

Lemma setBig64_nonneg (buf : Buffer) (offset value : Z) :
  0 <= offset -> setBig64 buf offset value = store buf offset (le_split 8 value).
Proof.
  intros H. unfold setBig64.
  destruct (offset <? 0) eqn:E; [apply Z.ltb_lt in E; lia|reflexivity].
Qed.

Lemma setNumber_negative (w : nat) (buf : Buffer) (offset : Z) (value : Scalar) :
  offset < 0 -> setNumber w buf offset value = Throws RangeError.
Proof. intros H. unfold setNumber. apply Z.ltb_lt in H. now rewrite H. Qed.

Lemma setBig64_negative (buf : Buffer) (offset value : Z) :
  offset < 0 -> setBig64 buf offset value = Throws RangeError.
Proof. intros H. unfold setBig64. apply Z.ltb_lt in H. now rewrite H. Qed.

Lemma setFloat_negative (prec ew : Z) (w : nat) (buf : Buffer) (offset : Z)
      (value : Scalar) :
  offset < 0 -> setFloat prec ew w buf offset value = Throws RangeError.
Proof. intros H. unfold setFloat. apply Z.ltb_lt in H. now rewrite H. Qed.

(** What [writePrimitive] does for a non-negative offset, all kinds at
    once: it converts the value and stores the little-endian bytes of the
    integer, or passes on the TypeError of the conversion. *)
Lemma writePrimitive_store (buf : Buffer) (offset : Z) (type : PrimitiveType)
      (value : Scalar) :
  is_float type = false ->
  0 <= offset ->
  writePrimitive buf offset type value =
  match stored_integer type value with
  | Some z => store buf offset (le_split (width type) z)
  | None => Throws TypeError
  end.
Proof.
  intros Hf Ho.
  destruct type; try discriminate Hf; unfold writePrimitive;
    unfold setUint8, setInt8, setUint16, setInt16, setUint32, setInt32,
           setBigUint64, setBigInt64;
    rewrite ?setNumber_nonneg by assumption;
    destruct value; cbn [ToNumber BigInt orZero bind stored_integer integral];
    rewrite ?setBig64_nonneg by assumption; reflexivity.
Qed.

Lemma writePrimitive_negative (buf : Buffer) (offset : Z) (type : PrimitiveType)
      (value : Scalar) (buf' : Buffer) :
  offset < 0 -> writePrimitive buf offset type value <> Returns buf'.
Proof.
  intros Ho.
  destruct type; unfold writePrimitive;
    unfold setUint8, setInt8, setUint16, setInt16, setUint32, setInt32,
           setBigUint64, setBigInt64, setFloat32, setFloat64;
    rewrite ?setNumber_negative, ?setFloat_negative by assumption; try discriminate;
    destruct value; cbn [BigInt orZero bind];
    rewrite ?setBig64_negative by assumption; discriminate.
Qed.

(** A floating-point store that returns has stored the bit pattern of a
    number. *)
Lemma setFloat_returns (prec ew : Z) (w : nat) (buf buf' : Buffer) (offset : Z)
      (value : Scalar) :
  setFloat prec ew w buf offset value = Returns buf' ->
  0 <= offset
  /\ exists n, ToNumber value = Returns (Num n)
               /\ store buf offset (le_split w (float_bits prec ew n)) = Returns buf'.
Proof.
  unfold setFloat. destruct (offset <? 0) eqn:E; [discriminate|].
  apply Z.ltb_ge in E. intros H. split; [assumption|].
  destruct (ToNumber value) as [[|n]| |]; cbn [bind] in H; try discriminate.
  - destruct (store buf offset (le_split w 0)); discriminate.
  - eauto.
Qed.

Lemma writePrimitive_float (buf : Buffer) (offset : Z) (type : PrimitiveType)
      (value : Scalar) :
  is_float type = true ->
  writePrimitive buf offset type value =
  setFloat (if getTypeSize type =? 4 then 24 else 53)
           (if getTypeSize type =? 4 then 8 else 11)
           (width type) buf offset value.
Proof. destruct type; try discriminate; reflexivity. Qed.

(** [writePrimitive] changes no byte outside the field. *)
Lemma writePrimitive_footprint (buf buf' : Buffer) (offset : Z)
      (type : PrimitiveType) (value : Scalar) :
  writePrimitive buf offset type value = Returns buf' ->
  agree_outside offset (offset + getTypeSize type) buf buf'.
Proof.
  intros H.
  destruct (Z.lt_ge_cases offset 0) as [Hneg|Ho];
    [exfalso; eapply writePrimitive_negative; eassumption|].
  destruct (is_float type) eqn:Hf.
  - rewrite writePrimitive_float in H by assumption.
    apply setFloat_returns in H. destruct H as (_ & n & _ & H).
    apply store_agree_outside in H; [|assumption].
    now rewrite length_le_split, width_size in H.
  - rewrite writePrimitive_store in H by assumption.
    destruct (stored_integer type value) as [z|]; [|discriminate].
    apply store_agree_outside in H; [|assumption].
    now rewrite length_le_split, width_size in H.
Qed.

(** A number that fits a floating-point kind is what the matching read
    function returns after [writePrimitive]. *)
Lemma writePrimitive_readAs_float (buf : Buffer) (offset : Z) (type : PrimitiveType)
      (n : Z) :
  is_float type = true ->
  fits_prim type (SNum n) = true ->
  0 <= offset ->
  offset + getTypeSize type <= Z.of_nat (length buf) ->
  exists buf',
    writePrimitive buf offset type (SNum n) = Returns buf'
    /\ readAs type buf' offset = Returns (SNum n).
Proof.
  intros Hf Hfit Ho Hb.
  set (prec := if getTypeSize type =? 4 then 24 else 53).
  set (ew := if getTypeSize type =? 4 then 8 else 11).
  assert (Hr : representable prec ew n = true)
    by (destruct type; try discriminate Hf; exact Hfit).
  assert (Hbits : prec + ew = 8 * Z.of_nat (width type))
    by (destruct type; try discriminate Hf; reflexivity).
  destruct (float_bits_value prec ew n) as [Hrange Hval];
    [destruct type; try discriminate Hf; cbn; lia..|assumption|].
  rewrite writePrimitive_float by assumption. fold prec ew.
  unfold setFloat. destruct (offset <? 0) eqn:E; [apply Z.ltb_lt in E; lia|].
  cbn [ToNumber bind].
  assert (Hlen : offset + Z.of_nat (length (le_split (width type) (float_bits prec ew n)))
                 <= Z.of_nat (length buf))
    by (rewrite length_le_split, width_size; lia).
  pose proof (store_returns buf offset _ Hlen) as Hs. rewrite Hs.
  eexists. split; [reflexivity|].
  pose proof (load_stored buf _ offset _ Ho Hs) as Hl.
  set (stored := firstn _ buf ++ _) in *. rewrite length_le_split in Hl.
  assert (Hget : getFloat prec ew (width type) stored offset = Returns n).
  { unfold getFloat. rewrite Hl. cbn [bind].
    rewrite le_combine_split, (Z.mul_comm (Z.of_nat (width type)) 8), <- Hbits.
    now rewrite Z.mod_small by assumption. }
  destruct type; try discriminate Hf;
    unfold readAs, readF32, readF64, getFloat32, getFloat64;
    unfold prec, ew, width in Hget; cbn [getTypeSize Z.eqb Pos.eqb] in Hget;
    change (Z.to_nat 4) with 4%nat in Hget; change (Z.to_nat 8) with 8%nat in Hget;
    now rewrite Hget.
Qed.

Lemma writePrimitive_load (buf : Buffer) (offset : Z) (type : PrimitiveType)
      (value : Scalar) (z : Z) :
  is_float type = false ->
  0 <= offset ->
  offset + getTypeSize type <= Z.of_nat (length buf) ->
  stored_integer type value = Some z ->
  exists buf',
    writePrimitive buf offset type value = Returns buf'
    /\ load buf' offset (width type) = Returns (le_split (width type) z).
Proof.
  intros Hf Ho Hb Hz. rewrite writePrimitive_store, Hz by assumption.
  assert (Hlen : offset + Z.of_nat (length (le_split (width type) z))
                 <= Z.of_nat (length buf))
    by (rewrite length_le_split, width_size; lia).
  pose proof (store_returns buf offset _ Hlen) as Hs.
  rewrite Hs. eexists. split; [reflexivity|].
  pose proof (load_stored buf _ offset _ Ho Hs) as H.
  set (stored := firstn _ buf ++ _) in *.
  rewrite length_le_split in H. exact H.
Qed.

Lemma getUnsigned_of_load (w : nat) (buf : Buffer) (offset z : Z) :
  load buf offset w = Returns (le_split w z) ->
  getUnsigned w buf offset = Returns (z mod 2 ^ (8 * Z.of_nat w)).
Proof.
  intros H. unfold getUnsigned. rewrite H. cbn [bind].
  rewrite le_combine_split, (Z.mul_comm (Z.of_nat w) 8). reflexivity.
Qed.

Lemma getSigned_of_load (w : nat) (buf : Buffer) (offset z : Z) :
  load buf offset w = Returns (le_split w z) ->
  getSigned w buf offset = Returns (signed w (z mod 2 ^ (8 * Z.of_nat w))).
Proof.
  intros H. unfold getSigned. rewrite H. cbn [bind].
  rewrite le_combine_split, (Z.mul_comm (Z.of_nat w) 8). reflexivity.
Qed.

Lemma signed_mod (w : nat) (z : Z) :
  (0 < w)%nat ->
  - 2 ^ (8 * Z.of_nat w - 1) <= z < 2 ^ (8 * Z.of_nat w - 1) ->
  signed w (z mod 2 ^ (8 * Z.of_nat w)) = z.
Proof.
  intros Hw Hz. unfold signed.
  assert (Hp : 2 ^ (8 * Z.of_nat w) = 2 * 2 ^ (8 * Z.of_nat w - 1)).
  { rewrite <- Z.pow_succ_r by lia. f_equal. lia. }
  assert (Hpos : 0 < 2 ^ (8 * Z.of_nat w - 1)) by (apply Z.pow_pos_nonneg; lia).
  destruct (Z.lt_ge_cases z 0) as [Hn|Hn].
  - assert (Hm : z mod 2 ^ (8 * Z.of_nat w) = z + 2 ^ (8 * Z.of_nat w)).
    { symmetry. apply Z.mod_unique with (q := -1); lia. }
    rewrite Hm.
    destruct (z + 2 ^ (8 * Z.of_nat w) <? 2 ^ (8 * Z.of_nat w - 1)) eqn:E;
      [apply Z.ltb_lt in E; lia|lia].
  - rewrite Z.mod_small by lia.
    destruct (z <? 2 ^ (8 * Z.of_nat w - 1)) eqn:E;
      [reflexivity|apply Z.ltb_ge in E; lia].
Qed.

Lemma Number_of_BigInt_exact (b : Z) :
  Z.abs b < 2 ^ 53 -> Number_of_BigInt b = b.
Proof.
  intros H. unfold Number_of_BigInt. cbv zeta.
  destruct (Z.abs b <? 2 ^ 53) eqn:E; [reflexivity|apply Z.ltb_ge in E; lia].
Qed.

(** A fitting value is what the matching read function returns after
    [writePrimitive]. *)
Lemma writePrimitive_readAs (buf : Buffer) (offset : Z) (type : PrimitiveType)
      (value : Scalar) :
  fits_prim type value = true ->
  0 <= offset ->
  offset + getTypeSize type <= Z.of_nat (length buf) ->
  exists buf',
    writePrimitive buf offset type value = Returns buf'
    /\ readAs type buf' offset = Returns value.
Proof.
  intros Hfit Ho Hb.
  destruct (is_float type) eqn:Hf.
  { destruct value; try (destruct type; discriminate).
    now apply writePrimitive_readAs_float. }
  assert (Hz : exists z, stored_integer type value = Some z).
  { destruct type, value; try discriminate; cbn; eauto. }
  destruct Hz as [z Hz].
  destruct (writePrimitive_load buf offset type value z Hf Ho Hb Hz) as (buf' & Hw & Hl).
  exists buf'. split; [assumption|].
  unfold width in Hl.
  destruct type, value; try discriminate Hfit; try discriminate Hf;
    cbn [fits_prim] in Hfit;
    try (apply andb_prop in Hfit; destruct Hfit as [H1 H2];
         apply Z.leb_le in H1; apply Z.ltb_lt in H2);
    cbn [stored_integer] in Hz; injection Hz as <-;
    cbn [getTypeSize] in Hl;
    change (Z.to_nat 1) with 1%nat in Hl; change (Z.to_nat 2) with 2%nat in Hl;
    change (Z.to_nat 4) with 4%nat in Hl; change (Z.to_nat 8) with 8%nat in Hl;
    pose proof (getUnsigned_of_load _ _ _ _ Hl) as Hu;
    pose proof (getSigned_of_load _ _ _ _ Hl) as Hs;
    unfold readAs, readU8, readI8, readU16, readI16, readU32, readI32, readU64,
           readI64, readPtr, readBool,
           getUint8, getInt8, getUint16, getInt16, getUint32, getInt32,
           getBigUint64, getBigInt64;
    rewrite ?Hu, ?Hs; cbn [bind];
    change (8 * Z.of_nat 1) with 8; change (8 * Z.of_nat 2) with 16;
    change (8 * Z.of_nat 4) with 32; change (8 * Z.of_nat 8) with 64.
  - rewrite Z.mod_small by lia. reflexivity.
  - rewrite (signed_mod 1) by (change (8 * Z.of_nat 1 - 1) with 7; lia). reflexivity.
  - rewrite Z.mod_small by lia. reflexivity.
  - rewrite (signed_mod 2) by (change (8 * Z.of_nat 2 - 1) with 15; lia). reflexivity.
  - rewrite Z.mod_small by lia. reflexivity.
  - rewrite (signed_mod 4) by (change (8 * Z.of_nat 4 - 1) with 31; lia). reflexivity.
  - rewrite Z.mod_small by lia. reflexivity.
  - rewrite (signed_mod 8) by (change (8 * Z.of_nat 8 - 1) with 63; lia). reflexivity.
  - rewrite Z.mod_small by lia. rewrite Number_of_BigInt_exact by lia. reflexivity.
  - rewrite Z.mod_small by lia. reflexivity.
  - destruct b; reflexivity.
Qed.

Lemma readAs_agree (type : PrimitiveType) (b1 b2 : Buffer) (offset : Z) :
  agree_on offset (offset + getTypeSize type) b1 b2 ->
  readAs type b1 offset = readAs type b2 offset.
Proof.
  intros H. rewrite <- width_size in H. apply load_agree in H.
  destruct type;
    unfold readAs, readU8, readI8, readU16, readI16, readU32, readI32, readU64,
           readI64, readPtr, readBool, readF32, readF64,
           getUint8, getInt8, getUint16, getInt16, getUint32, getInt32,
           getBigUint64, getBigInt64, getFloat32, getFloat64,
           getUnsigned, getSigned, getFloat;
    try reflexivity; unfold width in H; cbn [getTypeSize] in H;
    change (Z.to_nat 1) with 1%nat in H; change (Z.to_nat 2) with 2%nat in H;
    change (Z.to_nat 4) with 4%nat in H; change (Z.to_nat 8) with 8%nat in H;
    now rewrite H.
Qed.

End PrimitiveFacts.

(** ** Fields: footprint and round trip *)

Section FieldFacts.
Import Layout DataView Encoder.

Lemma writeField_struct (view : Buffer) (offset : Z) (l : StructLayout)
      (r : list (string * Value)) :
  writeField view offset (TStruct l) (VRec r) =
  forEach (writeNested r offset) (sl_fields l) view.
Proof. reflexivity. Qed.

Lemma encodeFields_writeField (l : StructLayout) (values : list (string * Value))
      (view : Buffer) :
  encodeFields (sl_fields l) values view = writeField view 0 (TStruct l) (VRec values).
Proof. reflexivity. Qed.

Lemma sound_struct (l : StructLayout) :
  sound (TStruct l) <->
  0 < sl_alignment l /\ in_sequence field_sound 0 (sl_size l) (sl_fields l).
Proof. reflexivity. Qed.

Lemma in_sequence_le (lo size : Z) (fs : list FieldLayout) :
  Forall (fun f => sound (fl_type f) -> 0 <= ti_size (getTypeInfo (fl_type f))) fs ->
  in_sequence field_sound lo size fs -> lo <= size.
Proof.
  intros HF. revert lo. induction HF as [|f rest Hf _ IH]; intros lo H; cbn in H.
  - assumption.
  - destruct H as (Hlo & (Hs & _ & Hsound) & Hrest).
    specialize (IH _ Hrest). specialize (Hf Hsound). lia.
Qed.

Lemma sound_size_nonneg (type : FieldType) :
  sound type -> 0 <= ti_size (getTypeInfo type).
Proof.
  induction type as [p|l IH|p count] using FieldType_nested_ind; intros H.
  - cbn. destruct p; cbn; lia.
  - apply sound_struct in H. destruct H as [_ H]. cbn.
    eapply in_sequence_le; eassumption.
  - cbn in H |- *. pose proof (getTypeSize_pos p) as Hp.
    rewrite getTypeSize_TYPE_INFO in Hp. nia.
Qed.

Lemma in_sequence_bound (lo size : Z) (fs : list FieldLayout) :
  in_sequence field_sound lo size fs -> lo <= size.
Proof.
  apply in_sequence_le. apply Forall_forall. intros f _. apply sound_size_nonneg.
Qed.

Lemma fits_defined (type : FieldType) (value : Value) :
  fits type value -> is_undefined value = false.
Proof.
  destruct type as [p|l|p count], value as [s|r|arr|]; cbn; try tauto.
  destruct s; try reflexivity. destruct p; discriminate.
Qed.

(** *** Footprint *)

Lemma writeElems_footprint (p : PrimitiveType) (offset count : Z) (arr : list Scalar) :
  forall (i : Z) (buf buf' : Buffer),
    0 <= i ->
    writeElems buf offset (getTypeSize p) p count i arr = Returns buf' ->
    agree_outside (offset + i * getTypeSize p) (offset + count * getTypeSize p) buf buf'.
Proof.
  induction arr as [|x rest IH]; intros i buf buf' Hi H; cbn [writeElems] in H.
  - injection H as <-. apply agree_outside_refl.
  - destruct (i <? count) eqn:E.
    + apply Z.ltb_lt in E.
      destruct (writePrimitive buf (offset + i * getTypeSize p) p x) as [buf1| |] eqn:W;
        cbn [bind] in H; try discriminate.
      apply writePrimitive_footprint in W.
      apply IH in H; [|lia].
      pose proof (getTypeSize_pos p) as Hp.
      eapply agree_outside_trans.
      * eapply agree_outside_widen; [| |exact W]; nia.
      * eapply agree_outside_widen; [| |exact H]; nia.
    + injection H as <-. apply agree_outside_refl.
Qed.

Lemma forEach_footprint (r : list (string * Value)) (offset size : Z)
      (fs : list FieldLayout) :
  Forall (fun f => sound (fl_type f) ->
                   forall v buf o buf',
                     writeField buf o (fl_type f) v = Returns buf' ->
                     agree_outside o (o + ti_size (getTypeInfo (fl_type f))) buf buf') fs ->
  forall lo buf buf',
    in_sequence field_sound lo size fs ->
    forEach (writeNested r offset) fs buf = Returns buf' ->
    agree_outside (offset + lo) (offset + size) buf buf'.
Proof.
  induction 1 as [|f rest Hf _ IH]; intros lo buf buf' Hseq H; cbn [forEach] in H.
  - injection H as <-. apply agree_outside_refl.
  - cbn in Hseq. destruct Hseq as (Hlo & (Hs & Ha & Hsound) & Hrest).
    pose proof (in_sequence_bound _ _ _ Hrest) as Hend.
    pose proof (sound_size_nonneg _ Hsound) as Hnn.
    destruct (writeNested r offset buf f) as [buf1| |] eqn:W; try discriminate.
    apply IH with (lo := fl_offset f + fl_size f) in H; [|assumption].
    eapply agree_outside_trans; [|eapply agree_outside_widen; [| |exact H]; lia].
    unfold writeNested in W. cbv zeta in W.
    destruct (is_undefined (getProp r (fl_name f))).
    + injection W as <-. apply agree_outside_refl.
    + apply (Hf Hsound) in W. eapply agree_outside_widen; [| |exact W]; lia.
Qed.

(** [writeField] changes no byte outside the field. *)
Lemma writeField_footprint (type : FieldType) :
  sound type ->
  forall (value : Value) (buf : Buffer) (offset : Z) (buf' : Buffer),
    writeField buf offset type value = Returns buf' ->
    agree_outside offset (offset + ti_size (getTypeInfo type)) buf buf'.
Proof.
  induction type as [p|l IH|p count] using FieldType_nested_ind;
    intros Hsound value buf offset buf' H.
  - destruct value as [s|r|arr|]; cbn [writeField] in H; try discriminate.
    apply writePrimitive_footprint in H. cbn [getTypeInfo].
    now rewrite <- getTypeSize_TYPE_INFO.
  - destruct value as [s|r|arr|]; try (cbn [writeField] in H; discriminate).
    rewrite writeField_struct in H. apply sound_struct in Hsound.
    destruct Hsound as [_ Hseq]. cbn [getTypeInfo ti_size].
    pose proof (forEach_footprint r offset (sl_size l) (sl_fields l) IH 0 buf buf' Hseq H)
      as Hfp.
    now rewrite Z.add_0_r in Hfp.
  - destruct value as [s|r|arr|]; cbn [writeField] in H; try discriminate.
    apply writeElems_footprint in H; [|lia]. cbn [getTypeInfo ti_size].
    rewrite <- getTypeSize_TYPE_INFO.
    eapply agree_outside_widen; [| |exact H]; lia.
Qed.

(** *** Decoding looks at the field's bytes only *)

Lemma all_fields_agree (r : list (string * Value)) (offset size : Z)
      (fs : list FieldLayout) :
  Forall (fun f => sound (fl_type f) ->
                   forall v o b1 b2,
                     fits (fl_type f) v ->
                     agree_on o (o + ti_size (getTypeInfo (fl_type f))) b1 b2 ->
                     reads_back b1 o (fl_type f) v -> reads_back b2 o (fl_type f) v) fs ->
  forall lo b1 b2,
    0 <= lo ->
    in_sequence field_sound lo size fs ->
    agree_on offset (offset + size) b1 b2 ->
    all_fields (fun f => fits (fl_type f) (getProp r (fl_name f))) fs ->
    all_fields (fun f => reads_back b1 (offset + fl_offset f) (fl_type f)
                                    (getProp r (fl_name f))) fs ->
    all_fields (fun f => reads_back b2 (offset + fl_offset f) (fl_type f)
                                    (getProp r (fl_name f))) fs.
Proof.
  induction 1 as [|f rest Hf _ IH]; intros lo b1 b2 Hlo0 Hseq Hag Hfit Hrb;
    cbn [all_fields] in *; [exact I|].
  cbn in Hseq. destruct Hseq as (Hlo & (Hs & Ha & Hsound) & Hrest).
  destruct Hfit as [Hfit Hfits]. destruct Hrb as [Hrb Hrbs].
  pose proof (in_sequence_bound _ _ _ Hrest) as Hend.
  pose proof (sound_size_nonneg _ Hsound) as Hnn.
  split.
  - apply (Hf Hsound _ _ b1 b2 Hfit); [|assumption].
    eapply agree_on_narrow; [| |exact Hag]; lia.
  - apply IH with (lo := fl_offset f + fl_size f) (b1 := b1); try assumption. lia.
Qed.

Lemma reads_back_agree (type : FieldType) :
  sound type ->
  forall (value : Value) (offset : Z) (b1 b2 : Buffer),
    fits type value ->
    agree_on offset (offset + ti_size (getTypeInfo type)) b1 b2 ->
    reads_back b1 offset type value -> reads_back b2 offset type value.
Proof.
  induction type as [p|l IH|p count] using FieldType_nested_ind;
    intros Hsound value offset b1 b2 Hfit Hag H.
  - destruct value as [s|r|arr|]; cbn [reads_back] in *; try contradiction.
    cbn [getTypeInfo] in Hag. rewrite <- getTypeSize_TYPE_INFO in Hag.
    now rewrite <- (readAs_agree p b1 b2 offset Hag).
  - destruct value as [s|r|arr|]; cbn [reads_back fits] in *; try contradiction.
    apply sound_struct in Hsound. destruct Hsound as [_ Hseq].
    cbn [getTypeInfo ti_size] in Hag.
    apply (all_fields_agree r offset (sl_size l) (sl_fields l) IH 0 b1 b2);
      try assumption. lia.
  - destruct value as [s|r|arr|]; cbn [reads_back fits] in *; try contradiction.
    destruct Hfit as [Hlen _]. intros i s Hi.
    rewrite <- (H i s Hi). symmetry. apply readAs_agree.
    cbn [getTypeInfo ti_size] in Hag. rewrite <- getTypeSize_TYPE_INFO in Hag.
    assert (Hlt : (i < length arr)%nat) by (apply nth_error_Some; congruence).
    pose proof (getTypeSize_pos p) as Hp.
    eapply agree_on_narrow; [| |exact Hag]; nia.
Qed.

(** *** Writing, then decoding *)

Lemma writeElems_reads_back (p : PrimitiveType) (offset count : Z) (arr : list Scalar) :
  forall (i : Z) (buf : Buffer),
    0 <= i ->
    i + Z.of_nat (length arr) <= count ->
    Forall (fun s => fits_prim p s = true) arr ->
    0 <= offset ->
    offset + count * getTypeSize p <= Z.of_nat (length buf) ->
    exists buf',
      writeElems buf offset (getTypeSize p) p count i arr = Returns buf'
      /\ forall j s, nth_error arr j = Some s ->
                     readAs p buf' (offset + (i + Z.of_nat j) * getTypeSize p) = Returns s.
Proof.
  pose proof (getTypeSize_pos p) as Hp.
  induction arr as [|x rest IH]; intros i buf Hi Hlen Hfit Ho Hb; cbn [writeElems].
  - exists buf. split; [reflexivity|]. intros [|j] s Hj; discriminate.
  - cbn [length] in Hlen. inversion Hfit as [|? ? Hx Hrest]; subst.
    destruct (i <? count) eqn:E; [|apply Z.ltb_ge in E; lia].
    destruct (writePrimitive_readAs buf (offset + i * getTypeSize p) p x Hx)
      as (buf1 & W & R); [nia|nia|].
    rewrite W. cbn [bind].
    pose proof (writePrimitive_footprint _ _ _ _ _ W) as [L1 _].
    destruct (IH (i + 1) buf1) as (buf' & W' & R'); [lia|lia|assumption|assumption|lia|].
    exists buf'. split; [assumption|].
    intros [|j] s Hj; cbn [nth_error] in Hj.
    + injection Hj as <-. rewrite Z.add_0_r. rewrite <- R. symmetry.
      apply readAs_agree.
      apply writeElems_footprint in W'; [|lia].
      eapply agree_outside_on; [|exact W']. left. nia.
    + rewrite <- (R' j s Hj). f_equal. lia.
Qed.

Lemma forEach_reads_back (r : list (string * Value)) (offset size : Z)
      (fs : list FieldLayout) :
  Forall (fun f => sound (fl_type f) ->
                   forall v buf o,
                     fits (fl_type f) v ->
                     0 <= o ->
                     o + ti_size (getTypeInfo (fl_type f)) <= Z.of_nat (length buf) ->
                     exists buf',
                       writeField buf o (fl_type f) v = Returns buf'
                       /\ reads_back buf' o (fl_type f) v) fs ->
  forall lo buf,
    0 <= lo ->
    0 <= offset ->
    offset + size <= Z.of_nat (length buf) ->
    in_sequence field_sound lo size fs ->
    all_fields (fun f => fits (fl_type f) (getProp r (fl_name f))) fs ->
    exists buf',
      forEach (writeNested r offset) fs buf = Returns buf'
      /\ all_fields (fun f => reads_back buf' (offset + fl_offset f) (fl_type f)
                                         (getProp r (fl_name f))) fs.
Proof.
  induction 1 as [|f rest Hf HF IH]; intros lo buf Hlo0 Ho Hb Hseq Hfit;
    cbn [forEach all_fields] in *.
  - exists buf. split; [reflexivity|exact I].
  - cbn in Hseq. destruct Hseq as (Hlo & (Hs & Ha & Hsound) & Hrest).
    destruct Hfit as [Hfit Hfits].
    pose proof (in_sequence_bound _ _ _ Hrest) as Hend.
    pose proof (sound_size_nonneg _ Hsound) as Hnn.
    unfold writeNested at 1. cbv zeta. rewrite (fits_defined _ _ Hfit).
    destruct (Hf Hsound (getProp r (fl_name f)) buf (offset + fl_offset f) Hfit)
      as (buf1 & W & R); [lia|lia|].
    rewrite W.
    pose proof (writeField_footprint _ Hsound _ _ _ _ W) as Hfp.
    destruct (IH (fl_offset f + fl_size f) buf1) as (buf' & W' & R');
      [lia|assumption|destruct Hfp as [<- _]; assumption|assumption|assumption|].
    exists buf'. split; [assumption|]. split; [|assumption].
    apply (reads_back_agree _ Hsound _ _ buf1 buf' Hfit); [|assumption].
    eapply agree_outside_on; [|eapply forEach_footprint; [|exact Hrest|exact W']].
    + left. lia.
    + apply Forall_forall. intros g _ Hg. now apply writeField_footprint.
Qed.

(** [writeField] of a fitting value into a sound field succeeds, and
    decoding the field afterwards returns the value. *)
Lemma writeField_reads_back (type : FieldType) :
  sound type ->
  forall (value : Value) (buf : Buffer) (offset : Z),
    fits type value ->
    0 <= offset ->
    offset + ti_size (getTypeInfo type) <= Z.of_nat (length buf) ->
    exists buf',
      writeField buf offset type value = Returns buf'
      /\ reads_back buf' offset type value.
Proof.
  induction type as [p|l IH|p count] using FieldType_nested_ind;
    intros Hsound value buf offset Hfit Ho Hb.
  - destruct value as [s|r|arr|]; cbn [fits] in Hfit; try contradiction.
    cbn [getTypeInfo] in Hb. rewrite <- getTypeSize_TYPE_INFO in Hb.
    cbn [writeField reads_back]. now apply writePrimitive_readAs.
  - destruct value as [s|r|arr|]; cbn [fits] in Hfit; try contradiction.
    apply sound_struct in Hsound. destruct Hsound as [_ Hseq].
    cbn [getTypeInfo ti_size] in Hb. rewrite writeField_struct. cbn [reads_back].
    apply (forEach_reads_back r offset (sl_size l) (sl_fields l) IH 0);
      try assumption. lia.
  - destruct value as [s|r|arr|]; cbn [fits] in Hfit; try contradiction.
    destruct Hfit as [Hlen Hfit]. cbn in Hsound.
    cbn [getTypeInfo ti_size] in Hb. rewrite <- getTypeSize_TYPE_INFO in Hb.
    destruct (writeElems_reads_back p offset count arr 0 buf) as (buf' & W & R);
      [lia|lia|assumption|assumption|lia|].
    exists buf'. cbn [writeField reads_back]. split; [assumption|].
    intros i s Hi. now rewrite <- (R i s Hi).
Qed.

End FieldFacts.

(** ** Encoder: claims *)

Section EncoderClaims.
Import Layout DataView Encoder.

Lemma sound_alignment_pos (type : FieldType) :
  sound type -> 0 < ti_alignment (getTypeInfo type).
Proof.
  destruct type as [p|l|p count]; intros H.
  - destruct p; cbn; lia.
  - apply sound_struct in H. now destruct H.
  - destruct p; cbn; lia.
Qed.

Lemma walk_in_sequence (fields : list FieldDef) :
  Forall (fun f => sound (fd_type f)) fields ->
  forall offset m size,
    snd (fst (walk offset m fields)) <= size ->
    in_sequence field_sound offset size (fst (fst (walk offset m fields))).
Proof.
  induction 1 as [|f rest Hf _ IH]; intros offset m size Hsize; cbn [walk] in *.
  - exact Hsize.
  - cbv zeta in *.
    specialize (IH (align offset (ti_alignment (getTypeInfo (fd_type f)))
                      + ti_size (getTypeInfo (fd_type f)))
                   (Z.max m (ti_alignment (getTypeInfo (fd_type f)))) size).
    destruct (walk _ _ rest) as [[ls final] m']. cbn in *.
    repeat split; auto.
    apply align_ge. now apply sound_alignment_pos.
Qed.

(** A layout that [defineStruct] computes from sound field types is
    sound. *)
Lemma defineStruct_sound (name : string) (fields : list FieldDef) :
  Forall (fun f => sound (fd_type f)) fields ->
  sound (TStruct (defineStruct name fields)).
Proof.
  intros H. apply sound_struct. split; [apply defineStruct_alignment_pos|].
  rewrite defineStruct_computeLayout. unfold computeLayout.
  pose proof (walk_in_sequence fields H 0 1) as Hseq.
  pose proof (defineStruct_alignment_pos name fields) as Hpos.
  rewrite defineStruct_computeLayout in Hpos. unfold computeLayout in Hpos.
  destruct (walk 0 1 fields) as [[ls final] m]. cbn in *.
  apply Hseq. now apply align_ge.
Qed.

Lemma encode_reads_back (ptr : list byte -> Z) (this : StructEncoder)
      (layout : StructLayout) (values : list (string * Value)) :
  sound (TStruct layout) ->
  exact_range layout ->
  fits (TStruct layout) (VRec values) ->
  exists r,
    encode ptr this layout values = Returns r
    /\ Z.of_nat (length (es_buffer (fst r))) = sl_size layout
    /\ reads_back (es_buffer (fst r)) 0 (TStruct layout) (VRec values).
Proof.
  intros Hsound Hrange Hfit.
  pose proof (sound_size_nonneg _ Hsound) as Hnn. cbn [getTypeInfo ti_size] in Hnn.
  unfold encode. rewrite ArrayBuffer_new_returns by (unfold exact_range in Hrange; lia).
  cbn [bind]. rewrite encodeFields_writeField.
  set (zeros := repeat Byte.x00 (Z.to_nat (sl_size layout))).
  assert (Hz : Z.of_nat (length zeros) = sl_size layout)
    by (unfold zeros; rewrite repeat_length; lia).
  destruct (writeField_reads_back _ Hsound (VRec values) zeros 0 Hfit)
    as (buf' & W & R); [lia|cbn [getTypeInfo ti_size]; lia|].
  rewrite W. cbn [bind]. eexists. split; [reflexivity|]. cbn [fst es_buffer].
  split; [|assumption].
  apply writeField_footprint in W; [|assumption]. destruct W as [<- _]. assumption.
Qed.







(** C9. For empty input the pointer-producing helpers return the null
    pointer and record no allocation: [encodeString] of the empty string
    returns data 0 and length 0, [ptrArray] and [u32Array] of the empty
    array return 0, and the encoder is left as it was. For a non-empty
    input they return the address of the bytes and record them. *)
Theorem empty_input_gives_null_pointer (ptr : list byte -> Z) (this : StructEncoder) :
  encodeString ptr this "" = (mkStringView 0 0, this)
  /\ ptrArray ptr this [] = (0, this)
  /\ u32Array ptr this [] = (0, this)
  /\ (forall c str,
         let encoded := TextEncoder_encode (String c str) in
         encodeString ptr this (String c str) =
         (mkStringView (ptr encoded) (Z.of_nat (length encoded)),
          mkStructEncoder (allocations this ++ [encoded])))
  /\ (forall p rest,
         let u8 := flat_map (le_split 8) (p :: rest) in
         ptrArray ptr this (p :: rest) =
         (ptr u8, mkStructEncoder (allocations this ++ [u8])))
  /\ (forall v rest,
         let u8 := flat_map (le_split 4) (v :: rest) in
         u32Array ptr this (v :: rest) =
         (ptr u8, mkStructEncoder (allocations this ++ [u8]))).
Proof.
  split; [reflexivity|]. split; [reflexivity|]. split; [reflexivity|].
  split; [|split]; intros; reflexivity.
Qed.

End EncoderClaims.

(** ** Callback registry *)

Section RegistryFacts.
Import Registry Bridge.

Lemma Map_get_delete_same (m : list (Z * PendingCallback)) (k : Z) :
  Map_get (Map_delete m k) k = None.
Proof.
  unfold Map_get, Map_delete.
  induction m as [|[k' v] m IH]; cbn; [reflexivity|].
  destruct (k' =? k) eqn:E; cbn; [exact IH|]. now rewrite E.
Qed.

Lemma Map_get_In (m : list (Z * PendingCallback)) (k : Z) (p : PendingCallback) :
  Map_get m k = Some p -> In (k, p) m.
Proof.
  unfold Map_get. destruct (find _ m) as [[k' v]|] eqn:E; [|discriminate].
  intros [= <-]. apply find_some in E. destruct E as [Hin Hk].
  cbn in Hk. apply Z.eqb_eq in Hk. now subst.
Qed.

Lemma Map_get_None (m : list (Z * PendingCallback)) (k : Z) :
  Map_get m k = None <-> ~ In k (map fst m).
Proof.
  unfold Map_get. split.
  - destruct (find _ m) as [kv|] eqn:E; [discriminate|]. intros _ Hin.
    apply in_map_iff in Hin. destruct Hin as ([k' v] & Hk & Hin). cbn in Hk. subst.
    apply (find_none _ _ E) in Hin. cbn in Hin. apply Z.eqb_neq in Hin. congruence.
  - intros Hn. destruct (find _ m) as [[k' v]|] eqn:E; [|reflexivity].
    apply find_some in E. destruct E as [Hin Hk]. cbn in Hk. apply Z.eqb_eq in Hk.
    subst. exfalso. apply Hn. apply in_map_iff. now exists (k, v).
Qed.

(** Every pointer trampoline, in one equation. *)
Lemma trampoline_eq (kind : Kind) (mem : Z -> byte) (st : State)
      (status payload messageData messageLength token : Z) :
  trampoline kind mem st status payload messageData messageLength token =
  match Map_get (pending st) token with
  | None => st
  | Some p =>
      match outcome_of kind status payload messageData messageLength with
      | Some s =>
          mkState (Map_delete (pending st) token) (nextId st)
                  (settle (promises st) (pc_promise p) s)
                  (calls st ++
                     [match s with
                      | Rejected e => CallReject (pc_promise p) e
                      | Fulfilled v => CallResolve (pc_promise p) v
                      | Pending => CallResolve (pc_promise p) payload
                      end])
                  (timers st ++ [pc_jsCallback p]) (closed st)
      | None =>
          mkState (Map_delete (pending st) token) (nextId st)
                  (promises st) (calls st) (timers st) (closed st)
      end
  end.
Proof.
  destruct kind; cbn [trampoline];
    unfold adapterCallback, deviceCallback, computePipelineCallback,
           renderPipelineCallback, adapterCallback_invoke, deviceCallback_invoke,
           computePipelineCallback_invoke, renderPipelineCallback_invoke,
           outcome_of, readString_bigint,
           WGPURequestAdapterStatus_Success, WGPURequestDeviceStatus_Success,
           WGPUCreatePipelineAsyncStatus_Success;
    cbv zeta; destruct (Map_get (pending st) token) as [p|]; try reflexivity;
    destruct (status =? 1); try reflexivity;
    destruct (0 <? messageLength); try reflexivity;
    destruct (messageData =? 0); reflexivity.
Qed.

(** What an invocation throws: a TypeError when it reads a message for
    a pending token, nothing otherwise. *)
Lemma trampoline_invoke_eq (kind : Kind) (mem : Z -> byte) (st : State)
      (status payload messageData messageLength token : Z) :
  trampoline_invoke kind mem st status payload messageData messageLength token =
  (trampoline kind mem st status payload messageData messageLength token,
   match Map_get (pending st) token with
   | None => None
   | Some _ => if reads_message status messageData messageLength
               then Some TypeError else None
   end).
Proof.
  destruct kind; cbn [trampoline trampoline_invoke];
    unfold adapterCallback, deviceCallback, computePipelineCallback,
           renderPipelineCallback, adapterCallback_invoke, deviceCallback_invoke,
           computePipelineCallback_invoke, renderPipelineCallback_invoke,
           reads_message, readString_bigint,
           WGPURequestAdapterStatus_Success, WGPURequestDeviceStatus_Success,
           WGPUCreatePipelineAsyncStatus_Success;
    cbv zeta; destruct (Map_get (pending st) token) as [p|]; try reflexivity;
    destruct (status =? 1); try reflexivity;
    destruct (0 <? messageLength); try reflexivity;
    destruct (messageData =? 0); reflexivity.
Qed.

Lemma outcome_of_settled (kind : Kind) (status payload messageData messageLength : Z)
      (s : PromiseState) :
  outcome_of kind status payload messageData messageLength = Some s -> s <> Pending.
Proof.
  unfold outcome_of. destruct (status =? 1); [intros [= <-]; discriminate|].
  destruct (0 <? messageLength); [destruct (messageData =? 0)|];
    intros [= <-]; discriminate.
Qed.

Lemma outcome_of_reads (kind : Kind) (status payload messageData messageLength : Z) :
  outcome_of kind status payload messageData messageLength = None <->
  reads_message status messageData messageLength = true.
Proof.
  unfold outcome_of, reads_message.
  destruct (status =? 1); [cbn; split; discriminate|].
  destruct (0 <? messageLength); [|cbn; split; discriminate].
  destruct (messageData =? 0); cbn; split; (reflexivity || discriminate).
Qed.

(** A trampoline leaves a registry without the token as it is. *)
Lemma trampoline_absent (kind : Kind) (mem : Z -> byte) (st : State)
      (status payload messageData messageLength token : Z) :
  Map_get (pending st) token = None ->
  trampoline kind mem st status payload messageData messageLength token = st.
Proof. intros H. rewrite trampoline_eq. now rewrite H. Qed.

Lemma trampoline_pending (kind : Kind) (mem : Z -> byte) (st : State)
      (status payload messageData messageLength token : Z) :
  pending (trampoline kind mem st status payload messageData messageLength token)
  = Map_delete (pending st) token.
Proof.
  rewrite trampoline_eq.
  destruct (Map_get (pending st) token) as [p|] eqn:E.
  - destruct (outcome_of kind status payload messageData messageLength); reflexivity.
  - apply Map_get_None in E. unfold Map_delete. symmetry.
    apply forallb_filter_id. apply forallb_forall. intros [k v] Hin. cbn.
    apply negb_true_iff. apply Z.eqb_neq. intros ->. apply E.
    apply in_map_iff. now exists (token, v).
Qed.

(** After a trampoline ran for a token, the token is not pending. *)
Lemma trampoline_removes (kind : Kind) (mem : Z -> byte) (st : State)
      (status payload messageData messageLength token : Z) :
  Map_get (pending (trampoline kind mem st status payload messageData messageLength
                               token)) token = None.
Proof. rewrite trampoline_pending. apply Map_get_delete_same. Qed.


Lemma adapterCallback_absent (mem : Z -> byte) (st : State)
      (status adapter messageData messageLength userdata1 : Z) :
  Map_get (pending st) userdata1 = None ->
  adapterCallback mem st status adapter messageData messageLength userdata1 = st.
Proof. exact (trampoline_absent Adapter mem st _ _ _ _ _). Qed.

Lemma adapterCallback_removes (mem : Z -> byte) (st : State)
      (status adapter messageData messageLength userdata1 : Z) :
  Map_get (pending (adapterCallback mem st status adapter messageData messageLength
                                    userdata1)) userdata1 = None.
Proof. exact (trampoline_removes Adapter mem st _ _ _ _ _). Qed.

Lemma NoDup_snoc {A : Type} (l : list A) (x : A) :
  NoDup l -> ~ In x l -> NoDup (l ++ [x]).
Proof.
  intros Hl Hx. apply NoDup_app; [assumption|repeat constructor; intros []|].
  intros a Ha [<-|[]]. contradiction.
Qed.

(** *** The registry invariant *)

Lemma Inv_new : Inv new_registry.
Proof. constructor; cbn; try constructor; intros; contradiction. Qed.

Lemma Map_has_false (m : list (Z * PendingCallback)) (k : Z) :
  ~ In k (map fst m) -> Map_has m k = false.
Proof.
  intros H. unfold Map_has. destruct (existsb _ m) eqn:E; [|reflexivity].
  apply existsb_exists in E. destruct E as ([k' v] & Hin & Hk). cbn in Hk.
  apply Z.eqb_eq in Hk. subst. exfalso. apply H. apply in_map_iff. now exists (k, v).
Qed.

Lemma register_pending (st : State) :
  Inv st ->
  pending (register st) = pending st ++ [(nextId st, mkPendingCallback (nextId st) (nextId st))].
Proof.
  intros I. unfold register. cbn [pending]. unfold Map_set.
  rewrite Map_has_false; [reflexivity|].
  intros Hin. apply in_map_iff in Hin. destruct Hin as ([k v] & Hk & Hin).
  cbn in Hk. subst. apply (inv_entries st I) in Hin. lia.
Qed.

Lemma promise_state_app_new (ps : list (Z * PromiseState)) (id k : Z) :
  ~ In id (map fst ps) ->
  promise_state (ps ++ [(id, Pending)]) k =
  if k =? id then Some Pending else promise_state ps k.
Proof.
  intros Hn. unfold promise_state. induction ps as [|[q s] ps IH]; cbn.
  - rewrite (Z.eqb_sym id k). now destruct (k =? id).
  - cbn in Hn. destruct (q =? k) eqn:E.
    + apply Z.eqb_eq in E. subst q. cbn.
      destruct (k =? id) eqn:E'; [apply Z.eqb_eq in E'; subst; tauto|reflexivity].
    + apply IH. tauto.
Qed.

Lemma settle_state (ps : list (Z * PromiseState)) (p q : Z) (s : PromiseState) :
  promise_state (settle ps p s) q =
  match promise_state ps q with
  | Some Pending => if q =? p then Some s else Some Pending
  | other => other
  end.
Proof.
  unfold promise_state, settle. induction ps as [|[k v] ps IH]; cbn; [reflexivity|].
  destruct (k =? p) eqn:Ep; cbn.
  - apply Z.eqb_eq in Ep. subst k.
    destruct v; cbn; destruct (p =? q) eqn:Eq; cbn; try exact IH; try reflexivity.
    rewrite (Z.eqb_sym q p), Eq. reflexivity.
  - destruct (k =? q) eqn:Eq; cbn; [|exact IH].
    apply Z.eqb_eq in Eq. subst k. rewrite Ep. now destruct v.
Qed.

Lemma settle_keys (ps : list (Z * PromiseState)) (p : Z) (s : PromiseState) :
  map fst (settle ps p s) = map fst ps.
Proof.
  unfold settle. induction ps as [|[k v] ps IH]; cbn; [reflexivity|].
  rewrite IH. destruct (k =? p); [destruct v|]; reflexivity.
Qed.

Lemma Inv_register (st : State) : Inv st -> Inv (register st).
Proof.
  intros I. pose proof (register_pending st I) as Hp.
  assert (Hfresh : ~ In (nextId st) (map fst (promises st))).
  { intros Hin. apply (inv_promises st I) in Hin. lia. }
  constructor; rewrite ?Hp; cbn [register nextId calls promises].
  - rewrite map_app. cbn. apply NoDup_snoc; [exact (inv_keys st I)|].
    intros Hin. apply in_map_iff in Hin. destruct Hin as ([k v] & Hk & Hin).
    cbn in Hk. subst. apply (inv_entries st I) in Hin. lia.
  - intros k p Hin. rewrite promise_state_app_new by assumption.
    apply in_app_or in Hin. destruct Hin as [Hin|[[= <- <-]|[]]].
    + apply (inv_entries st I) in Hin. destruct Hin as (H1 & H2 & H3).
      destruct (k =? nextId st) eqn:E; [apply Z.eqb_eq in E; lia|]. repeat split; auto; lia.
    + cbn. rewrite Z.eqb_refl. repeat split; auto; lia.
  - intros k Hin. rewrite map_app in Hin. apply in_app_or in Hin. cbn in Hin.
    destruct Hin as [Hin|[<-|[]]]; [apply (inv_promises st I) in Hin|]; lia.
  - intros k Hin Hc. rewrite map_app in Hin. apply in_app_or in Hin. cbn in Hin.
    destruct Hin as [Hin|[<-|[]]].
    + exact (inv_fresh st I k Hin Hc).
    + apply in_map_iff in Hc. destruct Hc as (c & Hc & Hin).
      apply (inv_bound st I) in Hin. lia.
  - exact (inv_calls st I).
  - intros c Hin. apply (inv_bound st I) in Hin. lia.
Qed.

Lemma In_Map_delete (m : list (Z * PendingCallback)) (k k' : Z) (p : PendingCallback) :
  In (k', p) (Map_delete m k) <-> In (k', p) m /\ k' <> k.
Proof.
  unfold Map_delete. rewrite filter_In. cbn. rewrite negb_true_iff, Z.eqb_neq. tauto.
Qed.

Lemma NoDup_keys_filter (f : Z * PendingCallback -> bool) (m : list (Z * PendingCallback)) :
  NoDup (map fst m) -> NoDup (map fst (filter f m)).
Proof.
  induction m as [|kv m IH]; cbn; intros H; [constructor|].
  inversion H as [|? ? Hn Hm]; subst. destruct (f kv); cbn; [|auto].
  constructor; [|auto]. intros Hin. apply Hn.
  apply in_map_iff in Hin. destruct Hin as (x & Hx & Hin). apply filter_In in Hin.
  apply in_map_iff. exists x. tauto.
Qed.

Lemma adapterCallback_promises (mem : Z -> byte) (st : State)
      (status adapter messageData messageLength userdata1 : Z) :
  promises (adapterCallback mem st status adapter messageData messageLength userdata1) =
  match Map_get (pending st) userdata1 with
  | None => promises st
  | Some p =>
      match outcome_of Adapter status adapter messageData messageLength with
      | Some s => settle (promises st) (pc_promise p) s
      | None => promises st
      end
  end.
Proof.
  change (adapterCallback mem st status adapter messageData messageLength userdata1)
    with (trampoline Adapter mem st status adapter messageData messageLength userdata1).
  rewrite trampoline_eq.
  destruct (Map_get (pending st) userdata1) as [p|]; [|reflexivity].
  destruct (outcome_of Adapter status adapter messageData messageLength); reflexivity.
Qed.

Lemma Inv_trampoline (kind : Kind) (mem : Z -> byte) (st : State)
      (status payload messageData messageLength token : Z) :
  Inv st ->
  Inv (trampoline kind mem st status payload messageData messageLength token).
Proof.
  intros I. rewrite trampoline_eq.
  destruct (Map_get (pending st) token) as [p|] eqn:E; [|assumption].
  pose proof (Map_get_In _ _ _ E) as Hin.
  destruct (inv_entries st I _ _ Hin) as (Hlt & Hp & Hpend).
  destruct (outcome_of kind status payload messageData messageLength) as [s|] eqn:O.
  - assert (Hc : call_promise
                   match s with
                   | Rejected e => CallReject (pc_promise p) e
                   | Fulfilled v => CallResolve (pc_promise p) v
                   | Pending => CallResolve (pc_promise p) payload
                   end = token) by (destruct s; cbn; assumption).
    constructor; cbn [pending nextId promises calls].
    + apply NoDup_keys_filter. exact (inv_keys st I).
    + intros k q Hq. apply In_Map_delete in Hq. destruct Hq as [Hq Hne].
      destruct (inv_entries st I _ _ Hq) as (H1 & H2 & H3).
      repeat split; auto. rewrite settle_state, H3, Hp.
      destruct (k =? token) eqn:Ek; [apply Z.eqb_eq in Ek; contradiction|reflexivity].
    + intros k Hk. rewrite settle_keys in Hk. exact (inv_promises st I k Hk).
    + intros k Hk Hcall. apply in_map_iff in Hk. destruct Hk as ([k' q] & Hk' & Hq).
      cbn in Hk'. subst k'. apply In_Map_delete in Hq. destruct Hq as [Hq Hne].
      rewrite map_app in Hcall. apply in_app_or in Hcall. destruct Hcall as [Hcall|Hcall].
      * apply (inv_fresh st I k); [|assumption]. apply in_map_iff. now exists (k, q).
      * cbn [map In] in Hcall. destruct Hcall as [Hcall|[]]. congruence.
    + rewrite map_app. apply NoDup_snoc; [exact (inv_calls st I)|].
      cbn [map]. rewrite Hc.
      apply (inv_fresh st I). apply in_map_iff. now exists (token, p).
    + intros c Hcall. apply in_app_or in Hcall. destruct Hcall as [Hcall|[<-|[]]].
      * exact (inv_bound st I c Hcall).
      * rewrite Hc. exact Hlt.
  - constructor; cbn [pending nextId promises calls].
    + apply NoDup_keys_filter. exact (inv_keys st I).
    + intros k q Hq. apply In_Map_delete in Hq. destruct Hq as [Hq Hne].
      exact (inv_entries st I _ _ Hq).
    + exact (inv_promises st I).
    + intros k Hk Hcall. apply in_map_iff in Hk. destruct Hk as ([k' q] & Hk' & Hq).
      cbn in Hk'. subst k'. apply In_Map_delete in Hq. destruct Hq as [Hq Hne].
      apply (inv_fresh st I k); [|assumption]. apply in_map_iff. now exists (k, q).
    + exact (inv_calls st I).
    + exact (inv_bound st I).
Qed.

Lemma Inv_adapterCallback (mem : Z -> byte) (st : State)
      (status adapter messageData messageLength userdata1 : Z) :
  Inv st ->
  Inv (adapterCallback mem st status adapter messageData messageLength userdata1).
Proof. exact (Inv_trampoline Adapter mem st _ _ _ _ _). Qed.

(** *** [cleanup] *)

Lemma cleanup_loop (l : list (Z * PendingCallback)) :
  forall st,
    let st' := fold_left cleanup_step l st in
    pending st' = pending st
    /\ nextId st' = nextId st
    /\ calls st' = calls st ++ map (fun e => CallReject (pc_promise (snd e)) shutdown) l
    /\ promises st' =
       fold_left (fun ps e => settle ps (pc_promise (snd e)) (Rejected shutdown)) l
                 (promises st).
Proof.
  induction l as [|e l IH]; intros st; cbn [fold_left map].
  - cbn. now rewrite app_nil_r.
  - destruct (IH (cleanup_step st e)) as (H1 & H2 & H3 & H4). cbv zeta.
    rewrite H1, H2, H3, H4. cbn [cleanup_step reject pending nextId calls promises].
    rewrite <- app_assoc. auto.
Qed.

Lemma settle_all_state (l : list (Z * PendingCallback)) :
  forall ps k,
    promise_state
      (fold_left (fun ps e => settle ps (pc_promise (snd e)) (Rejected shutdown)) l ps) k =
    match promise_state ps k with
    | Some Pending =>
        if existsb (fun e => pc_promise (snd e) =? k) l
        then Some (Rejected shutdown) else Some Pending
    | other => other
    end.
Proof.
  induction l as [|e l IH]; intros ps k; cbn [fold_left existsb].
  - now destruct (promise_state ps k) as [[]|].
  - rewrite IH, settle_state. rewrite (Z.eqb_sym (pc_promise (snd e)) k).
    destruct (promise_state ps k) as [[]|]; try reflexivity.
    destruct (k =? pc_promise (snd e)); cbn; reflexivity.
Qed.

Lemma Inv_cleanup (st : State) : Inv st -> Inv (cleanup st).
Proof.
  intros I. unfold cleanup.
  destruct (cleanup_loop (pending st) st) as (H1 & H2 & H3 & H4). cbv zeta in *.
  assert (Hids : map call_promise
                     (map (fun e => CallReject (pc_promise (snd e)) shutdown) (pending st))
                 = map fst (pending st)).
  { rewrite map_map. apply map_ext_in. intros [k p] Hin. cbn.
    now destruct (inv_entries st I k p Hin) as (_ & -> & _). }
  constructor; cbn [pending nextId calls promises]; rewrite ?H2, ?H3, ?H4.
  - constructor.
  - intros k p [].
  - intros k Hk.
    assert (Hkeys : forall (l : list (Z * PendingCallback)) ps,
               map fst (fold_left (fun ps e => settle ps (pc_promise (snd e))
                                                      (Rejected shutdown)) l ps)
               = map fst ps).
    { induction l as [|e l IH]; intros ps; cbn; [reflexivity|].
      now rewrite IH, settle_keys. }
    rewrite Hkeys in Hk. exact (inv_promises st I k Hk).
  - intros k [].
  - rewrite map_app, Hids. apply NoDup_app.
    + exact (inv_calls st I).
    + exact (inv_keys st I).
    + intros a Ha Hk. exact (inv_fresh st I a Hk Ha).
  - intros c Hc. apply in_app_or in Hc. destruct Hc as [Hc|Hc].
    + exact (inv_bound st I c Hc).
    + apply in_map_iff in Hc. destruct Hc as ([k p] & <- & Hin). cbn.
      destruct (inv_entries st I k p Hin) as (Hlt & -> & _). exact Hlt.
Qed.

Lemma Inv_run (ops : list Op) : forall st, Inv st -> Inv (run ops st).
Proof.
  unfold run. induction ops as [|op ops IH]; intros st I; cbn [fold_left];
    [assumption|].
  apply IH. destruct op; cbn [run_op].
  - now apply Inv_register.
  - now apply Inv_adapterCallback.
  - now apply Inv_cleanup.
Qed.

Lemma NoDup_count_le_1 (l : list Call) (p : Z) :
  NoDup (map call_promise l) ->
  (length (filter (fun c => (call_promise c =? p)%Z) l) <= 1)%nat.
Proof.
  induction l as [|c l IH]; cbn; intros H; [lia|].
  inversion H as [|? ? Hn Hl]; subst. specialize (IH Hl).
  destruct (call_promise c =? p) eqn:E; [|assumption].
  apply Z.eqb_eq in E. cbn.
  assert (Hz : filter (fun c0 => call_promise c0 =? p) l = []).
  { destruct (filter _ l) as [|d r] eqn:F; [reflexivity|].
    assert (Hd : In d (filter (fun c0 => call_promise c0 =? p) l))
      by (rewrite F; now left).
    apply filter_In in Hd. destruct Hd as [Hd Hp]. apply Z.eqb_eq in Hp.
    exfalso. apply Hn. apply in_map_iff. exists d. split; [congruence|assumption]. }
  rewrite Hz. cbn. lia.
Qed.

End RegistryFacts.

(** ** Callback registry: claims *)

Section RegistryClaims.
Import Layout DataView Encoder Registry Bridge.

(** The field loop of [encode] returns when every field is an integer,
    pointer or boolean field inside the buffer whose value converts. *)
Lemma encodeFields_returns (values : list (string * Value)) (fields : list FieldLayout) :
  forall buf : Buffer,
    Forall (fun f =>
              exists p s z,
                fl_type f = TPrim p /\ getProp values (fl_name f) = VPrim s
                /\ is_float p = false /\ stored_integer p s = Some z
                /\ 0 <= fl_offset f
                /\ fl_offset f + getTypeSize p <= Z.of_nat (length buf)) fields ->
    exists buf', encodeFields fields values buf = Returns buf'.
Proof.
  unfold encodeFields.
  induction fields as [|f rest IH]; intros buf H; cbn [forEach]; [eauto|].
  inversion H as [|? ? (p & s & z & Ht & Hv & Hf & Hz & Ho & Hb) Hrest]; subst.
  rewrite Hv, Ht. cbn [writeField].
  destruct (writePrimitive_load buf (fl_offset f) p s z Hf Ho Hb Hz) as (buf' & W & _).
  assert (Hlen : length buf' = length buf).
  { apply writePrimitive_footprint in W. destruct W as [W _]. now symmetry. }
  destruct (is_undefined (VPrim s)); [apply IH; assumption|].
  rewrite W. apply IH. rewrite Hlen. assumption.
Qed.

(** The descriptor encoding of [createAdapterCallback] always succeeds;
    on the registry the method acts as [register]. *)
Lemma createAdapterCallback_registers (ptr : list byte -> Z) (JSCallback_ptr : Z -> Z)
      (st : State) (enc : StructEncoder) :
  exists c,
    createAdapterCallback ptr JSCallback_ptr st enc = Returns c
    /\ registry c = register st
    /\ promise c = nextId st.
Proof.
  unfold createAdapterCallback. cbv zeta.
  set (values := [("nextInChain"%string, _); _; _; _; _]).
  assert (H : exists r, encode ptr enc WGPURequestAdapterCallbackInfo values = Returns r).
  { unfold encode.
    change (ArrayBuffer_new (sl_size WGPURequestAdapterCallbackInfo))
      with (@Returns Buffer (repeat Byte.x00 40)).
    cbn [bind].
    destruct (encodeFields_returns values (sl_fields WGPURequestAdapterCallbackInfo)
                                   (repeat Byte.x00 40)) as [u8 ->]; [|cbn [bind]; eauto].
    change (sl_fields WGPURequestAdapterCallbackInfo)
      with [ mkFieldLayout "nextInChain" (TPrim Pptr) 0 8 8;
             mkFieldLayout "mode" (TPrim Pu32) 8 4 4;
             mkFieldLayout "callback" (TPrim Pptr) 16 8 8;
             mkFieldLayout "userdata1" (TPrim Pptr) 24 8 8;
             mkFieldLayout "userdata2" (TPrim Pptr) 32 8 8 ].
    repeat (constructor; [do 3 eexists; cbn [fl_type fl_name fl_offset];
                          repeat split; try reflexivity; cbn; lia|]).
    constructor. }
  destruct H as [r ->]. cbn [bind]. eexists. split; [reflexivity|]. split; reflexivity.
Qed.



(** C4. Scenario 4 on the code: one operation is registered and its
    trampoline is fired with status 4 (Error) and the message of length
    4 at address 4096, where the bytes "boom" lie. The length reaches
    the trampoline as a bigint, [memory.readString] hands it to
    [toArrayBuffer], and the TypeError thrown there leaves the
    trampoline after the token was removed from the pending map. The
    promise is not rejected, with "boom" or with any other message: it
    stays pending, no rejecter is invoked and no [close] is scheduled. *)
Lemma scenario4_promise_is_never_rejected :
  let fired := adapterCallback_invoke (memory_with 4096 "boom") (register new_registry)
                                      4 0 4096 4 1 in
  snd fired = Some TypeError
  /\ promise_state (promises (fst fired)) 1 = Some Pending
  /\ (forall message, promise_state (promises (fst fired)) 1
                      <> Some (Rejected (Error message)))
  /\ pending (fst fired) = []
  /\ calls (fst fired) = []
  /\ timers (fst fired) = [].
Proof. repeat split; try reflexivity. intros message. discriminate. Qed.

(** C6. The trampoline invoked with a token that is not in the pending
    map changes nothing. Invoked with a pending token it removes the
    token and invokes the entry's resolver or rejecter at most once:
    once when the status is Success, when the message length is 0 or
    less, or when the message pointer is null. A second invocation with
    the same token changes nothing. In every registry reached from a new
    one by registrations, trampoline invocations and cleanups, the
    resolver/rejecter pair of each token has been invoked at most
    once. *)
Theorem trampoline_settles_a_token_at_most_once :
  (forall mem st status adapter messageData messageLength token,
      Map_get (pending st) token = None ->
      adapterCallback mem st status adapter messageData messageLength token = st)
  /\ (forall mem st status adapter messageData messageLength token p,
         Map_get (pending st) token = Some p ->
         let st' := adapterCallback mem st status adapter messageData messageLength token in
         Map_get (pending st') token = None
         /\ (calls st' = calls st
             \/ exists c, calls st' = calls st ++ [c] /\ call_promise c = pc_promise p)
         /\ (status = WGPURequestAdapterStatus_Success
             \/ messageLength <= 0 \/ messageData = 0 ->
             exists c, calls st' = calls st ++ [c] /\ call_promise c = pc_promise p))
  /\ (forall mem mem' st status adapter messageData messageLength
             status' adapter' messageData' messageLength' token,
         let st' := adapterCallback mem st status adapter messageData messageLength token in
         adapterCallback mem' st' status' adapter' messageData' messageLength' token = st')
  /\ (forall ops token, (invocations (run ops new_registry) token <= 1)%nat).
Proof.
  split; [|split; [|split]].
  - intros. now apply adapterCallback_absent.
  - intros mem st status adapter messageData messageLength token p Hget st'.
    split; [apply adapterCallback_removes|].
    assert (E : calls st' =
                match outcome_of Adapter status adapter messageData messageLength with
                | Some s =>
                    calls st ++
                      [match s with
                       | Rejected e => CallReject (pc_promise p) e
                       | Fulfilled v => CallResolve (pc_promise p) v
                       | Pending => CallResolve (pc_promise p) adapter
                       end]
                | None => calls st
                end).
    { subst st'.
      change (adapterCallback mem st status adapter messageData messageLength token)
        with (trampoline Adapter mem st status adapter messageData messageLength token).
      rewrite trampoline_eq, Hget.
      destruct (outcome_of Adapter status adapter messageData messageLength);
        reflexivity. }
    rewrite E. clear E.
    destruct (outcome_of Adapter status adapter messageData messageLength) as [s|] eqn:O.
    + assert (H : exists c,
                 calls st ++
                   [match s with
                    | Rejected e => CallReject (pc_promise p) e
                    | Fulfilled v => CallResolve (pc_promise p) v
                    | Pending => CallResolve (pc_promise p) adapter
                    end] = calls st ++ [c] /\ call_promise c = pc_promise p)
        by (eexists; split; [reflexivity|now destruct s]).
      split; [now right|intros _; exact H].
    + split; [now left|]. intros H. exfalso.
      apply outcome_of_reads in O. unfold reads_message in O.
      apply andb_prop in O. destruct O as [O O3]. apply andb_prop in O.
      destruct O as [O1 O2].
      apply negb_true_iff in O1, O3. apply Z.eqb_neq in O1, O3. apply Z.ltb_lt in O2.
      unfold WGPURequestAdapterStatus_Success in H. lia.
  - intros. apply adapterCallback_absent. apply adapterCallback_removes.
  - intros ops token. unfold invocations. apply NoDup_count_le_1.
    apply inv_calls. apply Inv_run. apply Inv_new.
Qed.

Lemma trampoline_settles_a_token_at_most_once_witness :
  adapterCallback (memory_with 4096 "boom") new_registry 4 0 4096 4 7 = new_registry
  /\ (let st' := adapterCallback (memory_with 4096 "boom") (register new_registry)
                                 1 99 0 0 1 in
      Map_get (pending st') 1 = None
      /\ (calls st' = calls (register new_registry)
          \/ exists c, calls st' = calls (register new_registry) ++ [c]
                       /\ call_promise c = pc_promise (mkPendingCallback 1 1))
      /\ (1 = WGPURequestAdapterStatus_Success \/ 0 <= 0 \/ 0 = 0 ->
          exists c, calls st' = calls (register new_registry) ++ [c]
                    /\ call_promise c = pc_promise (mkPendingCallback 1 1))).
Proof.
  split.
  - apply (proj1 trampoline_settles_a_token_at_most_once). reflexivity.
  - apply (proj1 (proj2 trampoline_settles_a_token_at_most_once)
             (memory_with 4096 "boom") (register new_registry) 1 99 0 0 1
             (mkPendingCallback 1 1)).
    reflexivity.
Defined.

(** C8. [cleanup] leaves the pending map empty and, in every registry
    reached from a new one, invokes the rejecter of every operation that
    was pending with the error "Callback registry cleaned up", which
    rejects its promise. With two operations pending, created by
    [createAdapterCallback], both promises are rejected and the map size
    is 0 afterwards. *)
Theorem cleanup_rejects_every_pending_operation :
  (forall ops,
      let st := run ops new_registry in
      pending (cleanup st) = []
      /\ pendingCount (cleanup st) = 0
      /\ forall k p,
          In (k, p) (pending st) ->
          In (CallReject k shutdown) (calls (cleanup st))
          /\ promise_state (promises (cleanup st)) k = Some (Rejected shutdown))
  /\ (forall ptr JSCallback_ptr enc,
         exists c1 c2,
           createAdapterCallback ptr JSCallback_ptr new_registry enc = Returns c1
           /\ createAdapterCallback ptr JSCallback_ptr (registry c1) (encoder c1)
              = Returns c2
           /\ pendingCount (registry c2) = 2
           /\ promise_state (promises (registry c2)) (promise c1) = Some Pending
           /\ promise_state (promises (registry c2)) (promise c2) = Some Pending
           /\ promise_state (promises (cleanup (registry c2))) (promise c1)
              = Some (Rejected shutdown)
           /\ promise_state (promises (cleanup (registry c2))) (promise c2)
              = Some (Rejected shutdown)
           /\ pendingCount (cleanup (registry c2)) = 0).
Proof.
  split.
  - intros ops st.
    assert (I : Inv st) by (apply Inv_run, Inv_new).
    split; [reflexivity|]. split; [reflexivity|].
    intros k p Hin. unfold cleanup. cbn [calls promises].
    destruct (cleanup_loop (pending st) st) as (_ & _ & H3 & H4). cbv zeta in *.
    destruct (inv_entries st I k p Hin) as (_ & Hp & Hpend).
    rewrite H3, H4. split.
    + apply in_or_app. right. apply in_map_iff. exists (k, p). cbn. now rewrite Hp.
    + rewrite settle_all_state, Hpend.
      assert (He : existsb (fun e => pc_promise (snd e) =? k) (pending st) = true).
      { apply existsb_exists. exists (k, p). split; [assumption|]. cbn.
        now apply Z.eqb_eq. }
      now rewrite He.
  - intros ptr JSCallback_ptr enc.
    destruct (createAdapterCallback_registers ptr JSCallback_ptr new_registry enc)
      as (c1 & E1 & R1 & P1).
    destruct (createAdapterCallback_registers ptr JSCallback_ptr (registry c1) (encoder c1))
      as (c2 & E2 & R2 & P2).
    exists c1, c2. rewrite E1, E2, P1, P2, R2, R1.
    repeat split; reflexivity.
Qed.

Lemma cleanup_rejects_every_pending_operation_witness :
  let st := run [OpRegister; OpRegister] new_registry in
  In (CallReject 2 shutdown) (calls (cleanup st))
  /\ promise_state (promises (cleanup st)) 2 = Some (Rejected shutdown).
Proof.
  apply (proj2 (proj2 (proj1 cleanup_rejects_every_pending_operation
                         [OpRegister; OpRegister]))
           2 (mkPendingCallback 2 2)).
  cbn. auto.
Defined.

End RegistryClaims.

(** ** Polling *)

Section PollingFacts.
Import Polling.

(** One unfolding of the [while] loop. *)
Lemma poll_loop_unfold {T : Type} (observe : Z -> option (Settlement T))
      (maxIter : Z) (l : Locals T) :
  poll_loop observe maxIter l =
  if negb (resolved l) && (iterations l <? maxIter)
  then poll_loop observe maxIter (poll_body observe l)
  else l.
Proof.
  rewrite poll_loop_equation_1. unfold poll_loop_unfold_clause_1.
  destruct (Sumbool.sumbool_of_bool _) as [e|e]; rewrite e; reflexivity.
Qed.

(** With a promise that never settles the loop counts up to the budget
    and stops. *)
Lemma poll_loop_never {T : Type} (maxIter : Z) :
  forall (n : nat) (l : Locals T),
    Z.to_nat (maxIter - iterations l) = n ->
    resolved l = false ->
    poll_loop never maxIter l =
    mkLocals (Z.max (iterations l) maxIter) false (result l) (error l)
             (pumped l + (Z.max (iterations l) maxIter - iterations l)).
Proof.
  induction n as [|n IH]; intros [it res r e pu] Hn Hres; cbn in Hn, Hres; subst res;
    rewrite poll_loop_unfold; cbn [resolved iterations negb andb].
  - destruct (it <? maxIter) eqn:E; [apply Z.ltb_lt in E; lia|].
    apply Z.ltb_ge in E. cbn. f_equal; lia.
  - destruct (it <? maxIter) eqn:E; [|apply Z.ltb_ge in E; lia].
    apply Z.ltb_lt in E. unfold poll_body, never. cbn.
    rewrite IH by (cbn; (lia || reflexivity)). cbn. f_equal; lia.
Qed.

(** For every promise the loop runs at most the budget, and pumps the
    native event queue once per iteration. *)
Lemma poll_loop_bounded {T : Type} (observe : Z -> option (Settlement T)) (maxIter : Z) :
  forall (n : nat) (l : Locals T),
    Z.to_nat (maxIter - iterations l) = n ->
    let l' := poll_loop observe maxIter l in
    iterations l <= iterations l' <= Z.max (iterations l) maxIter
    /\ pumped l' - pumped l = iterations l' - iterations l.
Proof.
  induction n as [|n IH]; intros l Hn; cbv zeta; rewrite poll_loop_unfold.
  - destruct (iterations l <? maxIter) eqn:E; [apply Z.ltb_lt in E; lia|].
    rewrite andb_false_r. lia.
  - destruct (negb (resolved l) && (iterations l <? maxIter)) eqn:C; [|lia].
    apply andb_prop in C. destruct C as [_ C]. apply Z.ltb_lt in C.
    assert (Hb : iterations (poll_body observe l) = iterations l + 1
                 /\ pumped (poll_body observe l) = pumped l + 1).
    { unfold poll_body, deliver. cbn [iterations pumped].
      destruct (observe (iterations l)) as [[r|e]|]; cbn; auto. }
    destruct Hb as [Hi Hp].
    specialize (IH (poll_body observe l) ltac:(lia)). cbv zeta in IH. lia.
Qed.

(** C7. [pollUntilComplete] is a total function: it returns for every
    promise. Its loop runs at most [maxIterations] iterations (10000 when
    the option is absent), pumping the native event queue once in each.
    When the promise never settles the loop runs exactly that many
    iterations (none for a budget below 1) and the call throws
    "Polling timed out after <n> iterations". *)
Theorem pollUntilComplete_times_out (T : Type) (options : Options) :
  let budget := match maxIterations options with Some n => n | None => 10000 end in
  (forall observe : Z -> option (Settlement T),
      let l := snd (pollUntilComplete observe options) in
      0 <= iterations l <= Z.max 0 budget /\ pumped l = iterations l)
  /\ pollUntilComplete (@never T) options =
     (Throws (Error ("Polling timed out after " ++ decimal (Z.max 0 budget)
                       ++ " iterations")),
      mkLocals (Z.max 0 budget) false None None (Z.max 0 budget))
  /\ fst (pollUntilComplete (@never T) (mkOptions None None)) =
     Throws (Error "Polling timed out after 10000 iterations").
Proof.
  intros budget.
  assert (Hnever : forall b : Z,
             poll_loop (@never T) b (mkLocals 0 false None None 0) =
             mkLocals (Z.max 0 b) false None None (Z.max 0 b)).
  { intros b.
    rewrite (poll_loop_never b _ (mkLocals 0 false None None 0) eq_refl eq_refl).
    cbn. f_equal; lia. }
  split; [|split].
  - intros observe l. subst l. unfold pollUntilComplete. cbv zeta. fold budget.
    pose proof (poll_loop_bounded observe budget _ (mkLocals 0 false None None 0) eq_refl)
      as H. cbv zeta in H. cbn [iterations pumped] in H.
    destruct (negb (resolved (poll_loop observe budget _))); cbn [snd]; [lia|].
    destruct (error (poll_loop observe budget _)); cbn [snd]; lia.
  - unfold pollUntilComplete. cbv zeta. fold budget. rewrite Hnever. reflexivity.
  - unfold pollUntilComplete. cbv zeta. cbn [maxIterations]. rewrite Hnever. reflexivity.
Qed.

End PollingFacts.

(** * Further properties *)

(** ** Layout engine, continued *)

Section LayoutMore.
Import Layout DataView Encoder.

Lemma walk_fields (fields : list FieldDef) :
  forall offset m,
    let ls := fst (fst (walk offset m fields)) in
    map fl_name ls = map fd_name fields
    /\ map fl_type ls = map fd_type fields
    /\ Forall (fun f => fl_size f = ti_size (getTypeInfo (fl_type f))
                        /\ fl_alignment f = ti_alignment (getTypeInfo (fl_type f))) ls.
Proof.
  induction fields as [|f rest IH]; intros offset m; cbn [walk].
  - cbn. auto.
  - cbv zeta.
    specialize (IH (align offset (ti_alignment (getTypeInfo (fd_type f)))
                      + ti_size (getTypeInfo (fd_type f)))
                   (Z.max m (ti_alignment (getTypeInfo (fd_type f))))).
    destruct (walk _ _ rest) as [[ls final] m']. cbn in *.
    destruct IH as (H1 & H2 & H3). rewrite H1, H2. repeat split; auto.
Qed.

Lemma defineStruct_names (name : string) (fields : list FieldDef) :
  sl_name (defineStruct name fields) = name
  /\ map fl_name (sl_fields (defineStruct name fields)) = map fd_name fields.
Proof.
  rewrite defineStruct_computeLayout. unfold computeLayout.
  pose proof (walk_fields fields 0 1) as H. cbv zeta in H.
  destruct (walk 0 1 fields) as [[ls final] m]. cbn in *. tauto.
Qed.

(** X1. [defineStruct] records one field layout per declared field, in
    declaration order, under the declared name and type, with the size
    and alignment of that type. *)
Theorem defineStruct_keeps_declaration (name : string) (fields : list FieldDef) :
  let layout := defineStruct name fields in
  sl_name layout = name
  /\ map fl_name (sl_fields layout) = map fd_name fields
  /\ map fl_type (sl_fields layout) = map fd_type fields
  /\ Forall (fun f => fl_size f = ti_size (getTypeInfo (fl_type f))
                      /\ fl_alignment f = ti_alignment (getTypeInfo (fl_type f)))
            (sl_fields layout).
Proof.
  cbv zeta. rewrite defineStruct_computeLayout. unfold computeLayout.
  pose proof (walk_fields fields 0 1) as H. cbv zeta in H.
  destruct (walk 0 1 fields) as [[ls final] m]. cbn in *. tauto.
Qed.

Lemma walk_max_alignment (fields : list FieldDef) :
  forall offset m,
    let ls := fst (fst (walk offset m fields)) in
    let m' := snd (walk offset m fields) in
    m <= m'
    /\ Forall (fun f => fl_alignment f <= m') ls
    /\ (m' = m \/ exists f, In f ls /\ fl_alignment f = m').
Proof.
  induction fields as [|f rest IH]; intros offset m; cbn [walk].
  - cbn. repeat split; auto; lia.
  - cbv zeta.
    specialize (IH (align offset (ti_alignment (getTypeInfo (fd_type f)))
                      + ti_size (getTypeInfo (fd_type f)))
                   (Z.max m (ti_alignment (getTypeInfo (fd_type f))))).
    destruct (walk _ _ rest) as [[ls final] m']. cbn in *.
    destruct IH as (H1 & H2 & H3). repeat split.
    + lia.
    + constructor; [cbn; lia|assumption].
    + destruct H3 as [H3|(g & Hg & Hm)].
      * destruct (Z.max_spec m (ti_alignment (getTypeInfo (fd_type f))))
          as [[_ Hmax]|[_ Hmax]].
        -- right. eexists. split; [left; reflexivity|]. cbn. congruence.
        -- left. congruence.
      * right. exists g. auto.
Qed.

(** X2. The alignment of a computed layout is the largest field
    alignment, and 1 when no field has a larger one: it is at least 1,
    no field's alignment exceeds it, and it is 1 or the alignment of one
    of the fields. *)
Theorem defineStruct_alignment_is_largest (name : string) (fields : list FieldDef) :
  let layout := defineStruct name fields in
  1 <= sl_alignment layout
  /\ Forall (fun f => fl_alignment f <= sl_alignment layout) (sl_fields layout)
  /\ (sl_alignment layout = 1
      \/ exists f, In f (sl_fields layout) /\ fl_alignment f = sl_alignment layout).
Proof.
  cbv zeta. rewrite defineStruct_computeLayout. unfold computeLayout.
  pose proof (walk_max_alignment fields 0 1) as H. cbv zeta in H.
  destruct (walk 0 1 fields) as [[ls final] m]. cbn in *. tauto.
Qed.

Lemma in_sequence_fields (lo size : Z) (fs : list FieldLayout) :
  in_sequence field_sound lo size fs ->
  Forall (fun f => lo <= fl_offset f /\ fl_offset f + fl_size f <= size) fs
  /\ (forall i j f g, (i < j)%nat ->
                      nth_error fs i = Some f -> nth_error fs j = Some g ->
                      fl_offset f + fl_size f <= fl_offset g).
Proof.
  revert lo. induction fs as [|f rest IH]; intros lo H; cbn in H.
  - split; [constructor|]. intros i j f g _ Hf. destruct i; discriminate.
  - destruct H as (Hlo & (Hs & Ha & Hsound) & Hrest).
    pose proof (in_sequence_bound _ _ _ Hrest) as Hend.
    pose proof (sound_size_nonneg _ Hsound) as Hnn.
    destruct (IH _ Hrest) as [Hall Hord]. split.
    + constructor; [lia|]. eapply Forall_impl; [|exact Hall]. cbn. intros g Hg. lia.
    + intros i j g h Hij Hg Hh. destruct j as [|j]; [lia|]. cbn in Hh.
      destruct i as [|i]; cbn in Hg.
      * injection Hg as <-. apply nth_error_In in Hh.
        rewrite Forall_forall in Hall. apply Hall in Hh. lia.
      * eapply Hord; [|eassumption|eassumption]. lia.
Qed.

(** X3. In a layout computed from sound field types (primitives, arrays
    of non-negative count, sound nested layouts), of a size within the
    exact range of sums, every field lies inside the struct, from a
    non-negative offset to at most the struct's size, and any two
    fields, adjacent or not, are disjoint: the earlier one ends before
    the later one starts. *)
Theorem defineStruct_fields_inside_and_disjoint (name : string) (fields : list FieldDef) :
  Forall (fun f => sound (fd_type f)) fields ->
  exact_range (defineStruct name fields) ->
  let layout := defineStruct name fields in
  Forall (fun f => 0 <= fl_offset f /\ fl_offset f + fl_size f <= sl_size layout)
         (sl_fields layout)
  /\ (forall i j f g, (i < j)%nat ->
                      nth_error (sl_fields layout) i = Some f ->
                      nth_error (sl_fields layout) j = Some g ->
                      fl_offset f + fl_size f <= fl_offset g).
Proof.
  intros H _ layout. pose proof (defineStruct_sound name fields H) as Hs.
  apply sound_struct in Hs. destruct Hs as [_ Hs].
  exact (in_sequence_fields _ _ _ Hs).
Qed.

Lemma defineStruct_fields_inside_and_disjoint_witness :
  let layout := defineStruct "Outer" roundtrip_fields in
  Forall (fun f => 0 <= fl_offset f /\ fl_offset f + fl_size f <= sl_size layout)
         (sl_fields layout)
  /\ (forall i j f g, (i < j)%nat ->
                      nth_error (sl_fields layout) i = Some f ->
                      nth_error (sl_fields layout) j = Some g ->
                      fl_offset f + fl_size f <= fl_offset g).
Proof.
  apply (defineStruct_fields_inside_and_disjoint "Outer" roundtrip_fields).
  - repeat constructor; cbn; try reflexivity; lia.
  - unfold exact_range. vm_compute. discriminate.
Defined.

(** The padding the walk inserts, for sound field types and a
    non-negative start. *)
Lemma walk_padding (fields : list FieldDef) :
  Forall (fun f => sound (fd_type f)) fields ->
  forall offset m,
    0 <= offset ->
    let ls := fst (fst (walk offset m fields)) in
    let final := snd (fst (walk offset m fields)) in
    offset <= final
    /\ (forall f, nth_error ls 0 = Some f -> fl_offset f < offset + fl_alignment f)
    /\ (forall i f g, nth_error ls i = Some f -> nth_error ls (S i) = Some g ->
                      fl_offset g < fl_offset f + fl_size f + fl_alignment g)
    /\ (forall f, nth_error ls (length ls - 1) = Some f -> final = fl_offset f + fl_size f)
    /\ (ls = [] -> final = offset).
Proof.
  induction 1 as [|f rest Hf _ IH]; intros offset m Ho; cbn [walk].
  - cbn. repeat split; auto; try lia; intros; try discriminate;
      try (destruct i; discriminate).
  - cbv zeta.
    pose proof (sound_alignment_pos _ Hf) as Ha.
    pose proof (sound_size_nonneg _ Hf) as Hn.
    pose proof (align_ge offset _ Ha) as Hge.
    pose proof (align_lt offset _ Ho Ha) as Hlt.
    specialize (IH (align offset (ti_alignment (getTypeInfo (fd_type f)))
                      + ti_size (getTypeInfo (fd_type f)))
                   (Z.max m (ti_alignment (getTypeInfo (fd_type f)))) ltac:(lia)).
    destruct (walk _ _ rest) as [[ls final] m']. cbn in *.
    destruct IH as (H1 & H2 & H3 & H4 & H5). repeat split.
    + lia.
    + intros g [= <-]. cbn. lia.
    + intros i g h Hg Hh. destruct i as [|i]; cbn in Hg.
      * injection Hg as <-. cbn. now apply H2.
      * eapply H3; eassumption.
    + intros g Hg.
      match type of Hg with
      | nth_error _ ?n = _ => replace n with (length ls) in Hg by lia
      end.
      destruct ls as [|x ls'].
      * cbn in Hg. injection Hg as <-. cbn. now apply H5.
      * apply H4.
        match goal with
        | |- nth_error _ ?n = _ => replace n with (length ls') by (cbn [length]; lia)
        end.
        exact Hg.
    + discriminate.
Qed.

(** X4. The padding of a computed layout is minimal. For sound field
    types and a size within the exact range of sums the first field is
    at offset 0, the gap between the end of a field and the start of the
    next is smaller than the next field's alignment, and the padding
    after the last field is smaller than the struct's alignment. *)
Theorem defineStruct_padding_is_minimal (name : string) (fields : list FieldDef) :
  Forall (fun f => sound (fd_type f)) fields ->
  exact_range (defineStruct name fields) ->
  let layout := defineStruct name fields in
  (forall f, nth_error (sl_fields layout) 0 = Some f -> fl_offset f = 0)
  /\ (forall i f g,
         nth_error (sl_fields layout) i = Some f ->
         nth_error (sl_fields layout) (S i) = Some g ->
         fl_offset f + fl_size f <= fl_offset g < fl_offset f + fl_size f + fl_alignment g)
  /\ (forall f,
         nth_error (sl_fields layout) (length (sl_fields layout) - 1) = Some f ->
         fl_offset f + fl_size f <= sl_size layout
         < fl_offset f + fl_size f + sl_alignment layout)
  /\ (fields = [] -> sl_size layout = 0).
Proof.
  intros H _ layout.
  pose proof (defineStruct_sound name fields H) as Hseq.
  apply sound_struct in Hseq. destruct Hseq as [_ Hseq].
  destruct (in_sequence_fields _ _ _ Hseq) as [Hin Hord].
  fold layout in Hin, Hord.
  pose proof (defineStruct_alignment_pos name fields) as Hpos. fold layout in Hpos.
  pose proof (walk_padding fields H 0 1 ltac:(lia)) as Hw. cbv zeta in Hw.
  subst layout. rewrite defineStruct_computeLayout in *. unfold computeLayout in *.
  destruct (walk 0 1 fields) as [[ls final] m] eqn:W.
  cbn [sl_fields sl_size sl_alignment fst snd] in *.
  destruct Hw as (H1 & H2 & H3 & H4 & H5).
  pose proof (align_ge final m Hpos) as Hge.
  pose proof (align_lt final m H1 Hpos) as Hlt.
  repeat split.
  - intros f Hf. specialize (H2 f Hf). apply nth_error_In in Hf.
    rewrite Forall_forall in Hin. destruct (Hin f Hf) as [H0 _].
    assert (Hr : Z.rem (fl_offset f) (fl_alignment f) = 0).
    { pose proof (walk_invariants fields) as Hi.
      assert (Hp : Forall positive_alignment fields).
      { eapply Forall_impl; [|exact H]. intros a Ha. now apply sound_alignment_pos. }
      specialize (Hi Hp 0 1 ltac:(lia)). rewrite W in Hi. unfold walk_ok in Hi.
      destruct Hi as (_ & Hal & _). rewrite Forall_forall in Hal. now apply Hal. }
    destruct (Z.eq_dec (fl_alignment f) 0) as [E|E]; [lia|].
    apply Z.rem_divide in Hr; [|assumption]. destruct Hr as [q Hq].
    assert (Hq0 : q = 0) by nia. subst q. lia.
  - eapply Hord; [|eassumption|eassumption]. lia.
  - eapply H3; eassumption.
  - specialize (H4 f H0). lia.
  - specialize (H4 f H0). lia.
  - intros ->. cbn in W. injection W as <- <- <-. reflexivity.
Qed.

Lemma defineStruct_padding_is_minimal_witness :
  let layout := defineStruct "Outer" roundtrip_fields in
  (forall f, nth_error (sl_fields layout) 0 = Some f -> fl_offset f = 0)
  /\ (forall i f g,
         nth_error (sl_fields layout) i = Some f ->
         nth_error (sl_fields layout) (S i) = Some g ->
         fl_offset f + fl_size f <= fl_offset g < fl_offset f + fl_size f + fl_alignment g)
  /\ (forall f,
         nth_error (sl_fields layout) (length (sl_fields layout) - 1) = Some f ->
         fl_offset f + fl_size f <= sl_size layout
         < fl_offset f + fl_size f + sl_alignment layout)
  /\ (roundtrip_fields = [] -> sl_size layout = 0).
Proof.
  apply (defineStruct_padding_is_minimal "Outer" roundtrip_fields).
  - repeat constructor; cbn; try reflexivity; lia.
  - unfold exact_range. vm_compute. discriminate.
Defined.

(** X5. [getFieldOffset] on a computed layout returns an offset for
    every declared field name and throws for every other name. *)
Theorem getFieldOffset_of_defineStruct (name : string) (fields : list FieldDef)
        (fieldName : string) :
  (In fieldName (map fd_name fields) ->
   exists f, In f (sl_fields (defineStruct name fields))
             /\ fl_name f = fieldName
             /\ getFieldOffset (defineStruct name fields) fieldName = Returns (fl_offset f))
  /\ (~ In fieldName (map fd_name fields) ->
      getFieldOffset (defineStruct name fields) fieldName =
      Throws (Error ("Field '" ++ fieldName ++ "' not found in struct '" ++ name ++ "'"))).
Proof.
  destruct (defineStruct_names name fields) as (Hn & Hnames).
  unfold getFieldOffset. rewrite Hn.
  pose proof (find_first (fun f => String.eqb (fl_name f) fieldName)
                         (sl_fields (defineStruct name fields))) as H.
  destruct (find _ (sl_fields (defineStruct name fields))) as [x|]; split.
  - intros _. destruct H as (before & after & Heq & Hx & _). apply String.eqb_eq in Hx.
    exists x. repeat split; auto. rewrite Heq. apply in_or_app. right. now left.
  - intros Hno. destruct H as (before & after & Heq & Hx & _). apply String.eqb_eq in Hx.
    exfalso. apply Hno. rewrite <- Hnames. apply in_map_iff. exists x.
    split; [assumption|]. rewrite Heq. apply in_or_app. right. now left.
  - intros Hin. rewrite <- Hnames in Hin. apply in_map_iff in Hin.
    destruct Hin as (f & Hf & Hin). rewrite forallb_forall in H. specialize (H f Hin).
    apply negb_true_iff in H. apply String.eqb_neq in H. contradiction.
  - reflexivity.
Qed.

Lemma getFieldOffset_of_defineStruct_witness :
  (exists f, In f (sl_fields (defineStruct "S" scenario1))
             /\ fl_name f = "c"%string
             /\ getFieldOffset (defineStruct "S" scenario1) "c" = Returns (fl_offset f))
  /\ getFieldOffset (defineStruct "S" scenario1) "z" =
     Throws (Error ("Field '" ++ "z" ++ "' not found in struct '" ++ "S" ++ "'")).
Proof.
  split.
  - apply (proj1 (getFieldOffset_of_defineStruct "S" scenario1 "c")). cbn. auto.
  - apply (proj2 (getFieldOffset_of_defineStruct "S" scenario1 "z")). cbn.
    intros [H|[H|[H|[]]]]; discriminate.
Defined.

End LayoutMore.

(** ** Encoder, continued *)

Section EncoderMore.
Import Layout DataView Encoder EncoderOps.

Lemma writeElems_length (p : PrimitiveType) (offset es count : Z) (arr : list Scalar) :
  forall (i : Z) (buf buf' : Buffer),
    writeElems buf offset es p count i arr = Returns buf' -> length buf' = length buf.
Proof.
  induction arr as [|x rest IH]; intros i buf buf' H; cbn [writeElems] in H.
  - now injection H as <-.
  - destruct (i <? count); [|now injection H as <-].
    destruct (writePrimitive buf (offset + i * es) p x) as [buf1| |] eqn:W;
      cbn [bind] in H; try discriminate.
    apply writePrimitive_footprint in W. destruct W as [L _].
    apply IH in H. congruence.
Qed.

Lemma forEach_length (r : list (string * Value)) (offset : Z) (fs : list FieldLayout) :
  Forall (fun f => forall v buf o buf',
              writeField buf o (fl_type f) v = Returns buf' ->
              length buf' = length buf) fs ->
  forall buf buf',
    forEach (writeNested r offset) fs buf = Returns buf' -> length buf' = length buf.
Proof.
  induction 1 as [|f rest Hf _ IH]; intros buf buf' H; cbn [forEach] in H.
  - now injection H as <-.
  - destruct (writeNested r offset buf f) as [buf1| |] eqn:W; try discriminate.
    apply IH in H. rewrite H. unfold writeNested in W. cbv zeta in W.
    destruct (is_undefined _); [now injection W as <-|]. now apply Hf in W.
Qed.

(** A write never changes the length of the buffer, whatever the layout. *)
Lemma writeField_length (type : FieldType) :
  forall (value : Value) (buf : Buffer) (offset : Z) (buf' : Buffer),
    writeField buf offset type value = Returns buf' -> length buf' = length buf.
Proof.
  induction type as [p|l IH|p count] using FieldType_nested_ind;
    intros value buf offset buf' H.
  - destruct value; cbn [writeField] in H; try discriminate.
    apply writePrimitive_footprint in H. now destruct H.
  - destruct value as [s|r|arr|]; try (cbn [writeField] in H; discriminate).
    rewrite writeField_struct in H. eapply forEach_length; eassumption.
  - destruct value; cbn [writeField] in H; try discriminate.
    eapply writeElems_length; eassumption.
Qed.

Lemma encode_returns (ptr : list byte -> Z) (this : StructEncoder)
      (layout : StructLayout) (values : list (string * Value))
      (r : EncodedStruct * StructEncoder) :
  encode ptr this layout values = Returns r ->
  Z.of_nat (length (es_buffer (fst r))) = sl_size layout
  /\ es_size (fst r) = sl_size layout
  /\ es_ptr (fst r) = ptr (es_buffer (fst r))
  /\ allocations (snd r) = allocations this ++ [es_buffer (fst r)].
Proof.
  unfold encode. intros H.
  destruct (ArrayBuffer_new (sl_size layout)) as [buffer| |] eqn:A;
    cbn [bind] in H; try discriminate.
  apply ArrayBuffer_new_inv in A. destruct A as [E ->].
  destruct (encodeFields _ values _) as [u8| |] eqn:W; cbn [bind] in H; try discriminate.
  injection H as <-. cbn. rewrite encodeFields_writeField in W.
  apply writeField_length in W. rewrite W, repeat_length. repeat split. lia.
Qed.

(** X6. Whatever the layout, [encode] throws a RangeError for a negative
    size and otherwise, when it returns, returns a buffer of exactly
    [layout.size] bytes with that size and that buffer's address, and
    retains the buffer as the newest allocation after the ones it held. *)
Theorem encode_result_shape (ptr : list byte -> Z) (this : StructEncoder)
        (layout : StructLayout) (values : list (string * Value)) :
  (sl_size layout < 0 -> encode ptr this layout values = Throws RangeError)
  /\ (forall r,
         encode ptr this layout values = Returns r ->
         Z.of_nat (length (es_buffer (fst r))) = sl_size layout
         /\ es_size (fst r) = sl_size layout
         /\ es_ptr (fst r) = ptr (es_buffer (fst r))
         /\ allocations (snd r) = allocations this ++ [es_buffer (fst r)]).
Proof.
  split.
  - unfold encode. intros H. now rewrite ArrayBuffer_new_negative.
  - intros r H. exact (encode_returns ptr this layout values r H).
Qed.

Lemma encode_result_shape_witness :
  encode (fun _ => 4096) (mkStructEncoder [])
         (mkStructLayout "Broken" [] (-1) 1) [] = Throws RangeError
  /\ (let r := (mkEncodedStruct (repeat Byte.x00 24) 4096 24,
                mkStructEncoder [[Byte.x01]; repeat Byte.x00 24]) in
      Z.of_nat (length (es_buffer (fst r))) = sl_size (defineStruct "S" scenario1)
      /\ es_size (fst r) = sl_size (defineStruct "S" scenario1)
      /\ es_ptr (fst r) = (fun _ => 4096) (es_buffer (fst r))
      /\ allocations (snd r) =
         allocations (mkStructEncoder [[Byte.x01]]) ++ [es_buffer (fst r)]).
Proof.
  split.
  - apply (proj1 (encode_result_shape (fun _ => 4096) (mkStructEncoder [])
                    (mkStructLayout "Broken" [] (-1) 1) [])).
    cbn. lia.
  - apply (proj2 (encode_result_shape (fun _ => 4096) (mkStructEncoder [[Byte.x01]])
                    (defineStruct "S" scenario1) [])).
    reflexivity.
Defined.

(** Bytes outside the fields that receive a value keep their content. *)
Lemma forEach_untouched (r : list (string * Value)) (offset size : Z)
      (fs : list FieldLayout) :
  forall lo buf buf' (i : nat),
    in_sequence field_sound lo size fs ->
    forEach (writeNested r offset) fs buf = Returns buf' ->
    (forall g, In g fs -> is_undefined (getProp r (fl_name g)) = false ->
               ~ (offset + fl_offset g <= Z.of_nat i < offset + fl_offset g + fl_size g)) ->
    nth_error buf' i = nth_error buf i.
Proof.
  induction fs as [|f rest IH]; intros lo buf buf' i Hseq H Hout; cbn [forEach] in H.
  - now injection H as <-.
  - cbn in Hseq. destruct Hseq as (Hlo & (Hs & Ha & Hsound) & Hrest).
    destruct (writeNested r offset buf f) as [buf1| |] eqn:W; try discriminate.
    rewrite (IH _ _ _ i Hrest H) by (intros g Hg; apply Hout; now right).
    unfold writeNested in W. cbv zeta in W.
    destruct (is_undefined (getProp r (fl_name f))) eqn:U; [now injection W as <-|].
    apply writeField_footprint in W; [|assumption]. destruct W as [_ W].
    symmetry. apply W. specialize (Hout f (or_introl eq_refl) U). rewrite Hs in Hout. lia.
Qed.

(** X7. Zero default: after [encode] with a sound layout, the bytes of
    every field for which the lookup in the value map gives [undefined]
    (a name that is neither an own property nor a member inherited from
    [Object.prototype], or an own property that is [undefined]) are all
    zero. *)
Theorem encode_leaves_absent_fields_zero (ptr : list byte -> Z) (this : StructEncoder)
        (layout : StructLayout) (values : list (string * Value))
        (r : EncodedStruct * StructEncoder) (f : FieldLayout) (i : nat) :
  sound (TStruct layout) ->
  encode ptr this layout values = Returns r ->
  In f (sl_fields layout) ->
  is_undefined (getProp values (fl_name f)) = true ->
  fl_offset f <= Z.of_nat i < fl_offset f + fl_size f ->
  nth_error (es_buffer (fst r)) i = Some Byte.x00.
Proof.
  intros Hsound H Hin Hu Hi.
  apply sound_struct in Hsound. destruct Hsound as [_ Hseq].
  destruct (in_sequence_fields _ _ _ Hseq) as [Hall Hord].
  rewrite Forall_forall in Hall. destruct (Hall f Hin) as [Hf0 Hf1].
  unfold encode in H.
  destruct (ArrayBuffer_new (sl_size layout)) as [buffer| |] eqn:A;
    cbn [bind] in H; try discriminate.
  apply ArrayBuffer_new_inv in A. destruct A as [_ ->].
  destruct (encodeFields _ values _) as [u8| |] eqn:W; cbn [bind] in H; try discriminate.
  injection H as <-. cbn [fst es_buffer].
  rewrite encodeFields_writeField, writeField_struct in W.
  rewrite (forEach_untouched values 0 (sl_size layout) (sl_fields layout) 0 _ _ i Hseq W).
  - apply nth_error_repeat. lia.
  - intros g Hg Hd Hr.
    destruct (In_nth_error _ _ Hin) as [a Ha]. destruct (In_nth_error _ _ Hg) as [b Hb].
    destruct (Nat.lt_trichotomy a b) as [Hab|[Hab|Hab]].
    + specialize (Hord a b f g Hab Ha Hb). lia.
    + subst b. rewrite Ha in Hb. injection Hb as <-. congruence.
    + specialize (Hord b a g f Hab Hb Ha). lia.
Qed.

Lemma encode_leaves_absent_fields_zero_witness :
  nth_error
    (es_buffer
       (fst (mkEncodedStruct
               (repeat Byte.x00 16 ++
                  [Byte.xff; Byte.xff; Byte.xff; Byte.xff;
                   Byte.x00; Byte.x00; Byte.x00; Byte.x00])
               4096 24,
             mkStructEncoder
               [repeat Byte.x00 16 ++
                  [Byte.xff; Byte.xff; Byte.xff; Byte.xff;
                   Byte.x00; Byte.x00; Byte.x00; Byte.x00]])))
    9 = Some Byte.x00.
Proof.
  apply (encode_leaves_absent_fields_zero
           (fun _ => 4096) (mkStructEncoder []) (defineStruct "S" scenario1)
           [("c"%string, VPrim (SNum 4294967295))]
           _ (mkFieldLayout "b" (TPrim Pu64) 8 8 8) 9).
  - cbn. repeat split; try reflexivity; lia.
  - reflexivity.
  - cbn. auto.
  - reflexivity.
  - cbn. lia.
Defined.

Lemma store_out_of_bounds (buf : Buffer) (offset : Z) (bs : list byte) :
  Z.of_nat (length buf) < offset + Z.of_nat (length bs) ->
  store buf offset bs = Throws RangeError.
Proof. intros H. unfold store. apply Z.ltb_lt in H. now rewrite H. Qed.

(** X8. [writePrimitive] never writes outside the buffer: for a field of
    an integer, pointer or boolean kind that starts below 0 or ends
    beyond the buffer it does not return, and it throws a RangeError
    whenever the value converts. *)
Theorem writePrimitive_out_of_bounds (buf : Buffer) (offset : Z) (type : PrimitiveType)
        (value : Scalar) :
  is_float type = false ->
  offset < 0 \/ Z.of_nat (length buf) < offset + getTypeSize type ->
  (forall buf', writePrimitive buf offset type value <> Returns buf')
  /\ (stored_integer type value <> None ->
      writePrimitive buf offset type value = Throws RangeError).
Proof.
  intros Hf Hout.
  assert (Hthrow : stored_integer type value <> None ->
                   writePrimitive buf offset type value = Throws RangeError).
  { intros Hz. destruct (Z.lt_ge_cases offset 0) as [Hneg|Ho].
    - destruct type; try discriminate Hf; unfold writePrimitive;
        unfold setUint8, setInt8, setUint16, setInt16, setUint32, setInt32,
               setBigUint64, setBigInt64;
        rewrite ?setNumber_negative by assumption; try reflexivity;
        destruct value; cbn [stored_integer] in Hz; try congruence;
        cbn [BigInt orZero bind]; now rewrite setBig64_negative.
    - rewrite writePrimitive_store by assumption.
      destruct (stored_integer type value) as [z|]; [|congruence].
      apply store_out_of_bounds. rewrite length_le_split, width_size. lia. }
  split; [|exact Hthrow].
  intros buf' H. destruct (stored_integer type value) as [z|] eqn:Hz.
  - rewrite Hthrow in H by congruence. discriminate.
  - destruct (Z.lt_ge_cases offset 0) as [Hneg|Ho].
    + eapply writePrimitive_negative; eassumption.
    + rewrite writePrimitive_store, Hz in H by assumption. discriminate.
Qed.

Lemma writePrimitive_out_of_bounds_witness :
  (forall buf', writePrimitive [Byte.x00; Byte.x00; Byte.x00] 0 Pu32 (SNum 1)
                <> Returns buf')
  /\ writePrimitive [Byte.x00; Byte.x00; Byte.x00] 0 Pu32 (SNum 1) = Throws RangeError.
Proof.
  assert (H : (0 < 0 \/ Z.of_nat (length [Byte.x00; Byte.x00; Byte.x00])
                        < 0 + getTypeSize Pu32)) by (right; cbn; lia).
  split.
  - apply (proj1 (writePrimitive_out_of_bounds
                    [Byte.x00; Byte.x00; Byte.x00] 0 Pu32 (SNum 1) eq_refl H)).
  - apply (proj2 (writePrimitive_out_of_bounds
                    [Byte.x00; Byte.x00; Byte.x00] 0 Pu32 (SNum 1) eq_refl H)).
    discriminate.
Defined.

Lemma writeElems_firstn (p : PrimitiveType) (offset es count : Z) (arr : list Scalar) :
  forall (i : Z) (buf : Buffer),
    writeElems buf offset es p count i arr =
    writeElems buf offset es p count i (firstn (Z.to_nat (count - i)) arr).
Proof.
  induction arr as [|x rest IH]; intros i buf.
  - now rewrite firstn_nil.
  - cbn [writeElems]. destruct (i <? count) eqn:E.
    + apply Z.ltb_lt in E.
      replace (Z.to_nat (count - i)) with (S (Z.to_nat (count - (i + 1)))) by lia.
      cbn [firstn writeElems]. apply Z.ltb_lt in E. rewrite E.
      destruct (writePrimitive buf (offset + i * es) p x); cbn [bind]; auto.
    + apply Z.ltb_ge in E. replace (Z.to_nat (count - i)) with 0%nat by lia.
      reflexivity.
Qed.

(** X9. An array value longer than the array field is truncated without
    an error: only its first [count] elements are written, and for a
    count of 0 or less the buffer is returned as it is. *)
Theorem writeField_truncates_array (buf : Buffer) (offset : Z) (p : PrimitiveType)
        (count : Z) (arr : list Scalar) :
  writeField buf offset (TArray p count) (VArr arr) =
  writeField buf offset (TArray p count) (VArr (firstn (Z.to_nat count) arr))
  /\ (count <= 0 -> writeField buf offset (TArray p count) (VArr arr) = Returns buf).
Proof.
  cbn [writeField]. split.
  - rewrite writeElems_firstn. now rewrite Z.sub_0_r.
  - intros H. rewrite writeElems_firstn.
    replace (Z.to_nat (count - 0)) with 0%nat by lia. reflexivity.
Qed.

Lemma writeField_truncates_array_witness :
  writeField [Byte.x00; Byte.x00] 0 (TArray Pu8 0) (VArr [SNum 1; SNum 2])
  = Returns [Byte.x00; Byte.x00].
Proof.
  apply (proj2 (writeField_truncates_array [Byte.x00; Byte.x00] 0 Pu8 0 [SNum 1; SNum 2])).
  lia.
Defined.

Lemma forEach_ext {A S : Type} (f g : S -> A -> outcome S) (l : list A) :
  (forall s x, In x l -> f s x = g s x) ->
  forall s, forEach f l s = forEach g l s.
Proof.
  induction l as [|x rest IH]; intros H s; cbn [forEach]; [reflexivity|].
  rewrite (H s x (or_introl eq_refl)).
  destruct (g s x); auto. apply IH. intros s' y Hy. apply H. now right.
Qed.

Lemma getProp_cons_other (k : string) (v : Value) (props : list (string * Value))
      (name : string) :
  k <> name -> getProp ((k, v) :: props) name = getProp props name.
Proof.
  intros H. unfold getProp. cbn [find fst]. apply String.eqb_neq in H. now rewrite H.
Qed.

(** X10. [encode] looks at a value map only through the properties named
    by the layout's fields: two maps that agree on those names give the
    same result, so a property whose key names no field is ignored
    without an error. *)
Theorem encode_ignores_unknown_properties (ptr : list byte -> Z) (this : StructEncoder)
        (layout : StructLayout) :
  (forall values values',
      (forall f, In f (sl_fields layout) ->
                 getProp values (fl_name f) = getProp values' (fl_name f)) ->
      encode ptr this layout values = encode ptr this layout values')
  /\ (forall key value values,
         ~ In key (map fl_name (sl_fields layout)) ->
         encode ptr this layout ((key, value) :: values) = encode ptr this layout values).
Proof.
  assert (H : forall values values',
             (forall f, In f (sl_fields layout) ->
                        getProp values (fl_name f) = getProp values' (fl_name f)) ->
             encode ptr this layout values = encode ptr this layout values').
  { intros values values' Hagree. unfold encode.
    destruct (ArrayBuffer_new (sl_size layout)) as [buffer| |]; cbn [bind]; auto.
    unfold encodeFields.
    rewrite (forEach_ext _
               (fun view field =>
                  let value := getProp values' (fl_name field) in
                  if is_undefined value then Returns view
                  else writeField view (fl_offset field) (fl_type field) value));
      [reflexivity|].
    intros s f Hf. cbv zeta. now rewrite (Hagree f Hf). }
  split; [exact H|].
  intros key value values Hkey. apply H. intros f Hf. apply getProp_cons_other.
  intros ->. apply Hkey. now apply in_map.
Qed.

Lemma encode_ignores_unknown_properties_witness :
  encode (fun _ => 4096) (mkStructEncoder []) (defineStruct "S" scenario1)
         [("d"%string, VPrim (SNum 1)); ("a"%string, VPrim (SNum 7))]
  = encode (fun _ => 4096) (mkStructEncoder []) (defineStruct "S" scenario1)
           [("a"%string, VPrim (SNum 7))].
Proof.
  apply (proj2 (encode_ignores_unknown_properties
                  (fun _ => 4096) (mkStructEncoder []) (defineStruct "S" scenario1))).
  cbn. intros [H|[H|[H|[]]]]; discriminate.
Defined.

End EncoderMore.

(** ** Packed arrays, strings and retained allocations *)

Section EncoderArrays.
Import Layout DataView Encoder EncoderOps Registry.

Lemma load_flat_map (w : nat) (values : list Z) :
  forall (i : nat) (x : Z),
    nth_error values i = Some x ->
    load (flat_map (le_split w) values) (Z.of_nat (w * i)) w = Returns (le_split w x).
Proof.
  intros i x Hx. unfold load.
  assert (Hlen : forall l, length (flat_map (le_split w) l) = (w * length l)%nat).
  { induction l as [|a l IH]; cbn [flat_map length]; [lia|].
    rewrite length_app, length_le_split, IH. lia. }
  assert (Hi : (i < length values)%nat) by (apply nth_error_Some; congruence).
  destruct (Z.of_nat (w * i) <? 0) eqn:E0; [apply Z.ltb_lt in E0; lia|].
  destruct (Z.of_nat (length (flat_map (le_split w) values))
            <? Z.of_nat (w * i) + Z.of_nat w) eqn:E1;
    [apply Z.ltb_lt in E1; rewrite Hlen in E1; nia|].
  f_equal. rewrite Nat2Z.id. clear E0 E1 Hi Hlen.
  revert i Hx. induction values as [|a l IH]; intros i Hx; [destruct i; discriminate|].
  destruct i as [|i]; cbn [nth_error flat_map] in *.
  - injection Hx as ->. rewrite Nat.mul_0_r. cbn [skipn].
    rewrite firstn_app, length_le_split, Nat.sub_diag. cbn [firstn].
    rewrite firstn_all2 by (rewrite length_le_split; lia). now rewrite app_nil_r.
  - replace (w * S i)%nat with (w + w * i)%nat by lia.
    rewrite skipn_app, length_le_split.
    rewrite skipn_all2 by (rewrite length_le_split; lia). cbn [app].
    replace (w + w * i - w)%nat with (w * i)%nat by lia. now apply IH.
Qed.

(** X11. The native arrays built by [ptrArray] and [u32Array] hold the
    elements in order, 8 respectively 4 little-endian bytes each: reading
    element [i] of the retained bytes with [readU64] at [8 * i]
    (respectively [readU32] at [4 * i]) returns the element reduced
    modulo 2^64 (respectively 2^32), and [readPtr] returns a pointer
    below 2^53 as it was given. *)
Theorem packed_arrays_read_back (ptr : list byte -> Z) (this : StructEncoder)
        (values : list Z) (i : nat) (x : Z) :
  nth_error values i = Some x ->
  let pointers := last (allocations (snd (ptrArray ptr this values))) [] in
  let words := last (allocations (snd (u32Array ptr this values))) [] in
  readU64 pointers (8 * Z.of_nat i) = Returns (x mod 2 ^ 64)
  /\ (0 <= x < 2 ^ 53 -> readPtr pointers (8 * Z.of_nat i) = Returns x)
  /\ readU32 words (4 * Z.of_nat i) = Returns (x mod 2 ^ 32).
Proof.
  intros Hx pointers words.
  assert (Hp : pointers = flat_map (le_split 8) values).
  { subst pointers. destruct values as [|a l]; [destruct i; discriminate|].
    cbn [ptrArray snd push allocations]. now rewrite last_last. }
  assert (Hw : words = flat_map (le_split 4) values).
  { subst words. destruct values as [|a l]; [destruct i; discriminate|].
    cbn [u32Array snd push allocations]. now rewrite last_last. }
  pose proof (load_flat_map 8 values i x Hx) as L8.
  pose proof (load_flat_map 4 values i x Hx) as L4.
  replace (Z.of_nat (8 * i)) with (8 * Z.of_nat i) in L8 by lia.
  replace (Z.of_nat (4 * i)) with (4 * Z.of_nat i) in L4 by lia.
  rewrite <- Hp in L8. rewrite <- Hw in L4.
  assert (H64 : readU64 pointers (8 * Z.of_nat i) = Returns (x mod 2 ^ 64)).
  { unfold readU64, getBigUint64. now rewrite (getUnsigned_of_load _ _ _ _ L8). }
  repeat split.
  - exact H64.
  - intros Hr. unfold readPtr. unfold readU64 in H64. rewrite H64. cbn [bind].
    rewrite Z.mod_small by lia. rewrite Number_of_BigInt_exact by lia. reflexivity.
  - unfold readU32, getUint32. now rewrite (getUnsigned_of_load _ _ _ _ L4).
Qed.

Lemma packed_arrays_read_back_witness :
  let pointers := last (allocations (snd (ptrArray (fun _ => 4096) (mkStructEncoder [])
                                                   [4096; 8192]))) [] in
  let words := last (allocations (snd (u32Array (fun _ => 4096) (mkStructEncoder [])
                                                [4096; 8192]))) [] in
  readU64 pointers (8 * Z.of_nat 1) = Returns (8192 mod 2 ^ 64)
  /\ (0 <= 8192 < 2 ^ 53 -> readPtr pointers (8 * Z.of_nat 1) = Returns 8192)
  /\ readU32 words (4 * Z.of_nat 1) = Returns (8192 mod 2 ^ 32).
Proof.
  apply (packed_arrays_read_back (fun _ => 4096) (mkStructEncoder []) [4096; 8192] 1 8192).
  reflexivity.
Defined.





(** One call appends at most one allocation, and hands out either the
    null pointer or the address of the allocation it appended. *)
Lemma invoke_retains (ptr : list byte -> Z) (this : StructEncoder) (c : Method)
      (r : option Z * StructEncoder) :
  invoke ptr this c = Returns r ->
  (allocations (snd r) = allocations this
   /\ (fst r = None \/ fst r = Some 0))
  \/ exists a, allocations (snd r) = allocations this ++ [a]
               /\ (fst r = None \/ fst r = Some (ptr a)).
Proof.
  destruct c as [layout values|str|str|size|pointers|values|buffer]; cbn [invoke]; intros H.
  - destruct (encode ptr this layout values) as [e| |] eqn:E; cbn [bind] in H;
      try discriminate.
    injection H as <-.
    destruct (encode_returns ptr this layout values e E) as (_ & _ & Hp & Ha).
    right. exists (es_buffer (fst e)). cbn [fst snd]. rewrite Hp. auto.
  - injection H as <-. unfold encodeString.
    destruct (str =? "")%string; cbn; [left; auto|right; eauto].
  - injection H as <-. right. unfold encodeCString. cbn. eauto.
  - unfold alloc in H.
    destruct ((size <? 0) || (MAX_SAFE_INTEGER <? size)); cbn [bind] in H; [discriminate|].
    injection H as <-. right. cbn. eauto.
  - injection H as <-. destruct pointers; cbn; [left; auto|right; eauto].
  - injection H as <-. destruct values; cbn; [left; auto|right; eauto].
  - injection H as <-. right. exists buffer. cbn. auto.
Qed.

(** X13. The encoder keeps alive what it handed out. Through any
    sequence of calls of its allocating methods ([encode],
    [encodeString], [encodeCString], [alloc], [ptrArray], [u32Array],
    [track]) the allocations held before stay, in place, at most one is
    added per call, and every pointer handed out is the null pointer or
    the address of an allocation still held afterwards. [freeAll] drops
    them all. *)
Theorem encoder_retains_allocations (ptr : list byte -> Z) (cs : list Method) :
  forall (this : StructEncoder) (r : list Z * StructEncoder),
    invokeAll ptr this cs = Returns r ->
    (exists added,
        allocations (snd r) = allocations this ++ added
        /\ (length added <= length cs)%nat
        /\ forall p, In p (fst r) -> p = 0 \/ exists a, In a added /\ p = ptr a)
    /\ allocations (freeAll (snd r)) = [].
Proof.
  induction cs as [|c rest IH]; intros this r H; cbn [invokeAll] in H.
  - injection H as <-. split; [|reflexivity]. exists []. cbn.
    rewrite app_nil_r. repeat split; auto. intros p [].
  - destruct (invoke ptr this c) as [r1| |] eqn:C; cbn [bind] in H; try discriminate.
    destruct (invokeAll ptr (snd r1) rest) as [r2| |] eqn:R; cbn [bind] in H; try discriminate.
    injection H as <-. cbn [fst snd]. split; [|reflexivity].
    destruct (IH _ _ R) as [(added & Ha & Hl & Hp) _].
    destruct (invoke_retains ptr this c r1 C) as [[Hsame Hptr]|(a & Happ & Hptr)].
    + exists added. rewrite Ha, Hsame. repeat split; [cbn [length]; lia|].
      intros p Hin. destruct Hptr as [E|E]; rewrite E in Hin; [now apply Hp|].
      destruct Hin as [<-|Hin]; [now left|now apply Hp].
    + exists (a :: added). rewrite Ha, Happ, <- app_assoc. repeat split;
        [cbn [length]; lia|].
      intros p Hin.
      assert (Hrest : In p (fst r2) -> p = 0 \/ exists b, In b (a :: added) /\ p = ptr b).
      { intros Hi. destruct (Hp p Hi) as [E|(b & Hb & E)]; [now left|].
        right. exists b. split; [now right|assumption]. }
      destruct Hptr as [E|E]; rewrite E in Hin; [now apply Hrest|].
      destruct Hin as [<-|Hin]; [|now apply Hrest].
      right. exists a. split; [now left|reflexivity].
Qed.

Lemma encoder_retains_allocations_witness :
  (exists added,
      allocations (mkStructEncoder [[Byte.x01]; list_byte_of_string "hi"])
      = allocations (mkStructEncoder [[Byte.x01]]) ++ added
      /\ (length added <= length [MEncodeString ""; MEncodeString "hi"])%nat
      /\ forall p, In p [0; 4096] -> p = 0 \/ exists a, In a added /\ p = 4096)
  /\ allocations (freeAll (mkStructEncoder [[Byte.x01]; list_byte_of_string "hi"])) = [].
Proof.
  apply (encoder_retains_allocations (fun _ => 4096)
           [MEncodeString ""; MEncodeString "hi"]
           (mkStructEncoder [[Byte.x01]])
           ([0; 4096], mkStructEncoder [[Byte.x01]; list_byte_of_string "hi"])).
  reflexivity.
Defined.

End EncoderArrays.

(** ** Decoder *)

Section DecoderFacts.
Import Layout DataView Encoder EncoderOps.

Lemma load_cases (view : Buffer) (offset : Z) (w : nat) :
  match load view offset w with
  | Returns bs =>
      0 <= offset /\ offset + Z.of_nat w <= Z.of_nat (length view) /\ length bs = w
  | Throws e =>
      e = RangeError /\ (offset < 0 \/ Z.of_nat (length view) < offset + Z.of_nat w)
  | OutsideModel => False
  end.
Proof.
  unfold load. destruct (offset <? 0) eqn:E0.
  - apply Z.ltb_lt in E0. auto.
  - apply Z.ltb_ge in E0.
    destruct (Z.of_nat (length view) <? offset + Z.of_nat w) eqn:E1.
    + apply Z.ltb_lt in E1. auto.
    + apply Z.ltb_ge in E1. repeat split; auto.
      rewrite length_firstn, length_skipn. lia.
Qed.

Lemma getUnsigned_checked (w : nat) (view : Buffer) (offset : Z) :
  read_checked (getUnsigned w view offset) view offset (Z.of_nat w)
               0 (2 ^ (8 * Z.of_nat w)).
Proof.
  unfold getUnsigned. pose proof (load_cases view offset w) as H.
  destruct (load view offset w) as [bs|e|]; cbn [bind read_checked]; auto.
  destruct H as (H0 & H1 & H2). repeat split; auto.
  - apply le_combine_bound.
  - rewrite <- H2. apply le_combine_bound.
Qed.

Lemma signed_range (w : nat) (u : Z) :
  (0 < w)%nat -> 0 <= u < 2 ^ (8 * Z.of_nat w) ->
  - 2 ^ (8 * Z.of_nat w - 1) <= signed w u < 2 ^ (8 * Z.of_nat w - 1).
Proof.
  intros Hw Hu. unfold signed.
  assert (Hp : 2 ^ (8 * Z.of_nat w) = 2 * 2 ^ (8 * Z.of_nat w - 1)).
  { rewrite <- Z.pow_succ_r by lia. f_equal. lia. }
  destruct (u <? 2 ^ (8 * Z.of_nat w - 1)) eqn:E;
    [apply Z.ltb_lt in E|apply Z.ltb_ge in E]; lia.
Qed.

Lemma getSigned_checked (w : nat) (view : Buffer) (offset : Z) :
  (0 < w)%nat ->
  read_checked (getSigned w view offset) view offset (Z.of_nat w)
               (- 2 ^ (8 * Z.of_nat w - 1)) (2 ^ (8 * Z.of_nat w - 1)).
Proof.
  intros Hw. unfold getSigned. pose proof (load_cases view offset w) as H.
  destruct (load view offset w) as [bs|e|]; cbn [bind read_checked]; auto.
  destruct H as (H0 & H1 & H2). split; [assumption|]. split; [assumption|].
  apply signed_range; [assumption|]. rewrite <- H2. apply le_combine_bound.
Qed.

(** X14. Every integer read of [StructDecoder] is bounds-checked and
    ranged: it throws a RangeError exactly when the bytes it needs do not
    lie inside the view (a negative offset, or an end beyond the view),
    and otherwise returns a value in the range of its kind. *)
Theorem reads_are_checked_and_ranged (view : Buffer) (offset : Z) :
  read_checked (readU8 view offset) view offset 1 0 (2 ^ 8)
  /\ read_checked (readI8 view offset) view offset 1 (- 2 ^ 7) (2 ^ 7)
  /\ read_checked (readU16 view offset) view offset 2 0 (2 ^ 16)
  /\ read_checked (readI16 view offset) view offset 2 (- 2 ^ 15) (2 ^ 15)
  /\ read_checked (readU32 view offset) view offset 4 0 (2 ^ 32)
  /\ read_checked (readI32 view offset) view offset 4 (- 2 ^ 31) (2 ^ 31)
  /\ read_checked (readU64 view offset) view offset 8 0 (2 ^ 64)
  /\ read_checked (readI64 view offset) view offset 8 (- 2 ^ 63) (2 ^ 63).
Proof.
  repeat split.
  - exact (getUnsigned_checked 1 view offset).
  - exact (getSigned_checked 1 view offset ltac:(lia)).
  - exact (getUnsigned_checked 2 view offset).
  - exact (getSigned_checked 2 view offset ltac:(lia)).
  - exact (getUnsigned_checked 4 view offset).
  - exact (getSigned_checked 4 view offset ltac:(lia)).
  - exact (getUnsigned_checked 8 view offset).
  - exact (getSigned_checked 8 view offset ltac:(lia)).
Qed.

Lemma firstn_add {A : Type} (n m : nat) (l : list A) :
  firstn (n + m) l = firstn n l ++ firstn m (skipn n l).
Proof.
  revert l. induction n as [|n IH]; intros l; [reflexivity|].
  destruct l as [|x l]; cbn [Nat.add firstn skipn app].
  - now rewrite firstn_nil.
  - now rewrite IH.
Qed.

Lemma load_app (view : Buffer) (offset : Z) (w1 w2 : nat) :
  0 <= offset ->
  offset + Z.of_nat (w1 + w2) <= Z.of_nat (length view) ->
  exists bs1 bs2,
    load view offset w1 = Returns bs1
    /\ load view (offset + Z.of_nat w1) w2 = Returns bs2
    /\ load view offset (w1 + w2) = Returns (bs1 ++ bs2)
    /\ length bs1 = w1.
Proof.
  intros Ho Hb. unfold load.
  destruct (offset <? 0) eqn:E0; [apply Z.ltb_lt in E0; lia|].
  destruct (offset + Z.of_nat w1 <? 0) eqn:E1; [apply Z.ltb_lt in E1; lia|].
  destruct (Z.of_nat (length view) <? offset + Z.of_nat w1) eqn:E2;
    [apply Z.ltb_lt in E2; lia|].
  destruct (Z.of_nat (length view) <? offset + Z.of_nat w1 + Z.of_nat w2) eqn:E3;
    [apply Z.ltb_lt in E3; lia|].
  destruct (Z.of_nat (length view) <? offset + Z.of_nat (w1 + w2)) eqn:E4;
    [apply Z.ltb_lt in E4; lia|].
  do 2 eexists. split; [reflexivity|]. split; [reflexivity|]. split.
  - f_equal. rewrite firstn_add, skipn_skipn.
    replace (Z.to_nat (offset + Z.of_nat w1)) with (w1 + Z.to_nat offset)%nat by lia.
    reflexivity.
  - rewrite length_firstn, length_skipn. lia.
Qed.

Lemma lor_shiftl_add (a b k : Z) :
  0 <= k -> 0 <= a < 2 ^ k -> Z.lor a (Z.shiftl b k) = a + b * 2 ^ k.
Proof.
  intros Hk Ha. rewrite <- Z.shiftl_mul_pow2 by assumption.
  rewrite <- Z.add_lor_land.
  assert (H0 : Z.land a (Z.shiftl b k) = 0); [|rewrite H0; lia].
  apply Z.bits_inj'. intros n Hn. rewrite Z.land_spec, Z.bits_0.
  destruct (Z.lt_ge_cases n k) as [Hlt|Hge].
  - rewrite Z.shiftl_spec_low by assumption. apply andb_false_r.
  - assert (Hz : Z.testbit a n = false); [|now rewrite Hz].
    destruct (Z.eq_dec a 0) as [->|Hnz]; [apply Z.bits_0|].
    apply Z.bits_above_log2; [lia|].
    assert (Z.log2 a < k) by (apply Z.log2_lt_pow2; lia). lia.
Qed.

Lemma getUnsigned_app (view : Buffer) (offset : Z) (w : nat) :
  0 <= offset ->
  offset + Z.of_nat (w + w) <= Z.of_nat (length view) ->
  exists lo hi,
    getUnsigned w view offset = Returns lo
    /\ getUnsigned w view (offset + Z.of_nat w) = Returns hi
    /\ getUnsigned (w + w) view offset = Returns (lo + 2 ^ (8 * Z.of_nat w) * hi).
Proof.
  intros Ho Hb. destruct (load_app view offset w w Ho Hb) as (bs1 & bs2 & L1 & L2 & L & Hl).
  exists (le_combine bs1), (le_combine bs2). unfold getUnsigned.
  rewrite L1, L2, L. cbn [bind]. repeat split. f_equal.
  rewrite le_combine_app, Hl, (Z.mul_comm (Z.of_nat w) 8).
  pose proof (le_combine_bound bs1) as B. rewrite Hl in B.
  rewrite lor_shiftl_add by lia. lia.
Qed.

(** X15. The reads are little-endian and compose: inside the view, the
    16-bit value at an offset is the byte there plus 2^8 times the byte
    after it, the 32-bit value is the 16-bit value there plus 2^16 times
    the 16-bit value two bytes on, and the 64-bit value is the 32-bit
    value there plus 2^32 times the 32-bit value four bytes on. *)
Theorem reads_compose_little_endian (view : Buffer) (offset : Z) :
  0 <= offset ->
  (offset + 2 <= Z.of_nat (length view) ->
   exists lo hi, readU8 view offset = Returns lo
                 /\ readU8 view (offset + 1) = Returns hi
                 /\ readU16 view offset = Returns (lo + 2 ^ 8 * hi))
  /\ (offset + 4 <= Z.of_nat (length view) ->
      exists lo hi, readU16 view offset = Returns lo
                    /\ readU16 view (offset + 2) = Returns hi
                    /\ readU32 view offset = Returns (lo + 2 ^ 16 * hi))
  /\ (offset + 8 <= Z.of_nat (length view) ->
      exists lo hi, readU32 view offset = Returns lo
                    /\ readU32 view (offset + 4) = Returns hi
                    /\ readU64 view offset = Returns (lo + 2 ^ 32 * hi)).
Proof.
  intros Ho. repeat split; intros Hb.
  - exact (getUnsigned_app view offset 1 Ho ltac:(cbn; lia)).
  - exact (getUnsigned_app view offset 2 Ho ltac:(cbn; lia)).
  - exact (getUnsigned_app view offset 4 Ho ltac:(cbn; lia)).
Qed.

Lemma reads_compose_little_endian_witness :
  let view := [Byte.x78; Byte.x56; Byte.x34; Byte.x12;
               Byte.xef; Byte.xcd; Byte.xab; Byte.x90] in
  (exists lo hi, readU8 view 0 = Returns lo
                 /\ readU8 view (0 + 1) = Returns hi
                 /\ readU16 view 0 = Returns (lo + 2 ^ 8 * hi))
  /\ (exists lo hi, readU16 view 0 = Returns lo
                    /\ readU16 view (0 + 2) = Returns hi
                    /\ readU32 view 0 = Returns (lo + 2 ^ 16 * hi))
  /\ (exists lo hi, readU32 view 0 = Returns lo
                    /\ readU32 view (0 + 4) = Returns hi
                    /\ readU64 view 0 = Returns (lo + 2 ^ 32 * hi)).
Proof.
  intros view.
  destruct (reads_compose_little_endian view 0) as (H16 & H32 & H64); [lia|].
  split; [apply H16; cbn; lia|]. split; [apply H32; cbn; lia|apply H64; cbn; lia].
Defined.

End DecoderFacts.

(** ** Polling, continued *)

(** The unfolding of the [while] loop, under a name that the generated
    equations of [poll_loop] do not hide. *)
Lemma poll_loop_step {T : Type} (observe : Z -> option (Polling.Settlement T))
      (maxIter : Z) (l : Polling.Locals T) :
  Polling.poll_loop observe maxIter l =
  if negb (Polling.resolved l) && (Polling.iterations l <? maxIter)
  then Polling.poll_loop observe maxIter (Polling.poll_body observe l)
  else l.
Proof. exact (poll_loop_unfold observe maxIter l). Qed.

Section PollingMore.
Import Layout DataView Encoder Polling Waiting.

Lemma poll_loop_quiet {T : Type} (observe : Z -> option (Settlement T)) (maxIter : Z) :
  forall (n : nat) (l : Locals T),
    Z.to_nat (maxIter - iterations l) = n ->
    resolved l = false ->
    (forall i, iterations l <= i < maxIter -> observe i = None) ->
    poll_loop observe maxIter l =
    mkLocals (Z.max (iterations l) maxIter) false (result l) (error l)
             (pumped l + (Z.max (iterations l) maxIter - iterations l)).
Proof.
  induction n as [|n IH]; intros [it res r e pu] Hn Hres Hq; cbn in Hn, Hres, Hq;
    subst res; rewrite poll_loop_step; cbn [resolved iterations negb andb].
  - destruct (it <? maxIter) eqn:E; [apply Z.ltb_lt in E; lia|].
    apply Z.ltb_ge in E. cbn. f_equal; lia.
  - destruct (it <? maxIter) eqn:E; [|apply Z.ltb_ge in E; lia].
    apply Z.ltb_lt in E. unfold poll_body. cbn [iterations].
    rewrite (Hq it) by lia. cbn.
    rewrite IH; cbn; try reflexivity; try lia; [f_equal; lia|].
    intros i Hi. apply Hq. lia.
Qed.

Lemma poll_loop_settles {T : Type} (observe : Z -> option (Settlement T)) (maxIter k : Z)
      (s : Settlement T) :
  observe k = Some s ->
  k < maxIter ->
  forall (n : nat) (l : Locals T),
    Z.to_nat (k - iterations l) = n ->
    iterations l <= k ->
    resolved l = false ->
    (forall i, iterations l <= i < k -> observe i = None) ->
    poll_loop observe maxIter l =
    deliver (Some s)
            (mkLocals (k + 1) false (result l) (error l)
                      (pumped l + (k + 1 - iterations l))).
Proof.
  intros Hs Hk.
  induction n as [|n IH]; intros [it res r e pu] Hn Hle Hres Hq; cbn in Hn, Hle, Hres, Hq;
    subst res; rewrite poll_loop_step; cbn [resolved iterations negb andb];
    (destruct (it <? maxIter) eqn:E; [|apply Z.ltb_ge in E; lia]);
    unfold poll_body; cbn [iterations].
  - assert (it = k) by lia. subst it. rewrite Hs.
    rewrite poll_loop_step.
    destruct s as [v|err]; cbn; f_equal; lia.
  - rewrite (Hq it) by lia. cbn.
    rewrite IH; cbn; try reflexivity; try lia.
    + destruct s as [v|err]; cbn; f_equal; lia.
    + intros i Hi. apply Hq. lia.
Qed.

(** X16. When the promise settles while the loop waits in iteration [k]
    (counting from 0) and [k] is below the budget, [pollUntilComplete]
    stops after [k + 1] iterations, having pumped the native event queue
    [k + 1] times, and returns the value the promise resolved with or
    throws the error it rejected with. *)
Theorem pollUntilComplete_settles (T : Type) (observe : Z -> option (Settlement T))
        (options : Options) (k : Z) (s : Settlement T) :
  let budget := match maxIterations options with Some n => n | None => 10000 end in
  0 <= k < budget ->
  observe k = Some s ->
  (forall i, 0 <= i < k -> observe i = None) ->
  fst (pollUntilComplete observe options) =
    match s with
    | SettledWith r => Returns (Some r)
    | RejectedWith e => Throws e
    end
  /\ iterations (snd (pollUntilComplete observe options)) = k + 1
  /\ pumped (snd (pollUntilComplete observe options)) = k + 1.
Proof.
  intros budget Hk Hs Hq. unfold pollUntilComplete. cbv zeta. fold budget.
  rewrite (poll_loop_settles observe budget k s Hs (proj2 Hk) _
             (mkLocals 0 false None None 0) eq_refl (proj1 Hk) eq_refl Hq).
  destruct s as [r|e]; cbn; repeat split; lia.
Qed.

Lemma pollUntilComplete_settles_witness :
  let observe := fun i : Z => if i =? 2 then Some (SettledWith 7) else None in
  fst (pollUntilComplete observe (mkOptions (Some 5) None)) = Returns (Some 7)
  /\ iterations (snd (pollUntilComplete observe (mkOptions (Some 5) None))) = 2 + 1
  /\ pumped (snd (pollUntilComplete observe (mkOptions (Some 5) None))) = 2 + 1.
Proof.
  intros observe.
  apply (pollUntilComplete_settles Z observe (mkOptions (Some 5) None) 2 (SettledWith 7)).
  - cbn. lia.
  - reflexivity.
  - intros i Hi. unfold observe. destruct (i =? 2) eqn:E; [apply Z.eqb_eq in E; lia|].
    reflexivity.
Defined.

(** X17. A settlement that comes too late is not seen: when the promise
    does not settle during the waits of the first [maxIterations]
    iterations, [pollUntilComplete] throws the timeout error after
    exactly that many iterations, whatever happens to the promise later.
    With a budget of 0 or less it throws at once, without pumping the
    event queue, also for a promise that has already settled. *)
Theorem pollUntilComplete_misses_late_settlement
        (T : Type) (observe : Z -> option (Settlement T)) (options : Options) :
  let budget := match maxIterations options with Some n => n | None => 10000 end in
  ((forall i, 0 <= i < budget -> observe i = None) ->
   pollUntilComplete observe options =
   (Throws (Error ("Polling timed out after " ++ decimal (Z.max 0 budget)
                     ++ " iterations")),
    mkLocals (Z.max 0 budget) false None None (Z.max 0 budget)))
  /\ (budget <= 0 ->
      pollUntilComplete observe options =
      (Throws (Error "Polling timed out after 0 iterations"),
       mkLocals 0 false None None 0)).
Proof.
  intros budget.
  assert (H : (forall i, 0 <= i < budget -> observe i = None) ->
              pollUntilComplete observe options =
              (Throws (Error ("Polling timed out after " ++ decimal (Z.max 0 budget)
                                ++ " iterations")),
               mkLocals (Z.max 0 budget) false None None (Z.max 0 budget))).
  { intros Hq. unfold pollUntilComplete. cbv zeta. fold budget.
    rewrite (poll_loop_quiet observe budget _ (mkLocals 0 false None None 0)
               eq_refl eq_refl Hq).
    cbn. do 2 f_equal. lia. }
  split; [exact H|].
  intros Hb. rewrite H by (intros i Hi; lia).
  replace (Z.max 0 budget) with 0 by lia. reflexivity.
Qed.

Lemma pollUntilComplete_misses_late_settlement_witness :
  let observe := fun i : Z => if i <? 3 then None else Some (SettledWith 7) in
  pollUntilComplete observe (mkOptions (Some 3) None) =
  (Throws (Error ("Polling timed out after " ++ decimal (Z.max 0 3) ++ " iterations")),
   mkLocals (Z.max 0 3) false None None (Z.max 0 3))
  /\ pollUntilComplete (fun _ : Z => Some (SettledWith 7)) (mkOptions (Some 0) None) =
     (Throws (Error "Polling timed out after 0 iterations"),
      mkLocals 0 false None None 0).
Proof.
  intros observe. split.
  - apply (proj1 (pollUntilComplete_misses_late_settlement
                    Z observe (mkOptions (Some 3) None))).
    intros i Hi. unfold observe. cbn in Hi.
    destruct (i <? 3) eqn:E; [reflexivity|apply Z.ltb_ge in E; lia].
  - apply (proj2 (pollUntilComplete_misses_late_settlement
                    Z (fun _ : Z => Some (SettledWith 7)) (mkOptions (Some 0) None))).
    cbn. lia.
Defined.

(** X18. The struct [waitAny] fills in by hand is the one the layout
    engine and the encoder produce for [WGPUFutureWaitInfo]: 16 bytes,
    the future's id at offset 0 and [completed] false at offset 8. It
    reads back as the id modulo 2^64 and [false], and [waitAny] returns
    the status of the native call on these bytes. *)
Theorem waitAny_matches_layout (futureId : Z) :
  sl_size WGPUFutureWaitInfo = 16
  /\ exists buffer,
      waitInfo futureId = Returns buffer
      /\ encodeFields (sl_fields WGPUFutureWaitInfo)
           [ ("future"%string, VRec [("id"%string, VPrim (SBig futureId))]);
             ("completed"%string, VPrim (SBool false)) ]
           (repeat Byte.x00 16) = Returns buffer
      /\ readU64 buffer 0 = Returns (futureId mod 2 ^ 64)
      /\ readBool buffer 8 = Returns false
      /\ forall native instance timeoutNs,
          waitAny native instance futureId timeoutNs =
          Returns (native instance 1 buffer timeoutNs).
Proof.
  split; [reflexivity|].
  assert (W : exists view, setBigUint64 (repeat Byte.x00 16) 0 futureId = Returns view
                           /\ load view 0 8 = Returns (le_split 8 futureId)
                           /\ setUint32 view 8 (SNum 0) =
                              Returns (le_split 8 futureId ++ repeat Byte.x00 8)).
  { eexists. split; [reflexivity|]. split; reflexivity. }
  destruct W as (view & W1 & L & W2).
  exists (le_split 8 futureId ++ repeat Byte.x00 8).
  assert (Hw : waitInfo futureId = Returns (le_split 8 futureId ++ repeat Byte.x00 8)).
  { unfold waitInfo.
    rewrite ArrayBuffer_new_returns by (unfold MAX_SAFE_INTEGER; lia). cbn [bind].
    change (Z.to_nat 16) with 16%nat. rewrite W1. cbn [bind]. exact W2. }
  split; [exact Hw|]. split; [reflexivity|]. split; [|split].
  - unfold readU64, getBigUint64.
    apply (getUnsigned_of_load 8). reflexivity.
  - reflexivity.
  - intros native instance timeoutNs. unfold waitAny. now rewrite Hw.
Qed.

End PollingMore.

(** ** Callback registry, continued *)

Section BridgeFacts.
Import Layout DataView Encoder Registry Bridge.

Lemma keys_Map_delete (m : list (Z * PendingCallback)) (t k : Z) :
  In k (map fst (Map_delete m t)) <-> In k (map fst m) /\ k <> t.
Proof.
  split.
  - intros H. apply in_map_iff in H. destruct H as ([k' q] & Hk & Hq). cbn in Hk. subst k'.
    apply In_Map_delete in Hq. destruct Hq as [Hq Hne]. split; [|assumption].
    apply in_map_iff. now exists (k, q).
  - intros [H Hne]. apply in_map_iff in H. destruct H as ([k' q] & Hk & Hq).
    cbn in Hk. subst k'. apply in_map_iff. exists (k, q). split; [reflexivity|].
    apply In_Map_delete. auto.
Qed.

Lemma Map_get_Some_key (m : list (Z * PendingCallback)) (k : Z) :
  In k (map fst m) -> exists p, Map_get m k = Some p.
Proof.
  intros H. destruct (Map_get m k) as [p|] eqn:E; [eauto|].
  apply Map_get_None in E. contradiction.
Qed.

Lemma invocations_count (st : State) (k : Z) :
  invocations st k = count_occ Z.eq_dec (map call_promise (calls st)) k.
Proof.
  unfold invocations. induction (calls st) as [|c l IH]; cbn; [reflexivity|].
  destruct (call_promise c =? k) eqn:E; destruct (Z.eq_dec (call_promise c) k) as [D|D];
    try (apply Z.eqb_eq in E; contradiction);
    try (apply Z.eqb_neq in E; contradiction);
    cbn; now rewrite IH.
Qed.

(** The registry after a trampoline consumed the pending token [t]. *)
Lemma Kept_consumed (b : bool) (st : State) (t : Z) (p : PendingCallback)
      (s : PromiseState) (c : Call) :
  Kept b st ->
  Map_get (pending st) t = Some p ->
  s <> Pending ->
  call_promise c = t ->
  Kept b (mkState (Map_delete (pending st) t) (nextId st) (settle (promises st) t s)
                  (calls st ++ [c]) (timers st ++ [t]) (closed st)).
Proof.
  intros K Hget Hs Hc. pose proof (kept_inv b st K) as I.
  pose proof (Map_get_In _ _ _ Hget) as Hin.
  destruct (inv_entries st I _ _ Hin) as (Hlt & Hp & Hpend).
  assert (Hkey : In t (map fst (pending st))) by (apply in_map_iff; now exists (t, p)).
  pose proof (kept_tokens b st K t Hkey) as Ht1.
  constructor; cbn [pending nextId promises calls timers closed].
  - constructor; cbn [pending nextId promises calls timers closed].
    + apply NoDup_keys_filter. exact (inv_keys st I).
    + intros k q Hq. apply In_Map_delete in Hq. destruct Hq as [Hq Hne].
      destruct (inv_entries st I _ _ Hq) as (H1 & H2 & H3). repeat split; auto.
      rewrite settle_state, H3.
      destruct (k =? t) eqn:E; [apply Z.eqb_eq in E; contradiction|reflexivity].
    + intros k Hk. rewrite settle_keys in Hk. exact (inv_promises st I k Hk).
    + intros k Hk Hcall. apply keys_Map_delete in Hk. destruct Hk as [Hk Hne].
      rewrite map_app in Hcall. apply in_app_or in Hcall. destruct Hcall as [Hcall|Hcall].
      * exact (inv_fresh st I k Hk Hcall).
      * cbn in Hcall. destruct Hcall as [E|[]]. congruence.
    + rewrite map_app. apply NoDup_snoc; [exact (inv_calls st I)|].
      cbn. rewrite Hc. exact (inv_fresh st I t Hkey).
    + intros d Hd. apply in_app_or in Hd. destruct Hd as [Hd|[<-|[]]].
      * exact (inv_bound st I d Hd).
      * lia.
  - exact (kept_first b st K).
  - intros k q Hq. apply In_Map_delete in Hq. destruct Hq as [Hq _].
    exact (kept_callbacks b st K k q Hq).
  - intros k Hk. rewrite <- app_assoc in Hk. apply in_app_or in Hk.
    destruct Hk as [Hk|Hk].
    + apply (kept_released b st K). apply in_or_app. now left.
    + cbn in Hk. destruct Hk as [<-|Hk]; [lia|].
      apply (kept_released b st K). apply in_or_app. now right.
  - intros k Hk. apply keys_Map_delete in Hk. destruct Hk as [Hk _].
    exact (kept_tokens b st K k Hk).
  - intros d Hd. apply in_app_or in Hd. destruct Hd as [Hd|[<-|[]]].
    + exact (kept_called b st K d Hd).
    + lia.
  - intros k Hk. pose proof (kept_accounted b st K k Hk) as A.
    unfold untouched, consumed, dropped, releases in *. rewrite !invocations_count in *.
    cbn [pending promises calls timers closed] in *.
    rewrite map_app, !count_occ_app in *. cbn [map count_occ].
    rewrite settle_state, keys_Map_delete, Hc.
    destruct (Z.eq_dec t k) as [E|E].
    + subst k. right. left.
      destruct A as [(A1 & A2 & A3 & A4)|[(A1 & _)|(_ & A1 & _)]]; try contradiction.
      rewrite A3, Z.eqb_refl. repeat split.
      * tauto.
      * lia.
      * eauto.
      * lia.
    + assert (E' : (k =? t) = false) by (apply Z.eqb_neq; congruence).
      destruct A as [(A1 & A2 & A3 & A4)
                    |[(A1 & A2 & (s' & A3 & A3') & A4)|(Hb & A1 & A2 & A3 & A4)]].
      * left. rewrite A3, E'. repeat split; auto; lia.
      * right. left. rewrite A3. repeat split.
        -- tauto.
        -- lia.
        -- exists s'. split; [|assumption]. destruct s'; congruence.
        -- lia.
      * right. right. rewrite A3, E'. repeat split; auto; try lia. tauto.
Qed.

(** The registry after a trampoline removed the pending token [t] and
    threw. *)
Lemma Kept_dropped (st : State) (t : Z) (p : PendingCallback) :
  Kept false st ->
  Map_get (pending st) t = Some p ->
  Kept false (mkState (Map_delete (pending st) t) (nextId st) (promises st)
                      (calls st) (timers st) (closed st)).
Proof.
  intros K Hget. pose proof (kept_inv false st K) as I.
  pose proof (Map_get_In _ _ _ Hget) as Hin.
  constructor; cbn [pending nextId promises calls timers closed].
  - constructor; cbn [pending nextId promises calls timers closed].
    + apply NoDup_keys_filter. exact (inv_keys st I).
    + intros k q Hq. apply In_Map_delete in Hq. destruct Hq as [Hq Hne].
      exact (inv_entries st I _ _ Hq).
    + exact (inv_promises st I).
    + intros k Hk Hcall. apply keys_Map_delete in Hk. destruct Hk as [Hk Hne].
      exact (inv_fresh st I k Hk Hcall).
    + exact (inv_calls st I).
    + exact (inv_bound st I).
  - exact (kept_first false st K).
  - intros k q Hq. apply In_Map_delete in Hq. destruct Hq as [Hq _].
    exact (kept_callbacks false st K k q Hq).
  - exact (kept_released false st K).
  - intros k Hk. apply keys_Map_delete in Hk. destruct Hk as [Hk _].
    exact (kept_tokens false st K k Hk).
  - exact (kept_called false st K).
  - intros k Hk. pose proof (kept_accounted false st K k Hk) as A.
    unfold untouched, consumed, dropped, releases, invocations in *.
    cbn [pending promises calls timers closed] in *.
    rewrite keys_Map_delete.
    destruct A as [(A1 & A2 & A3 & A4)|[(A1 & A2 & A3 & A4)|(Hb & A1 & A2 & A3 & A4)]].
    + destruct (Z.eq_dec k t) as [E|E].
      * right. right. repeat split; auto. tauto.
      * left. repeat split; auto.
    + right. left. repeat split; auto. tauto.
    + right. right. repeat split; auto. tauto.
Qed.

Lemma Kept_new (b : bool) : Kept b new_registry.
Proof.
  constructor; cbn; try (intros; contradiction); [apply Inv_new|lia|].
  intros k Hk. lia.
Qed.

Lemma Kept_loose (st : State) : Kept true st -> Kept false st.
Proof.
  intros K. constructor.
  - exact (kept_inv true st K).
  - exact (kept_first true st K).
  - exact (kept_callbacks true st K).
  - exact (kept_released true st K).
  - exact (kept_tokens true st K).
  - exact (kept_called true st K).
  - intros k Hk. destruct (kept_accounted true st K k Hk) as [A|[A|[A _]]];
      [now left|now right; left|discriminate].
Qed.

Lemma Kept_trampoline (b : bool) (kind : Kind) (mem : Z -> byte) (st : State)
      (status payload messageData messageLength token : Z) :
  Kept b st ->
  (b = true -> reads_message status messageData messageLength = false) ->
  Kept b (trampoline kind mem st status payload messageData messageLength token).
Proof.
  intros K Hq. rewrite trampoline_eq.
  destruct (Map_get (pending st) token) as [p|] eqn:E; [|assumption].
  pose proof (Map_get_In _ _ _ E) as Hin.
  destruct (inv_entries st (kept_inv b st K) _ _ Hin) as (_ & Hp & _).
  destruct (outcome_of kind status payload messageData messageLength) as [s|] eqn:O.
  - rewrite (kept_callbacks b st K _ _ Hin), Hp.
    apply (Kept_consumed b st token p); auto.
    + exact (outcome_of_settled _ _ _ _ _ _ O).
    + now destruct s.
  - apply outcome_of_reads in O. destruct b.
    + rewrite Hq in O by reflexivity. discriminate.
    + now apply (Kept_dropped st token p).
Qed.

Lemma Kept_register (b : bool) (st : State) : Kept b st -> Kept b (register st).
Proof.
  intros K. pose proof (kept_inv b st K) as I.
  pose proof (register_pending st I) as Hp.
  pose proof (kept_first b st K) as H1.
  assert (Hfresh : ~ In (nextId st) (map fst (promises st))).
  { intros Hin. apply (inv_promises st I) in Hin. lia. }
  constructor.
  - now apply Inv_register.
  - cbn. lia.
  - intros k p Hin. rewrite Hp in Hin. apply in_app_or in Hin.
    destruct Hin as [Hin|[[= <- <-]|[]]]; [exact (kept_callbacks b st K k p Hin)|reflexivity].
  - intros k Hk. cbn [register timers closed nextId] in *.
    apply (kept_released b st K) in Hk. lia.
  - intros k Hk. rewrite Hp, map_app in Hk. apply in_app_or in Hk. cbn in Hk.
    destruct Hk as [Hk|[<-|[]]]; [exact (kept_tokens b st K k Hk)|lia].
  - intros c Hc. exact (kept_called b st K c Hc).
  - intros k Hk. unfold untouched, consumed, dropped, releases.
    rewrite !invocations_count, Hp.
    cbn [register nextId promises calls timers closed] in *.
    rewrite promise_state_app_new by assumption. rewrite map_app, in_app_iff. cbn [map In fst].
    destruct (Z.eq_dec k (nextId st)) as [E|E].
    + subst k. left. rewrite Z.eqb_refl. repeat split.
      * right. now left.
      * apply count_occ_not_In. intros Hin. apply in_map_iff in Hin.
        destruct Hin as (c & Hc & Hin). apply (inv_bound st I) in Hin. lia.
      * apply count_occ_not_In. intros Hin. apply (kept_released b st K) in Hin. lia.
    + assert (E' : (k =? nextId st) = false) by (apply Z.eqb_neq; congruence).
      rewrite E'. pose proof (kept_accounted b st K k ltac:(lia)) as A.
      unfold untouched, consumed, dropped, releases in A.
      rewrite !invocations_count in A.
      destruct A as [(A1 & A2 & A3 & A4)|[(A1 & A2 & A3 & A4)|(Hb & A1 & A2 & A3 & A4)]].
      * left. repeat split; auto.
      * right. left. repeat split; auto.
        intros [Hin|[Hin|[]]]; [contradiction|congruence].
      * right. right. repeat split; auto.
        intros [Hin|[Hin|[]]]; [contradiction|congruence].
Qed.

Lemma cleanup_loop_release (l : list (Z * PendingCallback)) :
  forall st,
    timers (fold_left cleanup_step l st) = timers st
    /\ closed (fold_left cleanup_step l st)
       = closed st ++ map (fun e => pc_jsCallback (snd e)) l.
Proof.
  induction l as [|e l IH]; intros st; cbn [fold_left map].
  - now rewrite app_nil_r.
  - destruct (IH (cleanup_step st e)) as [H1 H2]. rewrite H1, H2.
    cbn [cleanup_step reject timers closed]. now rewrite <- app_assoc.
Qed.

Lemma cleanup_eq (b : bool) (st : State) :
  Kept b st ->
  cleanup st =
  mkState [] (nextId st)
          (fold_left (fun ps e => settle ps (pc_promise (snd e)) (Rejected shutdown))
                     (pending st) (promises st))
          (calls st ++ map (fun e => CallReject (pc_promise (snd e)) shutdown) (pending st))
          (timers st)
          (closed st ++ map fst (pending st)).
Proof.
  intros K. unfold cleanup.
  destruct (cleanup_loop (pending st) st) as (_ & H2 & H3 & H4). cbv zeta in *.
  destruct (cleanup_loop_release (pending st) st) as [H5 H6].
  rewrite H2, H3, H4, H5, H6. do 2 f_equal.
  apply map_ext_in. intros [k p] Hin. cbn. exact (kept_callbacks b st K k p Hin).
Qed.

Lemma Kept_cleanup (b : bool) (st : State) : Kept b st -> Kept b (cleanup st).
Proof.
  intros K. pose proof (kept_inv b st K) as I.
  assert (Hids : map call_promise
                     (map (fun e => CallReject (pc_promise (snd e)) shutdown) (pending st))
                 = map fst (pending st)).
  { rewrite map_map. apply map_ext_in. intros [k p] Hin. cbn.
    now destruct (inv_entries st I k p Hin) as (_ & -> & _). }
  assert (Hno : forall k, ~ In k (map fst (pending st)) ->
                          existsb (fun e => pc_promise (snd e) =? k) (pending st) = false).
  { intros k Hk. destruct (existsb _ (pending st)) eqn:X; [|reflexivity].
    apply existsb_exists in X. destruct X as ([k' p] & Hin & Hp). cbn in Hp.
    apply Z.eqb_eq in Hp. destruct (inv_entries st I k' p Hin) as (_ & Hp' & _).
    exfalso. apply Hk. apply in_map_iff. exists (k', p). split; [cbn; congruence|assumption]. }
  constructor; [now apply Inv_cleanup|rewrite (cleanup_eq b st K)..];
    cbn [pending nextId promises calls timers closed].
  - exact (kept_first b st K).
  - intros k p [].
  - intros k Hk. rewrite app_assoc in Hk. apply in_app_or in Hk. destruct Hk as [Hk|Hk].
    + exact (kept_released b st K k Hk).
    + pose proof (kept_tokens b st K k Hk) as H1.
      apply in_map_iff in Hk. destruct Hk as ([k' p] & Hk' & Hin). cbn in Hk'. subst k'.
      destruct (inv_entries st I k p Hin) as (Hlt & _). lia.
  - intros k [].
  - intros c Hc. apply in_app_or in Hc. destruct Hc as [Hc|Hc].
    + exact (kept_called b st K c Hc).
    + apply in_map_iff in Hc. destruct Hc as ([k p] & <- & Hin). cbn.
      destruct (inv_entries st I k p Hin) as (_ & -> & _).
      apply (kept_tokens b st K). apply in_map_iff. now exists (k, p).
  - intros k Hk. pose proof (kept_accounted b st K k Hk) as A.
    unfold untouched, consumed, dropped, releases in *. rewrite !invocations_count in *.
    cbn [pending promises calls timers closed map In] in *.
    rewrite map_app, Hids, app_assoc, !count_occ_app, settle_all_state.
    rewrite count_occ_app in A.
    destruct A as [(A1 & A2 & A3 & A4)
                  |[(A1 & A2 & (s & A3 & A3') & A4)|(Hb & A1 & A2 & A3 & A4)]].
    + right. left.
      assert (Hone : count_occ Z.eq_dec (map fst (pending st)) k = 1%nat)
        by (apply NoDup_count_occ'; [exact (inv_keys st I)|assumption]).
      rewrite A3, Hone.
      assert (He : existsb (fun e => pc_promise (snd e) =? k) (pending st) = true).
      { apply in_map_iff in A1. destruct A1 as ([k' p] & Hk' & Hin). cbn in Hk'. subst k'.
        apply existsb_exists. exists (k, p). split; [assumption|]. cbn.
        destruct (inv_entries st I k p Hin) as (_ & -> & _). apply Z.eqb_refl. }
      rewrite He. split; [tauto|]. split; [lia|].
      split; [eexists; split; [reflexivity|discriminate]|lia].
    + right. left.
      assert (Hzero : count_occ Z.eq_dec (map fst (pending st)) k = 0%nat)
        by (now apply count_occ_not_In).
      rewrite A3, Hzero. split; [tauto|]. split; [lia|].
      split; [exists s; split; [now destruct s|assumption]|lia].
    + right. right.
      assert (Hzero : count_occ Z.eq_dec (map fst (pending st)) k = 0%nat)
        by (now apply count_occ_not_In).
      rewrite A3, Hzero, (Hno k A1). split; [assumption|]. split; [tauto|].
      split; [lia|]. split; [reflexivity|lia].
Qed.

Lemma Kept_steps (b : bool) (es : list Event) :
  (b = true -> Forall quiet es) ->
  forall st, Kept b st -> Kept b (steps es st).
Proof.
  unfold steps. induction es as [|e es IH]; intros Hq st K; cbn [fold_left];
    [assumption|].
  apply IH.
  - intros Hb. specialize (Hq Hb). now inversion Hq.
  - destruct e; cbn [step].
    + now apply Kept_register.
    + apply Kept_trampoline; [assumption|].
      intros Hb. specialize (Hq Hb). now inversion Hq.
    + now apply Kept_cleanup.
Qed.

End BridgeFacts.

(** ** Callback registry: further properties *)

Section BridgeClaims.
Import Layout DataView Encoder Registry Bridge.

(** X19. Success path of each pointer trampoline (adapter, device,
    compute pipeline, render pipeline): fired with status Success for a
    pending token whose promise is pending, it fulfils that promise with
    exactly the payload pointer it was handed, removes the token, logs
    one resolver call and schedules one release of the trampoline. *)
Theorem trampoline_success_resolves_with_payload
        (kind : Kind) (mem : Z -> byte) (st : State) (token : Z) (p : PendingCallback)
        (payload messageData messageLength : Z) :
  Map_get (pending st) token = Some p ->
  promise_state (promises st) (pc_promise p) = Some Pending ->
  let st' := trampoline kind mem st 1 payload messageData messageLength token in
  promise_state (promises st') (pc_promise p) = Some (Fulfilled payload)
  /\ Map_get (pending st') token = None
  /\ calls st' = calls st ++ [CallResolve (pc_promise p) payload]
  /\ timers st' = timers st ++ [pc_jsCallback p]
  /\ closed st' = closed st.
Proof.
  intros Hget Hpend st'. subst st'. rewrite trampoline_eq, Hget.
  unfold outcome_of. cbn [Z.eqb Pos.eqb]. cbn [pending promises calls timers closed].
  rewrite settle_state, Hpend, Z.eqb_refl, Map_get_delete_same. auto.
Qed.

Lemma trampoline_success_resolves_with_payload_witness :
  let st' := trampoline Device (memory_with 4096 "boom") (register new_registry)
                        1 777 0 0 1 in
  promise_state (promises st') (pc_promise (mkPendingCallback 1 1))
  = Some (Fulfilled 777)
  /\ Map_get (pending st') 1 = None
  /\ calls st' = calls (register new_registry)
                 ++ [CallResolve (pc_promise (mkPendingCallback 1 1)) 777]
  /\ timers st' = timers (register new_registry) ++ [pc_jsCallback (mkPendingCallback 1 1)]
  /\ closed st' = closed (register new_registry).
Proof.
  apply (trampoline_success_resolves_with_payload
           Device (memory_with 4096 "boom") (register new_registry) 1
           (mkPendingCallback 1 1) 777 0 0); reflexivity.
Defined.

(** X20. Failure path of each pointer trampoline without a usable
    message: fired with a status other than Success, it rejects the
    promise with "Failed to <operation> (status <status>): " followed by
    "Unknown error" when the message length is 0 or less, and by nothing
    when the length is positive but the message pointer is null. *)
Theorem trampoline_failure_without_message
        (kind : Kind) (mem : Z -> byte) (st : State) (token : Z) (p : PendingCallback)
        (status payload messageData messageLength : Z) :
  Map_get (pending st) token = Some p ->
  promise_state (promises st) (pc_promise p) = Some Pending ->
  status <> 1 ->
  let st' := trampoline kind mem st status payload messageData messageLength token in
  (messageLength <= 0 ->
   promise_state (promises st') (pc_promise p) =
   Some (Rejected (Error ("Failed to " ++ failed_to kind ++ " (status " ++ decimal status
                            ++ "): Unknown error"))))
  /\ (0 < messageLength -> messageData = 0 ->
      promise_state (promises st') (pc_promise p) =
      Some (Rejected (Error ("Failed to " ++ failed_to kind ++ " (status "
                               ++ decimal status ++ "): "))))
  /\ Map_get (pending st') token = None.
Proof.
  intros Hget Hpend Hstatus st'. subst st'. rewrite trampoline_eq, Hget.
  unfold outcome_of. apply Z.eqb_neq in Hstatus. rewrite Hstatus.
  split; [|split].
  - intros Hl. destruct (0 <? messageLength) eqn:E; [apply Z.ltb_lt in E; lia|].
    cbn [promises]. now rewrite settle_state, Hpend, Z.eqb_refl.
  - intros Hl ->. apply Z.ltb_lt in Hl. rewrite Hl. cbn [Z.eqb promises].
    now rewrite settle_state, Hpend, Z.eqb_refl.
  - destruct (0 <? messageLength); [destruct (messageData =? 0)|];
      cbn [pending]; apply Map_get_delete_same.
Qed.

Lemma trampoline_failure_without_message_witness :
  let st' := trampoline ComputePipeline (memory_with 4096 "boom") (register new_registry)
                        3 0 0 0 1 in
  promise_state (promises st') (pc_promise (mkPendingCallback 1 1)) =
  Some (Rejected (Error ("Failed to " ++ failed_to ComputePipeline ++ " (status "
                           ++ decimal 3 ++ "): Unknown error"))).
Proof.
  apply (trampoline_failure_without_message
           ComputePipeline (memory_with 4096 "boom") (register new_registry) 1
           (mkPendingCallback 1 1) 3 0 0 0); [reflexivity|reflexivity|discriminate|lia].
Defined.

(** X21. The pending map is shared by all trampolines: a token that is
    not pending is ignored by each of them, and once any trampoline has
    run for a token, a later invocation of any trampoline with that
    token, whatever its other arguments, changes nothing. *)
Theorem consumed_token_is_ignored_by_every_trampoline :
  (forall kind mem st status payload messageData messageLength token,
      Map_get (pending st) token = None ->
      trampoline kind mem st status payload messageData messageLength token = st)
  /\ (forall kind kind' mem mem' st status payload messageData messageLength
             status' payload' messageData' messageLength' token,
         let st' := trampoline kind mem st status payload messageData messageLength token in
         trampoline kind' mem' st' status' payload' messageData' messageLength' token = st').
Proof.
  assert (H : forall kind mem st status payload messageData messageLength token,
             Map_get (pending st) token = None ->
             trampoline kind mem st status payload messageData messageLength token = st).
  { intros. rewrite trampoline_eq. now rewrite H. }
  split; [exact H|].
  intros. apply H. subst st'. apply trampoline_removes.
Qed.

Lemma consumed_token_is_ignored_by_every_trampoline_witness :
  trampoline RenderPipeline (memory_with 4096 "boom") new_registry 1 5 0 0 9 = new_registry.
Proof.
  apply (proj1 consumed_token_is_ignored_by_every_trampoline). reflexivity.
Defined.




Lemma length_Map_delete (m : list (Z * PendingCallback)) (t : Z) :
  NoDup (map fst m) ->
  Z.of_nat (length (Map_delete m t)) =
  if Map_has m t then Z.of_nat (length m) - 1 else Z.of_nat (length m).
Proof.
  unfold Map_delete, Map_has. induction m as [|[k p] m IH]; intros H; [reflexivity|].
  cbn [map fst] in H. inversion H as [|? ? Hn Hm]; subst. specialize (IH Hm).
  cbn [filter existsb fst]. destruct (k =? t) eqn:E; cbn [negb orb].
  - apply Z.eqb_eq in E. subst k.
    assert (Hf : existsb (fun kv => fst kv =? t) m = false).
    { destruct (existsb _ m) eqn:X; [|reflexivity]. apply existsb_exists in X.
      destruct X as ([k q] & Hin & Hk). cbn in Hk. apply Z.eqb_eq in Hk. subst k.
      exfalso. apply Hn. apply in_map_iff. now exists (t, q). }
    rewrite Hf in IH. rewrite IH. cbn [length]. lia.
  - cbn [length]. destruct (existsb _ m); lia.
Qed.

(** X23. [pendingCount] counts the operations in flight. In a registry
    reached from a new one a registration raises it by 1, a trampoline
    invocation lowers it by 1 when its token is pending and leaves it
    alone otherwise, and [cleanup] sets it to 0; [hasPending] says
    whether it is positive. *)
Theorem pendingCount_counts_operations_in_flight (es : list Event) (e : Event) :
  let st := steps es new_registry in
  pendingCount (step st e) =
    match e with
    | Create => pendingCount st + 1
    | Fire _ _ _ _ _ _ token =>
        if Map_has (pending st) token then pendingCount st - 1 else pendingCount st
    | Cleanup => 0
    end
  /\ hasPending (step st e) = (0 <? pendingCount (step st e))
  /\ 0 <= pendingCount (step st e).
Proof.
  cbv zeta. set (st := steps es new_registry).
  assert (K : Kept false st)
    by (apply Kept_steps; [discriminate|apply Kept_new]).
  split; [|split; [reflexivity|unfold pendingCount, Map_size; lia]].
  unfold pendingCount, Map_size. destruct e; cbn [step].
  - rewrite (register_pending st (kept_inv _ st K)), length_app. cbn [length]. lia.
  - rewrite trampoline_pending.
    pose proof (length_Map_delete (pending st) userdata1 (inv_keys st (kept_inv _ st K))) as L.
    exact L.
  - reflexivity.
Qed.

Lemma promise_state_key (ps : list (Z * PromiseState)) (p : Z) (s : PromiseState) :
  promise_state ps p = Some s -> In p (map fst ps).
Proof.
  unfold promise_state. destruct (find _ ps) as [[k v]|] eqn:E; [|discriminate].
  intros _. apply find_some in E. destruct E as [Hin Hk]. cbn in Hk.
  apply Z.eqb_eq in Hk. subst k. apply in_map_iff. now exists (p, v).
Qed.

Lemma step_keeps_settled (st : State) (e : Event) (p : Z) (s : PromiseState) :
  Kept false st ->
  promise_state (promises st) p = Some s -> s <> Pending ->
  promise_state (promises (step st e)) p = Some s.
Proof.
  intros K Hp Hs. pose proof (kept_inv _ st K) as I. destruct e; cbn [step].
  - cbn [register promises]. rewrite promise_state_app_new.
    + pose proof (inv_promises st I p (promise_state_key _ _ _ Hp)) as Hlt.
      destruct (p =? nextId st) eqn:E; [apply Z.eqb_eq in E; lia|assumption].
    + intros Hin. apply (inv_promises st I) in Hin. lia.
  - rewrite trampoline_eq. destruct (Map_get (pending st) userdata1); [|assumption].
    destruct (outcome_of kind status payload messageData messageLength);
      cbn [promises]; [|assumption].
    rewrite settle_state, Hp. now destruct s.
  - rewrite (cleanup_eq _ st K). cbn [promises]. rewrite settle_all_state, Hp.
    now destruct s.
Qed.

(** X24. A settled promise stays as it is: once the promise of an
    operation is fulfilled or rejected, no later registration, trampoline
    invocation (a late or duplicate native callback) or cleanup changes
    its state. *)
Theorem settled_promise_never_changes (es es' : list Event) (p : Z) (s : PromiseState) :
  let st := steps es new_registry in
  promise_state (promises st) p = Some s ->
  s <> Pending ->
  promise_state (promises (steps es' st)) p = Some s.
Proof.
  cbv zeta. intros Hp Hs.
  assert (K : Kept false (steps es new_registry))
    by (apply Kept_steps; [discriminate|apply Kept_new]).
  revert K Hp. generalize (steps es new_registry). clear es.
  unfold steps. induction es' as [|e es' IH]; intros st K Hp; cbn [fold_left];
    [assumption|].
  apply IH.
  - destruct e; cbn [step];
      [now apply Kept_register
      |apply Kept_trampoline; [assumption|discriminate]
      |now apply Kept_cleanup].
  - now apply step_keeps_settled.
Qed.

Lemma settled_promise_never_changes_witness :
  promise_state
    (promises
       (steps [Fire Device (memory_with 4096 "boom") 4 0 4096 4 1; Cleanup; Create]
              (steps [Create; Fire Adapter (memory_with 4096 "boom") 1 99 0 0 1]
                     new_registry))) 1
  = Some (Fulfilled 99).
Proof.
  apply (settled_promise_never_changes
           [Create; Fire Adapter (memory_with 4096 "boom") 1 99 0 0 1]
           [Fire Device (memory_with 4096 "boom") 4 0 4096 4 1; Cleanup; Create]
           1 (Fulfilled 99)); [reflexivity|discriminate].
Defined.

(** X27. A failure with a message drops the token. When one of the
    four trampolines is invoked for a pending token with a status other
    than Success and a message of positive length at a non-null
    address, the invocation throws a TypeError after the token was
    removed from the pending map: the registry is left with the token
    removed and nothing else changed, so the promise is not settled, no
    rejecter is invoked and no [close] is scheduled. In every other case
    the invocation throws nothing. *)
Theorem failure_with_message_drops_the_token
        (kind : Kind) (mem : Z -> byte) (st : State)
        (status payload messageData messageLength token : Z) :
  (forall p,
      Map_get (pending st) token = Some p ->
      status <> 1 -> 0 < messageLength -> messageData <> 0 ->
      trampoline_invoke kind mem st status payload messageData messageLength token =
      (mkState (Map_delete (pending st) token) (nextId st) (promises st) (calls st)
               (timers st) (closed st),
       Some TypeError))
  /\ (Map_get (pending st) token = None
      \/ status = 1 \/ messageLength <= 0 \/ messageData = 0 ->
      snd (trampoline_invoke kind mem st status payload messageData messageLength token)
      = None).
Proof.
  rewrite trampoline_invoke_eq, trampoline_eq. split.
  - intros p Hget Hs Hl Hd. rewrite Hget.
    assert (R : reads_message status messageData messageLength = true).
    { unfold reads_message. apply Z.eqb_neq in Hs, Hd. apply Z.ltb_lt in Hl.
      now rewrite Hs, Hl, Hd. }
    rewrite R. apply outcome_of_reads with (kind := kind) (payload := payload) in R.
    now rewrite R.
  - intros H. cbn [snd]. destruct (Map_get (pending st) token); [|reflexivity].
    destruct H as [H|H]; [discriminate|].
    unfold reads_message.
    destruct H as [-> |[H| ->]]; [reflexivity| |now rewrite andb_false_r].
    destruct (0 <? messageLength) eqn:E; [apply Z.ltb_lt in E; lia|].
    now rewrite andb_false_r.
Qed.

Lemma failure_with_message_drops_the_token_witness :
  trampoline_invoke RenderPipeline (memory_with 4096 "boom") (register new_registry)
                    2 0 4096 4 1
  = (mkState (Map_delete (pending (register new_registry)) 1)
             (nextId (register new_registry)) (promises (register new_registry))
             (calls (register new_registry)) (timers (register new_registry))
             (closed (register new_registry)),
     Some TypeError).
Proof.
  apply (proj1 (failure_with_message_drops_the_token
                  RenderPipeline (memory_with 4096 "boom") (register new_registry)
                  2 0 4096 4 1) (mkPendingCallback 1 1));
    [reflexivity|discriminate|lia|discriminate].
Defined.

(** X25. [createGPUError] returns null exactly for the NoError type.
    Every error object it returns carries a non-empty message: the given
    one, or "Unknown GPU error" when that is empty. The class is
    out-of-memory for type OutOfMemory, internal for type Internal, and
    validation for every other type, the Unknown type and unlisted
    numbers included. *)
Theorem createGPUError_classifies (type : Z) (message : string) :
  (createGPUError type message = None <-> type = WGPUErrorType_NoError)
  /\ (forall e,
         createGPUError type message = Some e ->
         gpu_message e <> ""%string
         /\ gpu_message e = (if String.eqb message "" then "Unknown GPU error"%string
                             else message)
         /\ e = (if type =? WGPUErrorType_OutOfMemory
                 then GPUOutOfMemoryError (gpu_message e)
                 else if type =? WGPUErrorType_Internal
                      then GPUInternalError (gpu_message e)
                      else GPUValidationError (gpu_message e))).
Proof.
  unfold createGPUError, WGPUErrorType_NoError, WGPUErrorType_Validation,
         WGPUErrorType_OutOfMemory, WGPUErrorType_Internal.
  cbv zeta.
  assert (Hm : (if String.eqb message "" then "Unknown GPU error"%string else message)
               <> ""%string).
  { destruct (String.eqb message "") eqn:E; [discriminate|]. now apply String.eqb_neq. }
  split.
  - destruct (type =? 1) eqn:E1; [apply Z.eqb_eq in E1; tauto|].
    apply Z.eqb_neq in E1.
    destruct (type =? 2); [|destruct (type =? 3); [|destruct (type =? 4)]];
      split; (discriminate || contradiction).
  - intros e H. destruct (type =? 1); [discriminate|].
    destruct (type =? 2) eqn:E2.
    + apply Z.eqb_eq in E2. subst type. injection H as <-. cbn. auto.
    + destruct (type =? 3); [injection H as <-; cbn; auto|].
      destruct (type =? 4); injection H as <-; cbn; auto.
Qed.

Lemma createGPUError_classifies_witness :
  gpu_message (GPUValidationError "Unknown GPU error") <> ""%string
  /\ gpu_message (GPUValidationError "Unknown GPU error")
     = (if String.eqb "" "" then "Unknown GPU error"%string else ""%string)
  /\ GPUValidationError "Unknown GPU error"
     = (if 7 =? WGPUErrorType_OutOfMemory
        then GPUOutOfMemoryError (gpu_message (GPUValidationError "Unknown GPU error"))
        else if 7 =? WGPUErrorType_Internal
             then GPUInternalError (gpu_message (GPUValidationError "Unknown GPU error"))
             else GPUValidationError (gpu_message (GPUValidationError "Unknown GPU error"))).
Proof.
  apply (proj2 (createGPUError_classifies 7 "")). reflexivity.
Defined.

End BridgeClaims.

Section DescriptorFacts.
Import Layout DataView Encoder Registry Bridge.

Lemma readAs_ptr (view : Buffer) (offset n : Z) :
  readAs Pptr view offset = Returns (SNum n) -> readPtr view offset = Returns n.
Proof.
  unfold readAs. destruct (readPtr view offset); cbn [bind]; congruence.
Qed.

Lemma readAs_u32 (view : Buffer) (offset n : Z) :
  readAs Pu32 view offset = Returns (SNum n) -> readU32 view offset = Returns n.
Proof.
  unfold readAs. destruct (readU32 view offset); cbn [bind]; congruence.
Qed.

(** X26. The descriptor built by [createAdapterCallback] carries the
    token to the native side and back. In a registry reached from a new
    one, with the token and the trampoline's address below 2^53, the
    call returns; the descriptor is the newest allocation the encoder
    retains and its address is the returned pointer; it has 40 bytes and
    decodes to a null chain at offset 0, mode AllowProcessEvents at 8,
    the trampoline's address at 16, the token at 24 and null at 32; and
    the trampoline fired with status Success and the token read at 24
    fulfils the returned promise with the adapter it was handed. *)
Theorem callback_descriptor_carries_token
        (ptr : list byte -> Z) (JSCallback_ptr : Z -> Z)
        (es : list Event) (enc : StructEncoder) :
  let st := steps es new_registry in
  nextId st < 2 ^ 53 ->
  0 <= JSCallback_ptr (nextId st) < 2 ^ 53 ->
  exists c descriptor token,
    createAdapterCallback ptr JSCallback_ptr st enc = Returns c
    /\ allocations (encoder c) = allocations enc ++ [descriptor]
    /\ callbackInfoPtr c = ptr descriptor
    /\ Z.of_nat (length descriptor) = 40
    /\ readPtr descriptor 0 = Returns 0
    /\ readU32 descriptor 8 = Returns WGPUCallbackMode_AllowProcessEvents
    /\ readPtr descriptor 16 = Returns (JSCallback_ptr (promise c))
    /\ readPtr descriptor 24 = Returns token
    /\ readPtr descriptor 32 = Returns 0
    /\ forall mem adapter,
         promise_state
           (promises (adapterCallback mem (registry c)
                                      WGPURequestAdapterStatus_Success adapter 0 0 token))
           (promise c)
         = Some (Fulfilled adapter).
Proof.
  cbv zeta. set (st := steps es new_registry). intros Hid Hcb.
  assert (K : Kept false st)
    by (apply Kept_steps; [discriminate|apply Kept_new]).
  pose proof (kept_first _ st K) as H1. pose proof (kept_inv _ st K) as I.
  set (values := [ ("nextInChain"%string, VPrim (SNum 0));
                   ("mode"%string, VPrim (SNum WGPUCallbackMode_AllowProcessEvents));
                   ("callback"%string, VPrim (SNum (JSCallback_ptr (nextId st))));
                   ("userdata1"%string, VPrim (SNum (nextId st)));
                   ("userdata2"%string, VPrim (SNum 0)) ]).
  assert (Hsound : sound (TStruct WGPURequestAdapterCallbackInfo)).
  { apply defineStruct_sound. cbn. repeat constructor. }
  assert (Hfits : fits (TStruct WGPURequestAdapterCallbackInfo) (VRec values)).
  { cbn. repeat split; try reflexivity.
    - apply andb_true_iff. split; [apply Z.leb_le|apply Z.ltb_lt]; lia.
    - apply andb_true_iff. split; [apply Z.leb_le|apply Z.ltb_lt]; lia. }
  assert (Hrange : exact_range WGPURequestAdapterCallbackInfo)
    by (unfold exact_range; vm_compute; discriminate).
  destruct (encode_reads_back ptr enc _ values Hsound Hrange Hfits) as (r & E & L & R).
  unfold createAdapterCallback. cbv zeta. fold values. rewrite E. cbn [bind].
  unfold encode in E.
  rewrite ArrayBuffer_new_returns in E by (vm_compute; split; discriminate).
  change (sl_size WGPURequestAdapterCallbackInfo) with 40 in E, L.
  cbn [bind] in E.
  destruct (encodeFields _ values _) as [u8| |] eqn:W; cbn [bind] in E; try discriminate.
  injection E as <-. cbn [fst snd es_buffer es_ptr allocations push] in *.
  exists (mkCreated (ptr u8) (nextId st)
                    (mkState (Map_set (pending st) (nextId st)
                                      (mkPendingCallback (nextId st) (nextId st)))
                             (nextId st + 1) (promises st ++ [(nextId st, Pending)])
                             (calls st) (timers st) (closed st))
                    (mkStructEncoder (allocations enc ++ [u8]))), u8, (nextId st).
  cbn [encoder callbackInfoPtr promise registry allocations].
  cbn in R. destruct R as (R0 & R8 & R16 & R24 & R32 & _).
  split; [reflexivity|]. split; [reflexivity|]. split; [reflexivity|].
  split; [assumption|].
  split; [now apply readAs_ptr|]. split; [now apply readAs_u32|].
  split; [now apply readAs_ptr|]. split; [now apply readAs_ptr|].
  split; [now apply readAs_ptr|].
  intros mem adapter.
  change (mkState _ _ _ _ _ _) with (register st).
  pose proof (Inv_register st I) as I'.
  assert (G : exists p, Map_get (pending (register st)) (nextId st) = Some p
                        /\ pc_promise p = nextId st
                        /\ promise_state (promises (register st)) (nextId st)
                           = Some Pending).
  { destruct (Map_get (pending (register st)) (nextId st)) as [p|] eqn:G.
    - exists p. split; [reflexivity|].
      apply Map_get_In in G. now apply (inv_entries _ I') in G.
    - exfalso. apply Map_get_None in G. apply G.
      rewrite (register_pending st I), map_app. apply in_or_app. right. now left. }
  destruct G as (p & G & Hp & Hs).
  rewrite adapterCallback_promises, G. unfold outcome_of, WGPURequestAdapterStatus_Success.
  cbn [Z.eqb Pos.eqb]. rewrite settle_state, Hp, Hs, Z.eqb_refl.
  reflexivity.
Qed.

Lemma callback_descriptor_carries_token_witness :
  exists c descriptor token,
    createAdapterCallback (fun _ => 4096) (fun k => 8192 + k)
                          (steps [Create; Cleanup] new_registry) (mkStructEncoder [])
    = Returns c
    /\ allocations (encoder c) = allocations (mkStructEncoder []) ++ [descriptor]
    /\ callbackInfoPtr c = (fun _ => 4096) descriptor
    /\ Z.of_nat (length descriptor) = 40
    /\ readPtr descriptor 0 = Returns 0
    /\ readU32 descriptor 8 = Returns WGPUCallbackMode_AllowProcessEvents
    /\ readPtr descriptor 16 = Returns ((fun k => 8192 + k) (promise c))
    /\ readPtr descriptor 24 = Returns token
    /\ readPtr descriptor 32 = Returns 0
    /\ forall mem adapter,
         promise_state
           (promises (adapterCallback mem (registry c)
                                      WGPURequestAdapterStatus_Success adapter 0 0 token))
           (promise c)
         = Some (Fulfilled adapter).
Proof.
  apply (callback_descriptor_carries_token
           (fun _ => 4096) (fun k => 8192 + k) [Create; Cleanup] (mkStructEncoder []));
    cbn; lia.
Defined.

End DescriptorFacts.
